(** * Flum IPTV: playback orchestration core

    A shallow embedding of the renderer-side playback core of Flum IPTV
    (PlayerManager and its three adapters, QualitySelector, StreamRecorder)
    together with the properties of it that the specification states.

    Conventions.
    - A JavaScript string is the list of its UTF-16 code units ([list N]).
    - Objects are records; [null]/[undefined] fields are [option]s.
    - Methods are state transformers; calls made on collaborators (the
      video element, the streaming engines, the caller's callbacks) are
      recorded, in program order, in a trace of [Action]s. *)

From Stdlib Require Import List Bool Arith ZArith NArith Lia String Ascii.
From Stdlib Require Import Permutation Sorted.
Import ListNotations.

(* ================================================================== *)
(** * JavaScript strings *)
(* ================================================================== *)

Module JS.

Definition jsstring := list N.

(** A string literal: one code unit per character. *)
Definition js (s : string) : jsstring :=
  map N_of_ascii (list_ascii_of_string s).

Definition in_range (lo hi c : N) : bool := (lo <=? c)%N && (c <=? hi)%N.

(** [String.prototype.toLowerCase], one code unit at a time.  On the
    Latin-1 range this is the exact mapping (A-Z, and U+00C0..U+00DE
    without the multiplication sign U+00D7).  Code units above it are
    left alone: their real lower-case forms are never one of the ASCII
    characters that occur in a stream marker. *)
Definition lower_unit (c : N) : N :=
  if in_range 65 90 c then (c + 32)%N
  else if in_range 192 222 c && negb (c =? 215)%N then (c + 32)%N
  else c.

Definition toLowerCase (s : jsstring) : jsstring := map lower_unit s.

Fixpoint startsWith (s needle : jsstring) {struct needle} : bool :=
  match needle, s with
  | [], _ => true
  | _ :: _, [] => false
  | x :: needle', y :: s' => (x =? y)%N && startsWith s' needle'
  end.

(** [String.prototype.includes]. *)
Fixpoint includes (s needle : jsstring) : bool :=
  startsWith s needle ||
  match s with
  | [] => false
  | _ :: s' => includes s' needle
  end.

(** [s.slice(0, n)]. *)
Definition slice0 (n : nat) (s : jsstring) : jsstring := firstn n s.

End JS.

Import JS.

(* ================================================================== *)
(** * PlayerManager.detectStreamType *)
(* ================================================================== *)

Inductive StreamType := hls | dash | native.

Definition StreamType_eqb (a b : StreamType) : bool :=
  match a, b with
  | hls, hls | dash, dash | native, native => true
  | _, _ => false
  end.

Definition detectStreamType (url : jsstring) : StreamType :=
  let lowerUrl := toLowerCase url in
  if includes lowerUrl (js ".m3u8") ||
     includes lowerUrl (js "format=m3u8") ||
     includes lowerUrl (js "/hls/") ||
     includes lowerUrl (js "hls.") ||
     includes lowerUrl (js ".m3u8?")
  then hls
  else if includes lowerUrl (js ".mpd") ||
          includes lowerUrl (js "format=mpd") ||
          includes lowerUrl (js "/dash/")
  then dash
  else if includes lowerUrl (js ".mp4") ||
          includes lowerUrl (js ".webm") ||
          includes lowerUrl (js ".ogg") ||
          includes lowerUrl (js ".mov")
  then native
  else hls.

(** A locator contains marker [m] "in any case": some substring of the
    locator lower-cases to [m]. *)
Definition Contains (m : string) (url : jsstring) : Prop :=
  exists pre mid post,
    url = pre ++ mid ++ post /\ toLowerCase mid = js m.

Definition ContainsAny (ms : list string) (url : jsstring) : Prop :=
  exists m, In m ms /\ Contains m url.

Definition hlsMarkers : list string :=
  [".m3u8"; "format=m3u8"; "/hls/"; "hls."]%string.
Definition dashMarkers : list string :=
  [".mpd"; "format=mpd"; "/dash/"]%string.
Definition directMarkers : list string :=
  [".mp4"; ".webm"; ".ogg"; ".mov"]%string.

(** Some marker of the list occurs in the lower-cased locator. *)
Definition marked (ms : list string) (url : jsstring) : bool :=
  existsb (fun m => includes (toLowerCase url) (js m)) ms.

(** The claim C1 as the specification words it: [.m3u8] alone decides the
    HLS family, and a locator without it that carries a DASH marker is
    DASH. *)
Definition classify_as_stated (url : jsstring) : Prop :=
  (Contains ".m3u8" url -> detectStreamType url = hls) /\
  (~ Contains ".m3u8" url -> ContainsAny dashMarkers url ->
   detectStreamType url = dash) /\
  (~ Contains ".m3u8" url -> ~ ContainsAny dashMarkers url ->
   ContainsAny directMarkers url -> detectStreamType url = native) /\
  (~ Contains ".m3u8" url -> ~ ContainsAny dashMarkers url ->
   ~ ContainsAny directMarkers url -> detectStreamType url = hls).


(* ================================================================== *)
(** * PlayerManager and its adapters *)
(* ================================================================== *)

(** The manager, its three adapter objects, the video element and the
    JavaScript run time (timers, promises, the microtask queue) form one
    [World].  An [Event] is one task of the event loop: a call made by the
    application, a timer that fires, or an event delivered by an engine or
    by the video element.  [step] runs the task to completion and then the
    microtasks it queued (the continuations of [load] after its [await]).
    Engine and element events are delivered as tasks of their own, and the
    caller's callbacks are recorded in the trace without being run. *)

Module Player.

Definition TimerId := nat.
Definition EngineId := nat.
Definition LoadId := nat.

(** [data.type] of an hls.js ERROR event. *)
Inductive HlsErrorType :=
| NETWORK_ERROR
| MEDIA_ERROR
| OTHER_TYPE (name : jsstring).

(** The payload of an hls.js ERROR event. *)
Record HlsErrorData := mkHlsErrorData {
  e_type : HlsErrorType;
  e_details : jsstring;
  e_fatal : bool
}.

Inductive ErrorMessage :=
| MsgLoadTimeout                                     (* 'Load timeout' *)
| MsgHlsNotSupported          (* 'HLS is not supported in this browser' *)
| MsgFatalHls (ty : HlsErrorType) (details : jsstring)
                                  (* `Fatal HLS error: ${type} - ${details}` *)
| MsgDashNotAvailable                        (* 'DASH.js is not available' *)
| MsgFailedToLoadVideo.                         (* 'Failed to load video' *)

(** What reaches an [onError] callback or rejects a promise. *)
Inductive ErrorValue :=
| JsError (m : ErrorMessage)          (* new Error(m) *)
| HlsData (d : HlsErrorData)          (* the hls.js payload, passed on as is *)
| DashErrorEvent (fatal : bool)       (* a dash.js error event; [fatal] is
                                         the truthiness of its [fatal] property *)
| DashThrown                          (* an exception raised by dash.js *)
| VideoErrorEvent.                    (* the element's 'error' Event *)

(** [error && error.fatal] *)
Definition is_fatal (error : ErrorValue) : bool :=
  match error with
  | HlsData d => e_fatal d
  | DashErrorEvent f => f
  | JsError _ | DashThrown | VideoErrorEvent => false
  end.

(** Where dash.js raises, if it does, inside the [try] block of
    DashAdapter.load. *)
Inductive DashThrow := NoThrow | ThrowAtCreate | ThrowAtInitialize.

(** The browser the code runs in. *)
Record Env := mkEnv {
  canPlayNativeHls : bool;
      (* videoElement.canPlayType('application/vnd.apple.mpegurl') *)
  hlsjs_supported : bool;             (* HlsAdapter.isSupported() *)
  dashjs_supported : bool;            (* DashAdapter.isSupported() *)
  dash_throws : DashThrow
}.

(** [this.hls] with the closure variable [resolved] of the [load] call that
    created it, the url of that call and the promise it settles. *)
Record HlsEngine := mkHlsEngine {
  h_id : EngineId;
  h_owner : LoadId;
  h_url : jsstring;
  h_resolved : bool
}.

(** [this.player] and the promise of the [load] call that created it. *)
Record DashEngine := mkDashEngine {
  d_id : EngineId;
  d_owner : LoadId
}.

(** Listeners the adapters register on the video element, all [once]. *)
Inductive Handler :=
| NativeLoaded (k : LoadId)       (* NativeAdapter: loadedHandler *)
| NativeError (k : LoadId)        (* NativeAdapter: errorHandler *)
| HlsNativeLoaded (k : LoadId)    (* HlsAdapter, native HLS: () => resolve() *)
| HlsNativeError (k : LoadId).    (* HlsAdapter, native HLS: (e) => reject(e) *)

Definition on_loadedmetadata (h : Handler) : bool :=
  match h with
  | NativeLoaded _ | HlsNativeLoaded _ => true
  | NativeError _ | HlsNativeError _ => false
  end.

Definition Handler_eqb (a b : Handler) : bool :=
  match a, b with
  | NativeLoaded j, NativeLoaded k
  | NativeError j, NativeError k
  | HlsNativeLoaded j, HlsNativeLoaded k
  | HlsNativeError j, HlsNativeError k => Nat.eqb j k
  | _, _ => false
  end.

(** A pending [setTimeout] of [load]: it rejects the timeout promise of
    load [t_owner]. *)
Record Timer := mkTimer {
  t_id : TimerId;
  t_owner : LoadId;
  t_deadline : Z
}.

(** How the race of a [load] call was settled. *)
Inductive Outcome :=
| Resolved
| RejectedWith (e : ErrorValue).

(** The two places that call the caller's [onError]. *)
Inductive ErrorSite :=
| FromAdapter                 (* setupAdapterEvents, currentAdapter.onError *)
| FromLoad (k : LoadId).      (* the catch block of load call k *)

Inductive Action :=
| ClearTimeout (t : TimerId)
| SetTimeout (t : TimerId) (ms : Z)
| Select (a : StreamType)                (* this.currentAdapter = adapters[a] *)
| AdapterLoad (a : StreamType) (url : jsstring)
| AdapterDestroy (a : StreamType)
| EngineCreate (a : StreamType) (e : EngineId)
| EngineDestroy (a : StreamType) (e : EngineId)
                                         (* hls.destroy() / player.reset() *)
| HlsAttachMedia (e : EngineId)
| HlsLoadSource (e : EngineId) (url : jsstring)
| HlsStartLoad (e : EngineId)
| HlsRecoverMediaError (e : EngineId)
| DashInitialize (e : EngineId) (url : jsstring)
| VideoSetSrc (url : jsstring)
| VideoRemoveSrc
| VideoLoad
| VideoPause
| VideoPlay
| CallOnError (site : ErrorSite) (e : ErrorValue)
| CallOnStateChangePlaying
| CallOnLevelsAvailable
| LoadReturns (k : LoadId) (ok : bool).

Record World := mkWorld {
  currentAdapter : option StreamType;
  currentUrl : option jsstring;
  loadTimeoutId : option TimerId;
  onError : bool;
  onStateChange : bool;
  onLevelsAvailable : bool;
  hls_hls : option HlsEngine;
  hls_wired : bool;
  dash_player : option DashEngine;
  dash_wired : bool;
  native_wired : bool;
  video_src : option jsstring;
  listeners : list Handler;
  env : Env;
  now : Z;
  timers : list Timer;
  next_timer : TimerId;
  next_engine : EngineId;
  next_load : LoadId;
  settled : list (LoadId * Outcome);
  microtasks : list (LoadId * Outcome);
  log : list Action
}.

(** Field updates: [set_f v w] is [w] with field [f] replaced by [v]. *)

Definition set_currentAdapter (v : option StreamType) (w : World) : World :=
  match w with
  | mkWorld f0 f1 f2 f3 f4 f5 f6 f7 f8 f9 f10 f11 f12 f13 f14 f15 f16 f17
    f18 f19 f20 f21 =>
      mkWorld v f1 f2 f3 f4 f5 f6 f7 f8 f9 f10 f11 f12 f13 f14 f15 f16 f17
        f18 f19 f20 f21
  end.

Definition set_currentUrl (v : option jsstring) (w : World) : World :=
  match w with
  | mkWorld f0 f1 f2 f3 f4 f5 f6 f7 f8 f9 f10 f11 f12 f13 f14 f15 f16 f17
    f18 f19 f20 f21 =>
      mkWorld f0 v f2 f3 f4 f5 f6 f7 f8 f9 f10 f11 f12 f13 f14 f15 f16 f17
        f18 f19 f20 f21
  end.

Definition set_loadTimeoutId (v : option TimerId) (w : World) : World :=
  match w with
  | mkWorld f0 f1 f2 f3 f4 f5 f6 f7 f8 f9 f10 f11 f12 f13 f14 f15 f16 f17
    f18 f19 f20 f21 =>
      mkWorld f0 f1 v f3 f4 f5 f6 f7 f8 f9 f10 f11 f12 f13 f14 f15 f16 f17
        f18 f19 f20 f21
  end.

Definition set_hls_hls (v : option HlsEngine) (w : World) : World :=
  match w with
  | mkWorld f0 f1 f2 f3 f4 f5 f6 f7 f8 f9 f10 f11 f12 f13 f14 f15 f16 f17
    f18 f19 f20 f21 =>
      mkWorld f0 f1 f2 f3 f4 f5 v f7 f8 f9 f10 f11 f12 f13 f14 f15 f16 f17
        f18 f19 f20 f21
  end.

Definition set_hls_wired (v : bool) (w : World) : World :=
  match w with
  | mkWorld f0 f1 f2 f3 f4 f5 f6 f7 f8 f9 f10 f11 f12 f13 f14 f15 f16 f17
    f18 f19 f20 f21 =>
      mkWorld f0 f1 f2 f3 f4 f5 f6 v f8 f9 f10 f11 f12 f13 f14 f15 f16 f17
        f18 f19 f20 f21
  end.

Definition set_dash_player (v : option DashEngine) (w : World) : World :=
  match w with
  | mkWorld f0 f1 f2 f3 f4 f5 f6 f7 f8 f9 f10 f11 f12 f13 f14 f15 f16 f17
    f18 f19 f20 f21 =>
      mkWorld f0 f1 f2 f3 f4 f5 f6 f7 v f9 f10 f11 f12 f13 f14 f15 f16 f17
        f18 f19 f20 f21
  end.

Definition set_dash_wired (v : bool) (w : World) : World :=
  match w with
  | mkWorld f0 f1 f2 f3 f4 f5 f6 f7 f8 f9 f10 f11 f12 f13 f14 f15 f16 f17
    f18 f19 f20 f21 =>
      mkWorld f0 f1 f2 f3 f4 f5 f6 f7 f8 v f10 f11 f12 f13 f14 f15 f16 f17
        f18 f19 f20 f21
  end.

Definition set_native_wired (v : bool) (w : World) : World :=
  match w with
  | mkWorld f0 f1 f2 f3 f4 f5 f6 f7 f8 f9 f10 f11 f12 f13 f14 f15 f16 f17
    f18 f19 f20 f21 =>
      mkWorld f0 f1 f2 f3 f4 f5 f6 f7 f8 f9 v f11 f12 f13 f14 f15 f16 f17
        f18 f19 f20 f21
  end.

Definition set_video_src (v : option jsstring) (w : World) : World :=
  match w with
  | mkWorld f0 f1 f2 f3 f4 f5 f6 f7 f8 f9 f10 f11 f12 f13 f14 f15 f16 f17
    f18 f19 f20 f21 =>
      mkWorld f0 f1 f2 f3 f4 f5 f6 f7 f8 f9 f10 v f12 f13 f14 f15 f16 f17
        f18 f19 f20 f21
  end.

Definition set_listeners (v : list Handler) (w : World) : World :=
  match w with
  | mkWorld f0 f1 f2 f3 f4 f5 f6 f7 f8 f9 f10 f11 f12 f13 f14 f15 f16 f17
    f18 f19 f20 f21 =>
      mkWorld f0 f1 f2 f3 f4 f5 f6 f7 f8 f9 f10 f11 v f13 f14 f15 f16 f17
        f18 f19 f20 f21
  end.

Definition set_now (v : Z) (w : World) : World :=
  match w with
  | mkWorld f0 f1 f2 f3 f4 f5 f6 f7 f8 f9 f10 f11 f12 f13 f14 f15 f16 f17
    f18 f19 f20 f21 =>
      mkWorld f0 f1 f2 f3 f4 f5 f6 f7 f8 f9 f10 f11 f12 f13 v f15 f16 f17
        f18 f19 f20 f21
  end.

Definition set_timers (v : list Timer) (w : World) : World :=
  match w with
  | mkWorld f0 f1 f2 f3 f4 f5 f6 f7 f8 f9 f10 f11 f12 f13 f14 f15 f16 f17
    f18 f19 f20 f21 =>
      mkWorld f0 f1 f2 f3 f4 f5 f6 f7 f8 f9 f10 f11 f12 f13 f14 v f16 f17
        f18 f19 f20 f21
  end.

Definition set_next_timer (v : TimerId) (w : World) : World :=
  match w with
  | mkWorld f0 f1 f2 f3 f4 f5 f6 f7 f8 f9 f10 f11 f12 f13 f14 f15 f16 f17
    f18 f19 f20 f21 =>
      mkWorld f0 f1 f2 f3 f4 f5 f6 f7 f8 f9 f10 f11 f12 f13 f14 f15 v f17
        f18 f19 f20 f21
  end.

Definition set_next_engine (v : EngineId) (w : World) : World :=
  match w with
  | mkWorld f0 f1 f2 f3 f4 f5 f6 f7 f8 f9 f10 f11 f12 f13 f14 f15 f16 f17
    f18 f19 f20 f21 =>
      mkWorld f0 f1 f2 f3 f4 f5 f6 f7 f8 f9 f10 f11 f12 f13 f14 f15 f16 v
        f18 f19 f20 f21
  end.

Definition set_next_load (v : LoadId) (w : World) : World :=
  match w with
  | mkWorld f0 f1 f2 f3 f4 f5 f6 f7 f8 f9 f10 f11 f12 f13 f14 f15 f16 f17
    f18 f19 f20 f21 =>
      mkWorld f0 f1 f2 f3 f4 f5 f6 f7 f8 f9 f10 f11 f12 f13 f14 f15 f16
        f17 v f19 f20 f21
  end.

Definition set_settled (v : list (LoadId * Outcome)) (w : World) : World :=
  match w with
  | mkWorld f0 f1 f2 f3 f4 f5 f6 f7 f8 f9 f10 f11 f12 f13 f14 f15 f16 f17
    f18 f19 f20 f21 =>
      mkWorld f0 f1 f2 f3 f4 f5 f6 f7 f8 f9 f10 f11 f12 f13 f14 f15 f16
        f17 f18 v f20 f21
  end.

Definition set_microtasks (v : list (LoadId * Outcome)) (w : World) : World :=
  match w with
  | mkWorld f0 f1 f2 f3 f4 f5 f6 f7 f8 f9 f10 f11 f12 f13 f14 f15 f16 f17
    f18 f19 f20 f21 =>
      mkWorld f0 f1 f2 f3 f4 f5 f6 f7 f8 f9 f10 f11 f12 f13 f14 f15 f16
        f17 f18 f19 v f21
  end.

Definition set_log (v : list Action) (w : World) : World :=
  match w with
  | mkWorld f0 f1 f2 f3 f4 f5 f6 f7 f8 f9 f10 f11 f12 f13 f14 f15 f16 f17
    f18 f19 f20 f21 =>
      mkWorld f0 f1 f2 f3 f4 f5 f6 f7 f8 f9 f10 f11 f12 f13 f14 f15 f16
        f17 f18 f19 f20 v
  end.
(** The state a [new PlayerManager(videoElement)] starts from; the three
    booleans say which callbacks the application registers. *)
Definition init (e : Env) (cbError cbState cbLevels : bool) : World :=
  mkWorld None None None cbError cbState cbLevels
    None false None false false None [] e 0%Z [] 0 0 0 [] [] [].

(** The calls made so far, oldest first. *)
Definition trace (w : World) : list Action := rev (log w).

Definition emit (a : Action) (w : World) : World :=
  set_log (a :: log w) w.

(** ** Timers and promises *)

Definition clearTimeout (t : TimerId) (w : World) : World :=
  emit (ClearTimeout t)
    (set_timers (filter (fun x => negb (t_id x =? t)) (timers w)) w).

(** [if (this.loadTimeoutId) { clearTimeout(this.loadTimeoutId);
    this.loadTimeoutId = null; }] *)
Definition cancelLoadTimeout (w : World) : World :=
  match loadTimeoutId w with
  | Some t => set_loadTimeoutId None (clearTimeout t w)
  | None => w
  end.

Definition is_settled (k : LoadId) (w : World) : bool :=
  existsb (fun x => fst x =? k) (settled w).

(** [resolve()] or [reject(e)] on a promise of load [k]: the first call
    settles the race and queues the continuation of [load]; later calls
    do nothing. *)
Definition settle (k : LoadId) (o : Outcome) (w : World) : World :=
  if is_settled k w then w
  else set_microtasks (microtasks w ++ [(k, o)])
         (set_settled ((k, o) :: settled w) w).

(** ** Adapters: destroy *)

Definition HlsAdapter_destroy (w : World) : World :=
  let w := emit (AdapterDestroy hls) w in
  match hls_hls w with
  | Some h => set_hls_hls None (emit (EngineDestroy hls (h_id h)) w)
  | None => w
  end.

Definition DashAdapter_destroy (w : World) : World :=
  let w := emit (AdapterDestroy dash) w in
  match dash_player w with
  | Some p => set_dash_player None (emit (EngineDestroy dash (d_id p)) w)
  | None => w
  end.

Definition NativeAdapter_destroy (w : World) : World :=
  let w := emit (AdapterDestroy native) w in
  let w := emit (VideoSetSrc []) (set_video_src (Some []) w) in
  emit VideoLoad w.

Definition adapter_destroy (a : StreamType) : World -> World :=
  match a with
  | hls => HlsAdapter_destroy
  | dash => DashAdapter_destroy
  | native => NativeAdapter_destroy
  end.

(** ** PlayerManager.stop *)

Definition stop (w : World) : World :=
  let w := cancelLoadTimeout w in
  let w := match currentAdapter w with
           | Some a => set_currentAdapter None (adapter_destroy a w)
           | None => w
           end in
  let w := emit VideoPause w in
  let w := emit VideoRemoveSrc (set_video_src None w) in
  let w := emit VideoLoad w in
  set_currentUrl None w.

(** ** Adapters: load.  [k] names the promise the call returns. *)

Definition HlsAdapter_load (url : jsstring) (k : LoadId) (w : World) : World :=
  let w := emit (AdapterLoad hls url) w in
  let w := HlsAdapter_destroy w in
  if canPlayNativeHls (env w) then
    let w := emit (VideoSetSrc url) (set_video_src (Some url) w) in
    set_listeners (listeners w ++ [HlsNativeLoaded k; HlsNativeError k]) w
  else if negb (hlsjs_supported (env w)) then
    settle k (RejectedWith (JsError MsgHlsNotSupported)) w
  else
    let e := next_engine w in
    let w := set_next_engine (S e) w in
    let w := set_hls_hls (Some (mkHlsEngine e k url false))
               (emit (EngineCreate hls e) w) in
    emit (HlsAttachMedia e) w.

Definition DashAdapter_load (url : jsstring) (k : LoadId) (w : World) : World :=
  let w := emit (AdapterLoad dash url) w in
  let w := DashAdapter_destroy w in
  if negb (dashjs_supported (env w)) then
    settle k (RejectedWith (JsError MsgDashNotAvailable)) w
  else
    match dash_throws (env w) with
    | ThrowAtCreate => settle k (RejectedWith DashThrown) w
    | after =>
        let e := next_engine w in
        let w := set_next_engine (S e) w in
        let w := set_dash_player (Some (mkDashEngine e k))
                   (emit (EngineCreate dash e) w) in
        match after with
        | ThrowAtInitialize => settle k (RejectedWith DashThrown) w
        | _ => emit (DashInitialize e url) w
        end
    end.

Definition NativeAdapter_load (url : jsstring) (k : LoadId) (w : World) : World :=
  let w := emit (AdapterLoad native url) w in
  let w := emit (VideoSetSrc []) (set_video_src (Some []) w) in
  let w := set_listeners (listeners w ++ [NativeLoaded k; NativeError k]) w in
  let w := emit (VideoSetSrc url) (set_video_src (Some url) w) in
  emit VideoLoad w.

Definition adapter_load (a : StreamType) : jsstring -> LoadId -> World -> World :=
  match a with
  | hls => HlsAdapter_load
  | dash => DashAdapter_load
  | native => NativeAdapter_load
  end.

(** ** PlayerManager.setupAdapterEvents *)

Definition setupAdapterEvents (w : World) : World :=
  match currentAdapter w with
  | None => w
  | Some hls => set_hls_wired true w
  | Some dash => set_dash_wired true w
  | Some native => set_native_wired true w
  end.

Definition wired (a : StreamType) (w : World) : bool :=
  match a with
  | hls => hls_wired w
  | dash => dash_wired w
  | native => native_wired w
  end.

(** The closure installed as [currentAdapter.onError]. *)
Definition forward_error (error : ErrorValue) (w : World) : World :=
  let w := if is_fatal error then cancelLoadTimeout w else w in
  if onError w then emit (CallOnError FromAdapter error) w else w.

(** [if (this.onError) this.onError(error)] inside adapter [a]. *)
Definition adapter_onError (a : StreamType) (error : ErrorValue) (w : World)
  : World :=
  if wired a w then forward_error error w else w.

(** The closure installed as [currentAdapter.onLevelsAvailable]. *)
Definition forward_levels (w : World) : World :=
  if onLevelsAvailable w then emit CallOnLevelsAvailable w else w.

(** The closure installed as [currentAdapter.onStateChange], at 'playing'. *)
Definition forward_playing (w : World) : World :=
  if onStateChange w then emit CallOnStateChangePlaying w else w.

(** ** PlayerManager.load *)

Definition LOAD_TIMEOUT_MS : Z := 30000.

(** The body of [load] up to its [await]. *)
Definition load (url : jsstring) (w : World) : World :=
  let w := stop w in
  let streamType := detectStreamType url in
  let w := set_currentAdapter (Some streamType) (emit (Select streamType) w) in
  let w := set_currentUrl (Some url) w in
  let w := setupAdapterEvents w in
  let k := next_load w in
  let w := set_next_load (S k) w in
  let w := adapter_load streamType url k w in
  let t := next_timer w in
  let w := set_next_timer (S t) w in
  let w := set_timers (mkTimer t k (now w + LOAD_TIMEOUT_MS) :: timers w) w in
  let w := set_loadTimeoutId (Some t) w in
  emit (SetTimeout t LOAD_TIMEOUT_MS) w.

(** The rest of [load], run once the race of call [k] is settled. *)
Definition load_continue (k : LoadId) (o : Outcome) (w : World) : World :=
  match o with
  | Resolved =>
      let w := cancelLoadTimeout w in
      emit (LoadReturns k true) w
  | RejectedWith error =>
      let w := if onError w then emit (CallOnError (FromLoad k) error) w
               else w in
      emit (LoadReturns k false) w
  end.

Definition run_microtasks (w : World) : World :=
  fold_left (fun w ko => load_continue (fst ko) (snd ko) w)
            (microtasks w) (set_microtasks [] w).

(** ** Engine handlers *)

Definition live_hls (e : EngineId) (w : World) : option HlsEngine :=
  match hls_hls w with
  | Some h => if h_id h =? e then Some h else None
  | None => None
  end.

Definition live_dash (e : EngineId) (w : World) : option DashEngine :=
  match dash_player w with
  | Some p => if d_id p =? e then Some p else None
  | None => None
  end.

Definition set_resolved (h : HlsEngine) : HlsEngine :=
  mkHlsEngine (h_id h) (h_owner h) (h_url h) true.

(** HlsAdapter.load, the handler of [Hls.Events.ERROR]. *)
Definition hls_on_error (h : HlsEngine) (data : HlsErrorData) (w : World)
  : World :=
  if e_fatal data then
    let w := adapter_onError hls (HlsData data) w in
    match e_type data with
    | NETWORK_ERROR => emit (HlsStartLoad (h_id h)) w
    | MEDIA_ERROR => emit (HlsRecoverMediaError (h_id h)) w
    | OTHER_TYPE _ =>
        if h_resolved h then w
        else
          let w := set_hls_hls (Some (set_resolved h)) w in
          let w := HlsAdapter_destroy w in
          settle (h_owner h)
            (RejectedWith (JsError (MsgFatalHls (e_type data) (e_details data))))
            w
    end
  else w.

(** HlsAdapter.load, the handler of [Hls.Events.MANIFEST_PARSED]. *)
Definition hls_on_manifest_parsed (h : HlsEngine) (w : World) : World :=
  if h_resolved h then w
  else
    let w := set_hls_hls (Some (set_resolved h)) w in
    let w := emit VideoPlay w in
    settle (h_owner h) Resolved w.

(** DashAdapter.load, the handler of [STREAM_INITIALIZED]. *)
Definition dash_on_stream_initialized (p : DashEngine) (w : World) : World :=
  let w := if dash_wired w then forward_levels w else w in
  settle (d_owner p) Resolved w.

(** One [once] listener of the video element. *)
Definition run_handler (h : Handler) (w : World) : World :=
  let w := set_listeners
             (filter (fun x => negb (Handler_eqb x h)) (listeners w)) w in
  match h with
  | NativeLoaded k =>
      let w := set_listeners
                 (filter (fun x => negb (Handler_eqb x (NativeError k)))
                         (listeners w)) w in
      settle k Resolved w
  | NativeError k =>
      let w := adapter_onError native VideoErrorEvent w in
      settle k (RejectedWith (JsError MsgFailedToLoadVideo)) w
  | HlsNativeLoaded k => settle k Resolved w
  | HlsNativeError k => settle k (RejectedWith VideoErrorEvent) w
  end.

(** The element dispatches an event to the listeners registered for it,
    in registration order. *)
Definition dispatch (loaded : bool) (w : World) : World :=
  fold_left (fun w h => run_handler h w)
            (filter (fun h => Bool.eqb (on_loadedmetadata h) loaded)
                    (listeners w))
            w.

(** ** The event loop *)

Inductive Event :=
| CallLoad (url : jsstring)
| CallStop
| Elapse (ms : Z)
| TimerFires (t : TimerId)
| HlsError (e : EngineId) (data : HlsErrorData)
| HlsMediaAttached (e : EngineId)
| HlsManifestParsed (e : EngineId)
| DashError (e : EngineId) (fatal : bool)
| DashStreamInitialized (e : EngineId)
| DashPlaybackStarted (e : EngineId)
| VideoLoadedMetadata
| VideoError.

Definition find_timer (t : TimerId) (w : World) : option Timer :=
  find (fun x => t_id x =? t) (timers w).

(** A timer fires once its delay has passed, unless it was cleared. *)
Definition timer_fires (t : TimerId) (w : World) : World :=
  match find_timer t w with
  | Some tm =>
      if (t_deadline tm <=? now w)%Z then
        let w := set_timers
                   (filter (fun x => negb (t_id x =? t)) (timers w)) w in
        settle (t_owner tm) (RejectedWith (JsError MsgLoadTimeout)) w
      else w
  | None => w
  end.

Definition handle (ev : Event) (w : World) : World :=
  match ev with
  | CallLoad url => load url w
  | CallStop => stop w
  | Elapse ms => set_now (now w + Z.max 0 ms)%Z w
  | TimerFires t => timer_fires t w
  | HlsError e data =>
      match live_hls e w with
      | Some h => hls_on_error h data w
      | None => w
      end
  | HlsMediaAttached e =>
      match live_hls e w with
      | Some h => emit (HlsLoadSource e (h_url h)) w
      | None => w
      end
  | HlsManifestParsed e =>
      match live_hls e w with
      | Some h => hls_on_manifest_parsed h w
      | None => w
      end
  | DashError e fatal =>
      match live_dash e w with
      | Some _ => adapter_onError dash (DashErrorEvent fatal) w
      | None => w
      end
  | DashStreamInitialized e =>
      match live_dash e w with
      | Some p => dash_on_stream_initialized p w
      | None => w
      end
  | DashPlaybackStarted e =>
      match live_dash e w with
      | Some _ => if dash_wired w then forward_playing w else w
      | None => w
      end
  | VideoLoadedMetadata => dispatch true w
  | VideoError => dispatch false w
  end.

Definition step (ev : Event) (w : World) : World :=
  run_microtasks (handle ev w).

Definition run (evs : list Event) (w : World) : World :=
  fold_left (fun w ev => step ev w) evs w.

(** ** The render target *)

Definition isSome {A} (o : option A) : bool :=
  match o with Some _ => true | None => false end.

(** A source is set on the video element itself. *)
Definition has_source (w : World) : bool :=
  match video_src w with
  | Some (_ :: _) => true
  | _ => false
  end.

(** The media attached to the video element, counted: the hls.js
    instance, the dash.js player and a source set on the element itself.
    The listeners on the element are not part of this count. *)
Definition engines_and_source (w : World) : nat :=
  (if isSome (hls_hls w) then 1 else 0) +
  (if isSome (dash_player w) then 1 else 0) +
  (if has_source w then 1 else 0).





(** The timer of [load] call [k] is still pending. *)
Definition timer_of (k : LoadId) (w : World) : option Timer :=
  find (fun x => t_owner x =? k) (timers w).

(** The actions appended to the trace between [w] and a later [w']. *)
Definition since (w w' : World) : list Action :=
  skipn (List.length (log w)) (trace w').

(** ** Invariants *)

(** The media on the element are the current adapter's: an engine
    belongs to the current adapter, and a source set on the element
    itself to the native adapter or to the HLS adapter without an hls.js
    instance.  (Listeners are not covered: see [holds].) *)
Definition attached_ok (w : World) : bool :=
  match currentAdapter w with
  | None =>
      negb (isSome (hls_hls w)) && negb (isSome (dash_player w)) &&
      negb (has_source w)
  | Some hls =>
      negb (isSome (dash_player w)) &&
      negb (isSome (hls_hls w) && has_source w)
  | Some dash => negb (isSome (hls_hls w)) && negb (has_source w)
  | Some native => negb (isSome (hls_hls w)) && negb (isSome (dash_player w))
  end.

(** What the continuation of a [load] leaves alone. *)
Definition same_player (w w' : World) : Prop :=
  currentAdapter w' = currentAdapter w /\ hls_hls w' = hls_hls w /\
  dash_player w' = dash_player w /\ video_src w' = video_src w /\
  listeners w' = listeners w /\ settled w' = settled w /\
  next_load w' = next_load w /\ next_timer w' = next_timer w /\
  next_engine w' = next_engine w /\ now w' = now w /\
  onError w' = onError w.

(** What an engine or element event may do to the render target: at
    most, the hls.js instance goes away. *)
Definition engines_shrink (w w' : World) : Prop :=
  currentAdapter w' = currentAdapter w /\ video_src w' = video_src w /\
  dash_player w' = dash_player w /\
  (isSome (hls_hls w') = true -> isSome (hls_hls w) = true).

(** The continuations of the [load] calls in [l], in order. *)
Definition continuations (l : list (LoadId * Outcome)) (w : World) : World :=
  fold_left (fun w ko => load_continue (fst ko) (snd ko) w) l w.

(** Between two tasks: every [load] has one timer id, timers carry the id
    of the load that armed them, and no continuation is waiting. *)
Definition timers_ok (w : World) : Prop :=
  next_timer w = next_load w /\
  Forall (fun tm => t_owner tm = t_id tm /\ t_id tm < next_timer w)
         (timers w) /\
  microtasks w = [].

(** The timeout error of load [k], as load's catch block reports it. *)
Definition timeout_error (k : LoadId) : Action :=
  CallOnError (FromLoad k) (JsError MsgLoadTimeout).

(** No timer of load [k] is pending, and [k] is a load already made. *)
Definition timer_gone (k : LoadId) (w : World) : Prop :=
  Forall (fun tm => t_owner tm <> k) (timers w) /\
  k < next_load w /\ microtasks w = [].

(** What a task other than a [load] call may do to timers, queue and
    trace before its microtasks run: it arms no timer, it queues a timeout
    rejection only for a load whose timer was pending, and it reports no
    error from a catch block of [load]. *)
Definition quiet (w w' : World) : Prop :=
  next_timer w' = next_timer w /\ next_load w' = next_load w /\
  (loadTimeoutId w = None -> loadTimeoutId w' = None) /\
  incl (timers w') (timers w) /\
  (exists add, microtasks w' = microtasks w ++ add /\
     forall k, In (k, RejectedWith (JsError MsgLoadTimeout)) add ->
               exists tm, In tm (timers w) /\ t_owner tm = k) /\
  (exists new, log w' = new ++ log w /\
     forall k e, ~ In (CallOnError (FromLoad k) e) new).

(** What one task, microtasks included, may do to timers, queue and trace:
    only a [load] call arms a timer, and a timeout error is reported only
    for a load whose timer was pending. *)
Definition footprint (w w' : World) : Prop :=
  microtasks w' = [] /\
  ((next_timer w' = next_timer w /\ next_load w' = next_load w /\
    incl (timers w') (timers w)) \/
   (next_timer w' = S (next_timer w) /\ next_load w' = S (next_load w) /\
    incl (timers w')
         (mkTimer (next_timer w) (next_load w) (now w + LOAD_TIMEOUT_MS)
          :: timers w))) /\
  (exists new, log w' = new ++ log w /\
     forall k, In (timeout_error k) new ->
               exists tm, In tm (timers w) /\ t_owner tm = k).

(** The live engine of the current adapter reports [error] in event [ev]. *)
Definition reports (ev : Event) (w : World) : option ErrorValue :=
  match ev with
  | HlsError e data =>
      match live_hls e w with
      | Some _ => if e_fatal data && hls_wired w
                  then Some (HlsData data) else None
      | None => None
      end
  | DashError e fatal =>
      match live_dash e w with
      | Some _ => if dash_wired w then Some (DashErrorEvent fatal) else None
      | None => None
      end
  | _ => None
  end.

(** ** Trace fragments the properties below refer to *)

(** What [cancelLoadTimeout] adds to the trace. *)
Definition cancel_actions (w : World) : list Action :=
  match loadTimeoutId w with
  | Some t => [ClearTimeout t]
  | None => []
  end.

(** What [if (this.onError) this.onError(error)] adds to the trace. *)
Definition notify (site : ErrorSite) (error : ErrorValue) (w : World)
  : list Action :=
  if onError w then [CallOnError site error] else [].

(** ** The same code, one field at a time *)

(** The calls [adapter.destroy()] makes. *)
Definition destroy_trace (a : StreamType) (w : World) : list Action :=
  match a with
  | hls =>
      AdapterDestroy hls ::
      match hls_hls w with
      | Some h => [EngineDestroy hls (h_id h)]
      | None => []
      end
  | dash =>
      AdapterDestroy dash ::
      match dash_player w with
      | Some p => [EngineDestroy dash (d_id p)]
      | None => []
      end
  | native => [AdapterDestroy native; VideoSetSrc []; VideoLoad]
  end.

(** The calls [stop()] makes. *)
Definition stop_trace (w : World) : list Action :=
  cancel_actions w ++
  match currentAdapter w with
  | Some a => destroy_trace a w
  | None => []
  end ++
  [VideoPause; VideoRemoveSrc; VideoLoad].

(** [clearTimeout(this.loadTimeoutId)] on the pending timers. *)
Definition timers_after_cancel (w : World) : list Timer :=
  match loadTimeoutId w with
  | Some t => filter (fun x => negb (t_id x =? t)) (timers w)
  | None => timers w
  end.

(** The error an adapter's [load] rejects with before it returns. *)
Definition rejects_at_once (a : StreamType) (e : Env) : option ErrorValue :=
  match a with
  | hls =>
      if canPlayNativeHls e then None
      else if hlsjs_supported e then None
      else Some (JsError MsgHlsNotSupported)
  | dash =>
      if dashjs_supported e then
        match dash_throws e with
        | NoThrow => None
        | ThrowAtCreate | ThrowAtInitialize => Some DashThrown
        end
      else Some (JsError MsgDashNotAvailable)
  | native => None
  end.

(** Whether an adapter's [load] creates a streaming engine. *)
Definition creates_engine (a : StreamType) (e : Env) : bool :=
  match a with
  | hls => negb (canPlayNativeHls e) && hlsjs_supported e
  | dash =>
      dashjs_supported e &&
      match dash_throws e with ThrowAtCreate => false | _ => true end
  | native => false
  end.

(** Whether an adapter's [load] sets a source on the video element
    itself. *)
Definition sets_source (a : StreamType) (e : Env) : bool :=
  match a with
  | hls => canPlayNativeHls e
  | dash => false
  | native => true
  end.

Definition load_listeners (a : StreamType) (e : Env) (k : LoadId)
  : list Handler :=
  match a with
  | hls =>
      if canPlayNativeHls e then [HlsNativeLoaded k; HlsNativeError k]
      else []
  | dash => []
  | native => [NativeLoaded k; NativeError k]
  end.

(** The calls an adapter's [load] makes, the adapter's engine (if any)
    being [old] before the call and [e] the next free engine id. *)
Definition adapter_load_trace (a : StreamType) (url : jsstring)
    (old : list Action) (e : EngineId) (en : Env) : list Action :=
  match a with
  | hls =>
      [AdapterLoad hls url; AdapterDestroy hls] ++ old ++
      (if canPlayNativeHls en then [VideoSetSrc url]
       else if hlsjs_supported en then [EngineCreate hls e; HlsAttachMedia e]
       else [])
  | dash =>
      [AdapterLoad dash url; AdapterDestroy dash] ++ old ++
      (if dashjs_supported en then
         match dash_throws en with
         | ThrowAtCreate => []
         | ThrowAtInitialize => [EngineCreate dash e]
         | NoThrow => [EngineCreate dash e; DashInitialize e url]
         end
       else [])
  | native =>
      [AdapterLoad native url; VideoSetSrc []; VideoSetSrc url; VideoLoad]
  end.

(** The engine-destroying calls of the [this.destroy()] that opens an
    adapter's [load]. *)
Definition engine_teardown (a : StreamType) (w : World) : list Action :=
  match a with
  | hls =>
      match hls_hls w with
      | Some h => [EngineDestroy hls (h_id h)]
      | None => []
      end
  | dash =>
      match dash_player w with
      | Some p => [EngineDestroy dash (d_id p)]
      | None => []
      end
  | native => []
  end.

(** The browser of the examples: hls.js and dash.js, no native HLS. *)
Definition chromium : Env := mkEnv false true true NoThrow.

(** An hls.js load under way in a fresh manager with all callbacks set:
    engine 0, timer 0, load 0. *)
Definition hls_loading : World :=
  run [CallLoad (js "http://x/live.m3u8")] (init chromium true true true).

Definition hls_engine0 : HlsEngine :=
  mkHlsEngine 0 0 (js "http://x/live.m3u8") false.

(** An event of the clock alone: time passes, or a timer is due. *)
Definition only_time (ev : Event) : bool :=
  match ev with
  | Elapse _ | TimerFires _ => true
  | _ => false
  end.

(** A native load abandoned for an HLS load: the listeners of load 0 are
    still on the element, the engine and the pending timer are those of
    load 1. *)
Definition native_then_hls : World :=
  run [CallLoad (js "http://x/film.mp4"); CallLoad (js "http://x/live.m3u8")]
      (init chromium true true true).




(** The claim C5 as the specification words it, for one error event of the
    live hls.js engine [h]: a non-fatal event is not surfaced; a fatal one
    destroys the adapter's engine and fails the load. *)
Definition hls_errors_as_stated (w : World) (h : HlsEngine)
    (data : HlsErrorData) : Prop :=
  let w' := step (HlsError (h_id h) data) w in
  (e_fatal data = false ->
   forall site e, ~ In (CallOnError site e) (since w w')) /\
  (e_fatal data = true ->
   hls_hls w' = None /\ is_settled (h_owner h) w' = true).

End Player.

(* ================================================================== *)
(** * QualitySelector *)
(* ================================================================== *)

(** The selector keeps the levels last fetched from the player manager and
    the current selection, and renders them as a list of buttons in its
    popup.  The manager is seen through what the selector asks of it: the
    levels [getQualityLevels()] returns and the [setQuality(index)] calls
    the selector makes.  Heights, bitrates and indices are integers; a missing
    ([undefined]) number is [None], and [0] is falsy like it. *)

Module Quality.

Local Open Scope Z_scope.

Record Level := mkLevel {
  index : Z;
  height : option Z;
  width : option Z;
  bitrate : option Z
}.

(** [x || 0] *)
Definition or0 (x : option Z) : Z :=
  match x with
  | Some v => v
  | None => 0
  end.

(** The truthiness of an optional number. *)
Definition truthy (x : option Z) : bool := negb (or0 x =? 0).

(** The text of an option. *)
Inductive Label :=
| LabelAuto                (* i18n.t('player.quality.auto') *)
| LabelHeight (h : Z)      (* `${h}p` *)
| LabelKbps (kbps : Z)     (* `${kbps} kbps` *)
| LabelMbps (kbps : Z)     (* `${(kbps / 1000).toFixed(1)} Mbps` *)
| LabelLevel (i : Z).      (* `Level ${i}` *)

(** [Math.round(x / 1000)] for an integer [x]: halves round up. *)
Definition round_div_1000 (x : Z) : Z := (x + 500) / 1000.

Definition formatLabel (level : Level) : Label :=
  if truthy (height level) then LabelHeight (or0 (height level))
  else if truthy (bitrate level) then
    let kbps := round_div_1000 (or0 (bitrate level)) in
    if 1000 <=? kbps then LabelMbps kbps else LabelKbps kbps
  else LabelLevel (index level).

(** A button of the popup: its text, the index its click selects, and
    whether it carries the [active] class. *)
Record Option_ := mkOption {
  o_label : Label;
  o_selects : Z;
  o_active : bool
}.

(** [(a, b) => (b.height || 0) - (a.height || 0)] is negative: [a] sorts
    before [b]. *)
Definition before (a b : Level) : bool :=
  or0 (height b) - or0 (height a) <? 0.

(** [Array.prototype.sort] with this comparator: the stable sort, here by
    insertion.  An element goes in front of the first one it does not sort
    after, so that equal elements keep their order. *)
Fixpoint insert (x : Level) (l : list Level) : list Level :=
  match l with
  | [] => [x]
  | y :: l' => if before y x then y :: insert x l' else x :: y :: l'
  end.

Definition sort (l : list Level) : list Level := fold_right insert [] l.

(** The player manager as the selector sees it. *)
Record Manager := mkManager {
  m_levels : list Level;          (* what getQualityLevels() returns *)
  m_setQuality : list Z           (* the setQuality(index) calls made on
                                     it, latest first *)
}.

Record QualitySelector := mkQS {
  playerManager : option Manager;
  popup : option (list Option_);  (* the popup element and its children *)
  popup_visible : bool;           (* the popup has class 'visible' *)
  button : option bool;           (* the button element; true: 'hidden' *)
  currentQuality : Z;
  levels : list Level
}.

Definition AUTO : Z := -1.

(** [new QualitySelector()] *)
Definition initial : QualitySelector :=
  mkQS None None false None AUTO [].

(** [initialize(playerManager)]; [btn] and [pop] are what the page has for
    the ids 'btn-quality' and 'quality-popup'.  With both present the
    button is hidden until levels arrive. *)
Definition initialize (pm : Manager) (btn : option bool)
    (pop : option (list Option_)) (qs : QualitySelector) : QualitySelector :=
  match btn, pop with
  | Some _, Some _ =>
      mkQS (Some pm) pop (popup_visible qs) (Some true)
           (currentQuality qs) (levels qs)
  | _, _ =>
      mkQS (Some pm) pop (popup_visible qs) btn
           (currentQuality qs) (levels qs)
  end.

Definition set_popup (v : option (list Option_)) (qs : QualitySelector) :=
  mkQS (playerManager qs) v (popup_visible qs) (button qs)
       (currentQuality qs) (levels qs).

Definition set_visible (v : bool) (qs : QualitySelector) :=
  mkQS (playerManager qs) (popup qs) v (button qs)
       (currentQuality qs) (levels qs).

(** [this.button?.classList.add/remove('hidden')] *)
Definition set_hidden (v : bool) (qs : QualitySelector) :=
  mkQS (playerManager qs) (popup qs) (popup_visible qs)
       (match button qs with Some _ => Some v | None => None end)
       (currentQuality qs) (levels qs).

Definition level_option (current : Z) (level : Level) : Option_ :=
  mkOption (formatLabel level) (index level) (current =? index level).

Definition render (qs : QualitySelector) : QualitySelector :=
  match popup qs with
  | None => qs
  | Some _ =>
      let autoOption :=
        mkOption LabelAuto AUTO (currentQuality qs =? AUTO) in
      let sorted := sort (levels qs) in
      set_popup
        (Some (autoOption :: map (level_option (currentQuality qs)) sorted))
        qs
  end.

(** [this.popup?.classList.remove('visible')] *)
Definition hide (qs : QualitySelector) : QualitySelector :=
  match popup qs with
  | Some _ => set_visible false qs
  | None => qs
  end.

Definition updateLevels (qs : QualitySelector) : QualitySelector :=
  match playerManager qs with
  | None => qs
  | Some pm =>
      let qs := mkQS (playerManager qs) (popup qs) (popup_visible qs)
                     (button qs) AUTO (m_levels pm) in
      if (Z.of_nat (List.length (levels qs)) <=? 1)
      then set_hidden true qs
      else render (set_hidden false qs)
  end.

Definition clear (qs : QualitySelector) : QualitySelector :=
  let qs := mkQS (playerManager qs) (popup qs) (popup_visible qs)
                 (button qs) AUTO [] in
  hide (set_hidden true qs).

(** [this.playerManager?.setQuality(index)] *)
Definition manager_setQuality (i : Z) (qs : QualitySelector)
  : QualitySelector :=
  match playerManager qs with
  | Some pm =>
      mkQS (Some (mkManager (m_levels pm) (i :: m_setQuality pm)))
           (popup qs) (popup_visible qs) (button qs)
           (currentQuality qs) (levels qs)
  | None => qs
  end.

Definition select (i : Z) (qs : QualitySelector) : QualitySelector :=
  let qs := mkQS (playerManager qs) (popup qs) (popup_visible qs)
                 (button qs) i (levels qs) in
  let qs := manager_setQuality i qs in
  let qs := render qs in
  hide qs.

(** [show()]; the popup element exists once the selector is in use. *)
Definition show (qs : QualitySelector) : QualitySelector :=
  match popup qs with
  | None => qs
  | Some _ =>
      if (Z.of_nat (List.length (levels qs)) <=? 1) then qs
      else set_visible true (render qs)
  end.

(** [toggle()]; without a popup element, reading its class list throws
    ([None]). *)
Definition toggle (qs : QualitySelector) : option QualitySelector :=
  match popup qs with
  | None => None
  | Some _ => Some (if popup_visible qs then hide qs else show qs)
  end.

(** The key the options are ordered by. *)
Definition sort_key (level : Level) : Z := or0 (height level).

(** The claim C6 as the specification words it, for a selector that
    renders: Auto first, then the levels by descending height, every
    level without a height carrying a bitrate-derived label. *)
Definition render_as_stated (qs : QualitySelector) : Prop :=
  exists sorted,
    popup (render qs) =
      Some (mkOption LabelAuto AUTO (currentQuality qs =? AUTO)
            :: map (level_option (currentQuality qs)) sorted) /\
    Permutation sorted (levels qs) /\
    StronglySorted (fun a b => sort_key a >= sort_key b) sorted /\
    forall level, In level sorted -> truthy (height level) = false ->
      exists kbps, formatLabel level = LabelKbps kbps \/
                   formatLabel level = LabelMbps kbps.

(** A level with neither height nor bitrate, in a selector that has a
    popup. *)
Definition bare_level : Level := mkLevel 0 None None None.

Definition bare_selector : QualitySelector :=
  mkQS (Some (mkManager [bare_level] [])) (Some []) false (Some false)
       AUTO [bare_level].

(** A selector showing the levels of a three-rendition stream. *)
Definition ladder : list Level :=
  [mkLevel 0 (Some 480) (Some 854) (Some 1200000);
   mkLevel 1 (Some 1080) (Some 1920) (Some 5000000);
   mkLevel 2 (Some 720) (Some 1280) (Some 2500000)].

Definition watching : QualitySelector :=
  updateLevels
    (initialize (mkManager ladder []) (Some false) (Some []) initial).

End Quality.

(* ================================================================== *)
(** * StreamRecorder *)
(* ================================================================== *)

(** The recorder object with the browser objects it drives.  What the
    browser decides (whether the element is playing, whether a call
    throws, the clock) is part of the state; the events of the
    MediaRecorder are functions of their own, called by the browser. *)

Module Recorder.

Local Open Scope Z_scope.

Definition Chunk := list Byte.byte.     (* event.data, a Blob *)

Definition size (c : Chunk) : Z := Z.of_nat (List.length c).

(** [new Blob(parts, { type })] *)
Record Blob := mkBlob {
  blob_bytes : list Byte.byte;
  blob_type : jsstring
}.

(** A value of [this.presets[name]]. *)
Record Preset := mkPreset {
  videoBitsPerSecond : option Z;
  audioBitsPerSecond : option Z
}.

(** The names every object literal inherits from [Object.prototype]. *)
Definition inherited_names : list string :=
  ["constructor"; "hasOwnProperty"; "isPrototypeOf";
   "propertyIsEnumerable"; "toLocaleString"; "toString"; "valueOf";
   "__proto__"; "__defineGetter__"; "__defineSetter__";
   "__lookupGetter__"; "__lookupSetter__"]%string.

Fixpoint jseqb (a b : jsstring) : bool :=
  match a, b with
  | [], [] => true
  | x :: a', y :: b' => (x =? y)%N && jseqb a' b'
  | _, _ => false
  end.

(** [this.presets[name]]: one of the three presets, an inherited member
    (truthy, without bitrates), or [undefined]. *)
Definition presets (name : jsstring) : option Preset :=
  if jseqb name (js "low") then Some (mkPreset (Some 500000) (Some 64000))
  else if jseqb name (js "medium")
  then Some (mkPreset (Some 1500000) (Some 128000))
  else if jseqb name (js "high")
  then Some (mkPreset (Some 3000000) (Some 192000))
  else if existsb (fun n => jseqb name (js n)) inherited_names
  then Some (mkPreset None None)
  else None.

Inductive RecError :=
| ErrCannotRecord          (* new Error('Cannot record - video not ready') *)
| ErrThrown                (* an exception caught by a try block *)
| ErrRecorder.             (* event.error of the MediaRecorder *)

Inductive Action :=
| CaptureStream (fps : Z)
| NewMediaRecorder (mimeType : jsstring) (video audio : option Z)
| RecorderStart (timeslice : Z)
| RecorderStop
| StopTracks
| CallOnStart
| CallOnStop (blob : option Blob) (duration : Z)
| CallOnError (e : RecError)
| CallOnDataAvailable (c : Chunk).

(** Where the browser throws during [start], if it does. *)
Inductive Throws :=
| AtCaptureStream | AtConstructor | AtRecorderStart.

Record Video := mkVideo {
  paused : bool;
  readyState : Z
}.

Record StreamRecorder := mkRecorder {
  videoElement : option Video;
  mediaRecorder : option nat;       (* the MediaRecorder, by number *)
  recordedChunks : list Chunk;
  stream : option nat;              (* the captured MediaStream *)
  recording : bool;
  startTime : option Z;
  currentPreset : jsstring;
  onStart : bool;
  onStop : bool;
  onError : bool;
  onDataAvailable : bool;
  (* the browser *)
  supported : bool;                 (* StreamRecorder.isSupported() *)
  throws : option Throws;           (* during start *)
  stop_throws : bool;               (* mediaRecorder.stop() throws *)
  clock : Z;                        (* Date.now() *)
  fresh : nat;
  trace : list Action               (* latest first *)
}.

Definition emit (a : Action) (r : StreamRecorder) : StreamRecorder :=
  match r with
  | mkRecorder v m ch s rec st p c1 c2 c3 c4 sup th sth ck fr tr =>
      mkRecorder v m ch s rec st p c1 c2 c3 c4 sup th sth ck fr (a :: tr)
  end.

Definition set_recording (b : bool) (r : StreamRecorder) : StreamRecorder :=
  match r with
  | mkRecorder v m ch s rec st p c1 c2 c3 c4 sup th sth ck fr tr =>
      mkRecorder v m ch s b st p c1 c2 c3 c4 sup th sth ck fr tr
  end.

Definition set_chunks (l : list Chunk) (r : StreamRecorder) : StreamRecorder :=
  match r with
  | mkRecorder v m ch s rec st p c1 c2 c3 c4 sup th sth ck fr tr =>
      mkRecorder v m l s rec st p c1 c2 c3 c4 sup th sth ck fr tr
  end.

Definition set_stream (x : option nat) (r : StreamRecorder) : StreamRecorder :=
  match r with
  | mkRecorder v m ch s rec st p c1 c2 c3 c4 sup th sth ck fr tr =>
      mkRecorder v m ch x rec st p c1 c2 c3 c4 sup th sth ck fr tr
  end.

Definition set_mediaRecorder (x : option nat) (r : StreamRecorder)
  : StreamRecorder :=
  match r with
  | mkRecorder v m ch s rec st p c1 c2 c3 c4 sup th sth ck fr tr =>
      mkRecorder v x ch s rec st p c1 c2 c3 c4 sup th sth ck fr tr
  end.

Definition set_startTime (x : option Z) (r : StreamRecorder) : StreamRecorder :=
  match r with
  | mkRecorder v m ch s rec st p c1 c2 c3 c4 sup th sth ck fr tr =>
      mkRecorder v m ch s rec x p c1 c2 c3 c4 sup th sth ck fr tr
  end.

Definition set_currentPreset (x : jsstring) (r : StreamRecorder)
  : StreamRecorder :=
  match r with
  | mkRecorder v m ch s rec st p c1 c2 c3 c4 sup th sth ck fr tr =>
      mkRecorder v m ch s rec st x c1 c2 c3 c4 sup th sth ck fr tr
  end.

Definition set_fresh (x : nat) (r : StreamRecorder) : StreamRecorder :=
  match r with
  | mkRecorder v m ch s rec st p c1 c2 c3 c4 sup th sth ck fr tr =>
      mkRecorder v m ch s rec st p c1 c2 c3 c4 sup th sth ck x tr
  end.

(** [new StreamRecorder(videoElement)] in a given browser, with the
    callbacks the application sets. *)
Definition create (v : option Video) (sup : bool) (th : option Throws)
    (sth : bool) (now : Z) (cbStart cbStop cbError cbData : bool)
  : StreamRecorder :=
  mkRecorder v None [] None false None (js "medium")
             cbStart cbStop cbError cbData sup th sth now 0%nat [].

Definition notify_error (e : RecError) (r : StreamRecorder) : StreamRecorder :=
  if onError r then emit (CallOnError e) r else r.

Definition setPreset (preset : jsstring) (r : StreamRecorder)
  : StreamRecorder :=
  match presets preset with
  | Some _ => set_currentPreset preset r
  | None => r
  end.

Definition canRecord (r : StreamRecorder) : bool :=
  match videoElement r with
  | Some v => negb (paused v) && (2 <=? readyState v) && supported r
  | None => false
  end.

Definition MIME : jsstring := js "video/webm; codecs=vp8,opus".

Definition thrown_at (t : Throws) (r : StreamRecorder) : bool :=
  match throws r, t with
  | Some AtCaptureStream, AtCaptureStream
  | Some AtConstructor, AtConstructor
  | Some AtRecorderStart, AtRecorderStart => true
  | _, _ => false
  end.

Definition start (r : StreamRecorder) : bool * StreamRecorder :=
  if recording r then (false, r)
  else if negb (canRecord r) then (false, notify_error ErrCannotRecord r)
  else
    (* try *)
    if thrown_at AtCaptureStream r then (false, notify_error ErrThrown r)
    else
      let id := fresh r in
      let r := set_fresh (S (S id)) r in
      let r := set_stream (Some id) (emit (CaptureStream 30) r) in
      match presets (currentPreset r) with
      | None => (false, notify_error ErrThrown r)
      | Some preset =>
          if thrown_at AtConstructor r
          then (false, notify_error ErrThrown r)
          else
            let r := set_mediaRecorder (Some (S id))
                       (emit (NewMediaRecorder MIME
                                (videoBitsPerSecond preset)
                                (audioBitsPerSecond preset)) r) in
            let r := set_chunks [] r in
            if thrown_at AtRecorderStart r
            then (false, notify_error ErrThrown r)
            else
              let r := emit (RecorderStart 1000) r in
              let r := set_recording true r in
              let r := set_startTime (Some (clock r)) r in
              let r := if onStart r then emit CallOnStart r else r in
              (true, r)
      end.

Definition BLOB_TYPE : jsstring := js "video/webm".

Definition getBlob (r : StreamRecorder) : option Blob :=
  match recordedChunks r with
  | [] => None
  | chunks => Some (mkBlob (List.concat chunks) BLOB_TYPE)
  end.

(** [mediaRecorder.ondataavailable] *)
Definition on_dataavailable (data : Chunk) (r : StreamRecorder)
  : StreamRecorder :=
  if 0 <? size data then
    let r := set_chunks (recordedChunks r ++ [data]) r in
    if onDataAvailable r then emit (CallOnDataAvailable data) r else r
  else r.

(** The truthiness of [this.startTime]. *)
Definition started (r : StreamRecorder) : option Z :=
  match startTime r with
  | Some 0 | None => None
  | Some t => Some t
  end.

(** [mediaRecorder.onstop] *)
Definition on_stop (r : StreamRecorder) : StreamRecorder :=
  let r := set_recording false r in
  let duration := match started r with
                  | Some t => clock r - t
                  | None => 0
                  end in
  if onStop r then emit (CallOnStop (getBlob r) duration) r else r.

(** [mediaRecorder.onerror] *)
Definition on_error (r : StreamRecorder) : StreamRecorder :=
  let r := set_recording false r in
  notify_error ErrRecorder r.

Definition stop (r : StreamRecorder) : bool * StreamRecorder :=
  if negb (recording r) then (false, r)
  else match mediaRecorder r with
       | None => (false, r)
       | Some _ =>
           if stop_throws r then (false, set_recording false r)
           else
             let r := emit RecorderStop r in
             let r := match stream r with
                      | Some _ => set_stream None (emit StopTracks r)
                      | None => r
                      end in
             (true, r)
       end.

Definition isRecording (r : StreamRecorder) : bool := recording r.

(** [Math.round(x / 1000)] for an integer [x]. *)
Definition round_div_1000 (x : Z) : Z := (x + 500) / 1000.

Definition getDuration (r : StreamRecorder) : Z :=
  match started r with
  | None => 0
  | Some t => if recording r then round_div_1000 (clock r - t) else 0
  end.

Definition destroy (r : StreamRecorder) : StreamRecorder :=
  let r := if recording r then snd (stop r) else r in
  let r := set_chunks [] r in
  let r := set_mediaRecorder None r in
  set_stream None r.

(** Time passes. *)
Definition tick (ms : Z) (r : StreamRecorder) : StreamRecorder :=
  match r with
  | mkRecorder v m ch s rec st p c1 c2 c3 c4 sup th sth ck fr tr =>
      mkRecorder v m ch s rec st p c1 c2 c3 c4 sup th sth (ck + Z.max 0 ms)
                 fr tr
  end.

(** The data events of one recording, in the order the browser delivers
    them. *)
Definition deliver (chunks : list Chunk) (r : StreamRecorder)
  : StreamRecorder :=
  fold_left (fun r c => on_dataavailable c r) chunks r.

Definition nonempty (c : Chunk) : bool := 0 <? size c.

(** ** generateFilename *)

(** The fields of a [Date], in UTC. *)
Record DateUTC := mkDate {
  year : Z;
  month : Z;        (* 1..12 *)
  day : Z;          (* 1..31 *)
  hour : Z;
  minute : Z;
  second : Z;
  millisecond : Z
}.

Definition valid_date (d : DateUTC) : Prop :=
  0 <= year d <= 9999 /\ 1 <= month d <= 12 /\ 1 <= day d <= 31 /\
  0 <= hour d <= 23 /\ 0 <= minute d <= 59 /\ 0 <= second d <= 59 /\
  0 <= millisecond d <= 999.

Definition digit (n : Z) : N := (48 + Z.to_N (n mod 10))%N.

Definition is_digit (c : N) : Prop := (48 <= c <= 57)%N.

(** [n] in decimal, padded with zeros to [width] digits. *)
Fixpoint pad (width : nat) (n : Z) : jsstring :=
  match width with
  | O => []
  | S w => pad w (n / 10) ++ [digit n]
  end.

(** [Date.prototype.toISOString] for a year from 0 to 9999. *)
Definition toISOString (d : DateUTC) : jsstring :=
  pad 4 (year d) ++ js "-" ++ pad 2 (month d) ++ js "-" ++ pad 2 (day d) ++
  js "T" ++ pad 2 (hour d) ++ js ":" ++ pad 2 (minute d) ++ js ":" ++
  pad 2 (second d) ++ js "." ++ pad 3 (millisecond d) ++ js "Z".

(** [s.replace(/[...]/g, by)] for a class of single code units. *)
Definition replace_units (cls : N -> bool) (by_ : jsstring) (s : jsstring)
  : jsstring :=
  flat_map (fun c => if cls c then by_ else [c]) s.

(** [s.replace(c, by)] for a one-unit pattern: the first occurrence. *)
Fixpoint replace_first (c : N) (by_ : jsstring) (s : jsstring) : jsstring :=
  match s with
  | [] => []
  | x :: s' => if (x =? c)%N then by_ ++ s' else x :: replace_first c by_ s'
  end.

Definition colon_or_dot (c : N) : bool := (c =? 58)%N || (c =? 46)%N.

Definition timestamp (now : DateUTC) : jsstring :=
  slice0 19
    (replace_first 84 (js "_")
       (replace_units colon_or_dot (js "-") (toISOString now))).

(** The class of the first [replace]: the characters < > : / \ | ? *
    and the double quote. *)
Definition reserved (c : N) : bool :=
  existsb (N.eqb c) [60; 62; 58; 34; 47; 92; 124; 63; 42]%N.

(** The class [\s]. *)
Definition is_space (c : N) : bool :=
  in_range 9 13 c || (c =? 32)%N || (c =? 160)%N || (c =? 5760)%N ||
  in_range 8192 8202 c || (c =? 8232)%N || (c =? 8233)%N ||
  (c =? 8239)%N || (c =? 8287)%N || (c =? 12288)%N || (c =? 65279)%N.

(** [s.replace(/\s+/g, '_')]: every maximal run of white space becomes
    one underscore. *)
Fixpoint collapse (s : jsstring) : jsstring :=
  match s with
  | [] => []
  | c :: s' =>
      if is_space c then
        match s' with
        | c' :: _ => if is_space c' then collapse s' else 95%N :: collapse s'
        | [] => [95%N]
        end
      else c :: collapse s'
  end.

Definition MAX_NAME : nat := 50.

Definition safeName (channelName : jsstring) : jsstring :=
  slice0 MAX_NAME (collapse (replace_units reserved [] channelName)).

(** [generateFilename(channelName = 'recording')] at time [now]. *)
Definition generateFilename (channelName : option jsstring) (now : DateUTC)
  : jsstring :=
  let channelName := match channelName with
                     | Some n => n
                     | None => js "recording"
                     end in
  safeName channelName ++ js "_" ++ timestamp now ++ js ".webm".

(** A control character: C0, DEL or C1. *)
Definition is_control (c : N) : bool :=
  (c <? 32)%N || in_range 127 159 c.

(** A path separator. *)
Definition is_separator (c : N) : bool := (c =? 47)%N || (c =? 92)%N.

(** The claim C9 as the specification words it: the label in front of the
    timestamp has at most 50 units and holds no control character, no
    path separator and no white space. *)
Definition filename_as_stated (channelName : jsstring) (now : DateUTC)
  : Prop :=
  exists label,
    generateFilename (Some channelName) now =
      label ++ js "_" ++ timestamp now ++ js ".webm" /\
    (List.length label <= 50)%nat /\
    forall c, In c label ->
      is_control c = false /\ is_separator c = false /\ is_space c = false.

(** The order of strings: by code units, a proper prefix first. *)
Fixpoint lex_lt (a b : jsstring) : Prop :=
  match a, b with
  | _, [] => False
  | [], _ :: _ => True
  | x :: a', y :: b' => (x < y)%N \/ (x = y /\ lex_lt a' b')
  end.

(** The order of instants, to the second. *)
Definition seconds_key (d : DateUTC) : Z :=
  ((((year d * 100 + month d) * 100 + day d) * 100 + hour d) * 100
   + minute d) * 100 + second d.

(** A playing element in a browser that supports the recorder. *)
Definition playing : Video := mkVideo false 4.

Definition idle : StreamRecorder :=
  create (Some playing) true None false 1000 true true true true.

Definition sample_date : DateUTC := mkDate 2024 3 9 18 5 42 137.

End Recorder.

(* ================================================================== *)
(** * PlayerManager: the remaining operations *)
(* ================================================================== *)

Module PlayerMore.
Import Player.

(** PlayerManager.destroy: [stop()], then [destroy()] on each of the three
    adapters, in the order of the [adapters] object. *)
Definition destroy (w : World) : World :=
  let w := stop w in
  let w := HlsAdapter_destroy w in
  let w := DashAdapter_destroy w in
  NativeAdapter_destroy w.

(** At most one load timer is pending, [loadTimeoutId] names it, and the
    id in [loadTimeoutId] is the latest one handed out. *)
Definition one_timer (w : World) : Prop :=
  (timers w = [] \/
   exists tm, timers w = [tm] /\ loadTimeoutId w = Some (t_id tm)) /\
  forall t, loadTimeoutId w = Some t -> S t = next_timer w.

(** What a task other than a [load] call may do to the pending timers and
    to [loadTimeoutId]: no timer id is handed out, timers are only removed,
    and [loadTimeoutId] is kept, or reset to null with its timer removed. *)
Definition keeps (w w' : World) : Prop :=
  next_timer w' = next_timer w /\
  (exists f, timers w' = filter f (timers w)) /\
  (loadTimeoutId w' = loadTimeoutId w \/
   (loadTimeoutId w' = None /\
    forall t, loadTimeoutId w = Some t ->
      forall tm, In tm (timers w') -> t_id tm <> t)).

(** The [streamType] field of [getState()]:
    [this.currentAdapter ? this.detectStreamType(this.currentUrl) : null].
    With an adapter and no url the call throws ([None]). *)
Definition getState_streamType (w : World) : option (option StreamType) :=
  match currentAdapter w with
  | None => Some None
  | Some _ =>
      match currentUrl w with
      | Some url => Some (Some (detectStreamType url))
      | None => None
      end
  end.

(** The current adapter is the one the current url selects. *)
Definition target_ok (w : World) : Prop :=
  match currentAdapter w, currentUrl w with
  | None, None => True
  | Some a, Some url => detectStreamType url = a
  | _, _ => False
  end.

(** What only [load] and [stop] change. *)
Definition same_target (w w' : World) : Prop :=
  currentAdapter w' = currentAdapter w /\ currentUrl w' = currentUrl w.

(** A task that does not announce quality levels. *)
Definition silent (w w' : World) : Prop :=
  exists new, log w' = new ++ log w /\ ~ In CallOnLevelsAvailable new.

(** A native load under way: its two listeners are the only ones on the
    element. *)
Definition native_loading : World :=
  run [CallLoad (js "http://x/film.mp4")] (init chromium true true true).

(** A DASH load under way: player 0, timer 0, load 0. *)
Definition dash_loading : World :=
  run [CallLoad (js "http://x/live.mpd")] (init chromium true true true).

(** A browser with neither native HLS nor hls.js. *)
Definition no_hls : Env := mkEnv false false true NoThrow.

End PlayerMore.

(* ================================================================== *)
(** * Quality levels, from the engines to the selector *)
(* ================================================================== *)

(** What the adapters answer to [getQualityLevels()]: the renditions of
    the engine, numbered by their position in the engine's list. *)

Module Levels.
Import Quality.

Local Open Scope Z_scope.

(** An entry of [hls.levels], or of dash.js's
    [getBitrateInfoListFor('video')]. *)
Record Info := mkInfo {
  i_height : option Z;
  i_width : option Z;
  i_bitrate : option Z
}.

(** [infos.map((info, index) => ({ index, height: info.height,
    width: info.width, bitrate: info.bitrate }))], counting from [i]. *)
Fixpoint number_from (i : Z) (infos : list Info) : list Level :=
  match infos with
  | [] => []
  | x :: infos' =>
      mkLevel i (i_height x) (i_width x) (i_bitrate x)
      :: number_from (i + 1) infos'
  end.

(** The three adapter objects: [this.hls] and [this.player] with the
    renditions they list, [None] without an engine. *)
Record Adapters := mkAdapters {
  a_hls : option (list Info);
  a_player : option (list Info)
}.

Definition HlsAdapter_getQualityLevels (a : Adapters) : list Level :=
  match a_hls a with
  | None => []
  | Some infos => number_from 0 infos
  end.

Definition DashAdapter_getQualityLevels (a : Adapters) : list Level :=
  match a_player a with
  | None => []
  | Some infos => number_from 0 infos
  end.

Definition NativeAdapter_getQualityLevels (a : Adapters) : list Level := [].

(** [PlayerManager.getQualityLevels()] *)
Definition getQualityLevels (currentAdapter : option StreamType)
    (a : Adapters) : list Level :=
  match currentAdapter with
  | None => []
  | Some hls => HlsAdapter_getQualityLevels a
  | Some dash => DashAdapter_getQualityLevels a
  | Some native => NativeAdapter_getQualityLevels a
  end.

(** The options of the popup that carry the [active] class. *)
Definition active_options (qs : QualitySelector) : list Option_ :=
  match popup qs with
  | Some options => filter o_active options
  | None => []
  end.

(** The renditions of a three-step stream, as hls.js lists them. *)
Definition three_steps : list Info :=
  [mkInfo (Some 480) (Some 854) (Some 1200000);
   mkInfo (Some 1080) (Some 1920) (Some 5000000);
   mkInfo (Some 720) (Some 1280) (Some 2500000)].

(** A selector of a page with both elements, on a manager whose HLS
    adapter plays [infos]. *)
Definition selector_on (infos : list Info) : QualitySelector :=
  initialize
    (mkManager (getQualityLevels (Some hls) (mkAdapters (Some infos) None)) [])
    (Some false) (Some []) initial.

End Levels.

(* ================================================================== *)
(** * KeyboardShortcuts *)
(* ================================================================== *)

(** The bindings are a plain object from action names to key names.  An
    object is the list of its own properties in insertion order, which is
    the order [Object.entries] lists them in (no property name of this
    module is an array index).  Names are looked up through the prototype:
    [name in obj] also holds for the members of [Object.prototype]. *)

Module Shortcuts.
Import Recorder.

Definition Obj := list (jsstring * jsstring).

Definition DEFAULT_SHORTCUTS : Obj :=
  [(js "playPause", js " "); (js "mute", js "m");
   (js "fullscreen", js "f"); (js "volumeUp", js "ArrowUp");
   (js "volumeDown", js "ArrowDown"); (js "prevChannel", js "ArrowLeft");
   (js "nextChannel", js "ArrowRight")].

Definition has_own (name : jsstring) (o : Obj) : bool :=
  existsb (fun p => jseqb (fst p) name) o.

(** [name in obj] *)
Definition has (name : jsstring) (o : Obj) : bool :=
  has_own name o || existsb (fun n => jseqb name (js n)) inherited_names.

Fixpoint update (name value : jsstring) (o : Obj) : Obj :=
  match o with
  | [] => []
  | (a, k) :: o' =>
      if jseqb a name then (a, value) :: o'
      else (a, k) :: update name value o'
  end.

(** [obj[name] = value] for a string [value]: an own property is
    overwritten in place, a new one is added at the end; the inherited
    setter of [__proto__] ignores a string. *)
Definition assign (name value : jsstring) (o : Obj) : Obj :=
  if has_own name o then update name value o
  else if jseqb name (js "__proto__") then o
  else o ++ [(name, value)].

(** [getActionForKey(key)] *)
Fixpoint getActionForKey (key : jsstring) (shortcuts : Obj)
  : option jsstring :=
  match shortcuts with
  | [] => None
  | (action, boundKey) :: rest =>
      if jseqb boundKey key then Some action
      else getActionForKey key rest
  end.

(** The loop of [rebind]: over the entries the object has when the loop
    starts, every other action bound to [key] is bound to the empty string. *)
Definition unbind_others (action key : jsstring) (shortcuts : Obj) : Obj :=
  fold_left
    (fun s p =>
       if jseqb (snd p) key && negb (jseqb (fst p) action)
       then assign (fst p) [] s
       else s)
    shortcuts shortcuts.

(** What the loop does to one entry. *)
Definition unbound (action key : jsstring) (p : jsstring * jsstring)
  : jsstring * jsstring :=
  if jseqb (snd p) key && negb (jseqb (fst p) action) then (fst p, [])
  else p.

(** [rebind(action, key)], up to the call of [save()]. *)
Definition rebind (action key : jsstring) (shortcuts : Obj) : Obj :=
  if negb (has action DEFAULT_SHORTCUTS) then shortcuts
  else assign action key (unbind_others action key shortcuts).

(** [resetToDefaults()], up to the call of [save()]: a copy of the
    defaults. *)
Definition resetToDefaults (shortcuts : Obj) : Obj := DEFAULT_SHORTCUTS.

(** The bindings after a series of [rebind(action, key)] calls on a new
    [KeyboardShortcuts]. *)
Definition rebound (calls : list (jsstring * jsstring)) : Obj :=
  fold_left (fun s c => rebind (fst c) (snd c) s) calls DEFAULT_SHORTCUTS.

(** No two actions share a key other than the empty string. *)
Definition unique_keys (o : Obj) : Prop :=
  forall a b k, k <> [] -> In (a, k) o -> In (b, k) o -> a = b.

End Shortcuts.

(* ================================================================== *)
(** * Properties of the stream classifier *)
(* ================================================================== *)

(* ------------------------------------------------------------------ *)
(** ** Substring lemmas *)

Lemma startsWith_spec (s needle : jsstring) :
  startsWith s needle = true <-> exists post, s = needle ++ post.
Proof.
  revert s; induction needle as [|x needle IH]; intros s; simpl.
  - split; [intros _; now exists s | reflexivity].
  - destruct s as [|y s]; simpl.
    + split; [discriminate | intros [post H]; discriminate].
    + rewrite andb_true_iff, N.eqb_eq, IH. split.
      * intros [-> [post ->]]. now exists post.
      * intros [post H]. injection H as -> ->. split; [reflexivity | now exists post].
Qed.

Lemma includes_spec (s needle : jsstring) :
  includes s needle = true <-> exists pre post, s = pre ++ needle ++ post.
Proof.
  induction s as [|y s IH]; simpl.
  - rewrite orb_false_r, startsWith_spec. split.
    + intros [post H]. now exists [], post.
    + intros [pre [post H]]. destruct pre as [|p pre]; [now exists post | discriminate].
  - rewrite orb_true_iff, startsWith_spec, IH. split.
    + intros [[post H] | [pre [post H]]].
      * now exists [], post.
      * exists (y :: pre), post. simpl. now rewrite H.
    + intros [pre [post H]]. destruct pre as [|p pre]; simpl in H.
      * left. now exists post.
      * right. injection H as _ H. now exists pre, post.
Qed.

Lemma toLowerCase_app (a b : jsstring) :
  toLowerCase (a ++ b) = toLowerCase a ++ toLowerCase b.
Proof. apply map_app. Qed.

Lemma Contains_includes (m : string) (url : jsstring) :
  Contains m url <-> includes (toLowerCase url) (js m) = true.
Proof.
  rewrite includes_spec. split.
  - intros (pre & mid & post & -> & Hm).
    exists (toLowerCase pre), (toLowerCase post).
    now rewrite !toLowerCase_app, Hm.
  - intros (pre & post & H). unfold toLowerCase in H.
    apply map_eq_app in H as (l1 & r & -> & H1 & H).
    apply map_eq_app in H as (l2 & l3 & -> & H2 & H3).
    exists l1, l2, l3. split; [reflexivity | exact H2].
Qed.

Lemma not_Contains_includes (m : string) (url : jsstring) :
  ~ Contains m url <-> includes (toLowerCase url) (js m) = false.
Proof.
  rewrite Contains_includes. destruct (includes _ _); split; congruence.
Qed.

(** The fifth HLS test of the source, [.m3u8?], is subsumed by the first. *)
Lemma includes_m3u8_query (s : jsstring) :
  includes s (js ".m3u8?") = true -> includes s (js ".m3u8") = true.
Proof.
  rewrite !includes_spec. intros (pre & post & ->).
  exists pre, (js "?" ++ post). reflexivity.
Qed.

Lemma ContainsAny_marked (ms : list string) (url : jsstring) :
  ContainsAny ms url <-> marked ms url = true.
Proof.
  unfold ContainsAny, marked. rewrite existsb_exists.
  split; intros (m & Hin & H); exists m; (split; [exact Hin|]);
    now apply Contains_includes.
Qed.

Lemma not_ContainsAny_marked (ms : list string) (url : jsstring) :
  ~ ContainsAny ms url <-> marked ms url = false.
Proof.
  rewrite ContainsAny_marked. destruct (marked ms url); split; congruence.
Qed.

(** The source's decision chain, with the redundant fifth HLS test folded
    into the first. *)
Lemma detectStreamType_marked (url : jsstring) :
  detectStreamType url =
    if marked hlsMarkers url then hls
    else if marked dashMarkers url then dash
    else if marked directMarkers url then native
    else hls.
Proof.
  unfold detectStreamType, marked, hlsMarkers, dashMarkers, directMarkers.
  cbn [existsb]. rewrite !orb_false_r, !orb_assoc.
  destruct (includes (toLowerCase url) (js ".m3u8?")) eqn:Hq.
  - rewrite (includes_m3u8_query _ Hq). reflexivity.
  - rewrite orb_false_r. reflexivity.
Qed.

(** C1, counterexample: [http://x/hls/a.mpd] has no [.m3u8], has the DASH
    marker [.mpd], and is classified HLS because of its [/hls/] segment. *)
Lemma detectStreamType_hls_segment_wins :
  ~ classify_as_stated (js "http://x/hls/a.mpd").
Proof.
  intros (_ & H & _).
  assert (Hd : detectStreamType (js "http://x/hls/a.mpd") = dash).
  { apply H.
    - apply not_Contains_includes. reflexivity.
    - apply ContainsAny_marked. reflexivity. }
  discriminate Hd.
Qed.

(** C1, as amended: a locator containing (in any case) one of the HLS
    markers [.m3u8], [format=m3u8], [/hls/], [hls.] is HLS; otherwise one
    containing [.mpd], [format=mpd] or [/dash/] is DASH; otherwise one
    containing [.mp4], [.webm], [.ogg] or [.mov] is Direct (native);
    every remaining locator is HLS.  The groups are tried in this order. *)
Theorem detectStreamType_spec (url : jsstring) :
  (ContainsAny hlsMarkers url -> detectStreamType url = hls) /\
  (~ ContainsAny hlsMarkers url -> ContainsAny dashMarkers url ->
   detectStreamType url = dash) /\
  (~ ContainsAny hlsMarkers url -> ~ ContainsAny dashMarkers url ->
   ContainsAny directMarkers url -> detectStreamType url = native) /\
  (~ ContainsAny hlsMarkers url -> ~ ContainsAny dashMarkers url ->
   ~ ContainsAny directMarkers url -> detectStreamType url = hls).
Proof.
  rewrite detectStreamType_marked.
  rewrite !not_ContainsAny_marked, !ContainsAny_marked.
  destruct (marked hlsMarkers url), (marked dashMarkers url),
    (marked directMarkers url); repeat split; congruence.
Qed.

Lemma detectStreamType_spec_witness :
  detectStreamType (js "http://x/LIVE.M3U8") = hls /\
  detectStreamType (js "http://x/a.MPD?t=1") = dash /\
  detectStreamType (js "http://x/film.mp4") = native /\
  detectStreamType (js "http://x/stream") = hls.
Proof.
  refine (conj _ (conj _ (conj _ _))).
  - apply (proj1 (detectStreamType_spec (js "http://x/LIVE.M3U8"))).
    apply ContainsAny_marked. reflexivity.
  - apply (proj1 (proj2 (detectStreamType_spec (js "http://x/a.MPD?t=1")))).
    + apply not_ContainsAny_marked. reflexivity.
    + apply ContainsAny_marked. reflexivity.
  - apply (proj1 (proj2 (proj2 (detectStreamType_spec (js "http://x/film.mp4"))))).
    + apply not_ContainsAny_marked. reflexivity.
    + apply not_ContainsAny_marked. reflexivity.
    + apply ContainsAny_marked. reflexivity.
  - apply (proj2 (proj2 (proj2 (detectStreamType_spec (js "http://x/stream"))))).
    + apply not_ContainsAny_marked. reflexivity.
    + apply not_ContainsAny_marked. reflexivity.
    + apply not_ContainsAny_marked. reflexivity.
Defined.

(* ================================================================== *)
(** * Properties of PlayerManager and its adapters *)
(* ================================================================== *)

Module PlayerProofs.
Import Player.

(** ** Traces *)

Lemma set_microtasks_nil (w : World) :
  microtasks w = [] -> set_microtasks [] w = w.
Proof. destruct w; simpl; intros ->; reflexivity. Qed.

Lemma run_microtasks_nil (w : World) :
  microtasks w = [] -> run_microtasks w = w.
Proof.
  intros H. unfold run_microtasks. rewrite H. simpl.
  now apply set_microtasks_nil.
Qed.

Lemma since_log (w w' : World) (new r : list Action) :
  log w' = new ++ log w -> rev new = r -> since w w' = r.
Proof.
  intros H <-. unfold since, trace. rewrite H, rev_app_distr.
  rewrite <- (length_rev (log w)), skipn_app, skipn_all, Nat.sub_diag.
  reflexivity.
Qed.

Lemma since_refl (w : World) : since w w = [].
Proof. now apply since_log with (new := []). Qed.

(** A world term is opened into its fields. *)
Ltac open_world w :=
  destruct w as [cA cU lT oE oS oL hH hW dP dW nW vS ls en nw tms nT nE nL
                 st mt lg];
  cbn [currentAdapter currentUrl loadTimeoutId onError onStateChange
       onLevelsAvailable hls_hls hls_wired dash_player dash_wired
       native_wired video_src listeners env now timers next_timer
       next_engine next_load settled microtasks log] in *.

(** The actions consed on a log variable. *)
Ltac prefix_of l :=
  lazymatch l with
  | ?a :: ?l' => let r := prefix_of l' in constr:(a :: r)
  | _ => constr:(@nil Action)
  end.

Ltac since_now :=
  lazymatch goal with
  | |- since ?w ?w' = _ =>
      let l := eval cbn in (log w') in
      let nw := prefix_of l in
      apply since_log with (new := nw); [reflexivity | reflexivity]
  end.

(** ** Evaluating the model *)

(** Unfold the model, by value, down to the fields of the worlds at hand;
    list functions are left for [lists]. *)
Ltac wcbv :=
  cbv beta iota zeta delta
    [currentAdapter currentUrl loadTimeoutId onError onStateChange
     onLevelsAvailable hls_hls hls_wired dash_player dash_wired
     native_wired video_src listeners env now timers next_timer
     next_engine next_load settled microtasks log
     set_currentAdapter set_currentUrl set_loadTimeoutId set_hls_hls
     set_hls_wired set_dash_player set_dash_wired set_native_wired
     set_video_src set_listeners set_now set_timers set_next_timer
     set_next_engine set_next_load set_settled set_microtasks set_log
     h_id h_owner h_url h_resolved d_id d_owner t_id t_owner t_deadline
     e_type e_details e_fatal
     canPlayNativeHls hlsjs_supported dashjs_supported dash_throws
     emit clearTimeout cancelLoadTimeout is_settled settle
     HlsAdapter_destroy DashAdapter_destroy NativeAdapter_destroy
     adapter_destroy stop HlsAdapter_load DashAdapter_load
     NativeAdapter_load adapter_load setupAdapterEvents wired
     forward_error adapter_onError forward_levels forward_playing
     load load_continue run_microtasks live_hls live_dash set_resolved
     hls_on_error hls_on_manifest_parsed dash_on_stream_initialized
     run_handler dispatch find_timer timer_fires handle step
     is_fatal cancel_actions notify isSome has_source engines_and_source
     attached_ok].

Ltac lists :=
  cbn [fold_left app filter find existsb map rev List.length fst snd
       negb andb orb Nat.eqb].


Ltac settled_cases :=
  match goal with
  | |- context [existsb ?f ?l] => destruct (existsb f l) eqn:?
  end.

(** ** The operations, one field at a time *)

Lemma settle_eq (k : LoadId) (o : Outcome) (w : World) :
  settle k o w =
    mkWorld (currentAdapter w) (currentUrl w) (loadTimeoutId w) (onError w)
      (onStateChange w) (onLevelsAvailable w) (hls_hls w) (hls_wired w)
      (dash_player w) (dash_wired w) (native_wired w) (video_src w)
      (listeners w) (env w) (now w) (timers w) (next_timer w)
      (next_engine w) (next_load w)
      (if is_settled k w then settled w else (k, o) :: settled w)
      (if is_settled k w then microtasks w else microtasks w ++ [(k, o)])
      (log w).
Proof.
  destruct w. wcbv. settled_cases; reflexivity.
Qed.

Lemma stop_eq (w : World) :
  stop w =
    mkWorld None None None (onError w) (onStateChange w)
      (onLevelsAvailable w)
      (match currentAdapter w with Some hls => None | _ => hls_hls w end)
      (hls_wired w)
      (match currentAdapter w with Some dash => None | _ => dash_player w end)
      (dash_wired w) (native_wired w) None (listeners w) (env w) (now w)
      (timers_after_cancel w) (next_timer w) (next_engine w) (next_load w)
      (settled w) (microtasks w) (rev (stop_trace w) ++ log w).
Proof.
  destruct w as [cA cU lT oE oS oL hH hW dP dW nW vS ls en nw tms nT nE nL
                 st mt lg].
  unfold stop_trace, destroy_trace, timers_after_cancel.
  destruct lT, cA as [[| |]|], hH, dP; reflexivity.
Qed.

Lemma adapter_load_eq (a : StreamType) (url : jsstring) (k : LoadId)
    (w : World) :
  adapter_load a url k w =
    mkWorld (currentAdapter w) (currentUrl w) (loadTimeoutId w) (onError w)
      (onStateChange w) (onLevelsAvailable w)
      (match a with
       | hls => if creates_engine hls (env w)
                then Some (mkHlsEngine (next_engine w) k url false) else None
       | _ => hls_hls w
       end)
      (hls_wired w)
      (match a with
       | dash => if creates_engine dash (env w)
                 then Some (mkDashEngine (next_engine w) k) else None
       | _ => dash_player w
       end)
      (dash_wired w) (native_wired w)
      (if sets_source a (env w) then Some url else video_src w)
      (listeners w ++ load_listeners a (env w) k)
      (env w) (now w) (timers w) (next_timer w)
      (if creates_engine a (env w) then S (next_engine w) else next_engine w)
      (next_load w)
      (match rejects_at_once a (env w) with
       | Some e => if is_settled k w then settled w
                   else (k, RejectedWith e) :: settled w
       | None => settled w
       end)
      (match rejects_at_once a (env w) with
       | Some e => if is_settled k w then microtasks w
                   else microtasks w ++ [(k, RejectedWith e)]
       | None => microtasks w
       end)
      (rev (adapter_load_trace a url (engine_teardown a w) (next_engine w)
              (env w)) ++ log w).
Proof.
  destruct w as [cA cU lT oE oS oL hH hW dP dW nW vS ls en nw tms nT nE nL
                 st mt lg].
  destruct en as [nh hj dj dt].
  unfold adapter_load_trace, engine_teardown, rejects_at_once,
    creates_engine, sets_source, load_listeners.
  destruct a; wcbv.
  - destruct nh, hj, hH; wcbv; try settled_cases;
      rewrite ?app_nil_r; reflexivity.
  - destruct dj, dt, dP; wcbv; try settled_cases;
      rewrite ?app_nil_r; reflexivity.
  - reflexivity.
Qed.

Lemma load_eq (url : jsstring) (w : World) :
  let ty := detectStreamType url in
  let k := next_load w in
  let t := next_timer w in
  load url w =
    mkWorld (Some ty) (Some url) (Some t) (onError w) (onStateChange w)
      (onLevelsAvailable w)
      (match ty with
       | hls => if creates_engine hls (env w)
                then Some (mkHlsEngine (next_engine w) k url false) else None
       | _ => hls_hls (stop w)
       end)
      (match ty with hls => true | _ => hls_wired w end)
      (match ty with
       | dash => if creates_engine dash (env w)
                 then Some (mkDashEngine (next_engine w) k) else None
       | _ => dash_player (stop w)
       end)
      (match ty with dash => true | _ => dash_wired w end)
      (match ty with native => true | _ => native_wired w end)
      (if sets_source ty (env w) then Some url else None)
      (listeners w ++ load_listeners ty (env w) k)
      (env w) (now w)
      (mkTimer t k (now w + LOAD_TIMEOUT_MS) :: timers_after_cancel w)
      (S t)
      (if creates_engine ty (env w) then S (next_engine w)
       else next_engine w)
      (S k)
      (match rejects_at_once ty (env w) with
       | Some e => if is_settled k w then settled w
                   else (k, RejectedWith e) :: settled w
       | None => settled w
       end)
      (match rejects_at_once ty (env w) with
       | Some e => if is_settled k w then microtasks w
                   else microtasks w ++ [(k, RejectedWith e)]
       | None => microtasks w
       end)
      (SetTimeout t LOAD_TIMEOUT_MS ::
       rev (adapter_load_trace ty url (engine_teardown ty (stop w))
              (next_engine w) (env w)) ++
       Select ty :: rev (stop_trace w) ++ log w).
Proof.
  intros ty k t. subst k t. unfold load. fold ty.
  rewrite !stop_eq.
  cbv zeta. rewrite adapter_load_eq.
  destruct ty; wcbv; reflexivity.
Qed.

(** ** Continuations *)

Lemma same_player_refl (w : World) : same_player w w.
Proof. unfold same_player. repeat split. Qed.

Lemma same_player_trans (w1 w2 w3 : World) :
  same_player w1 w2 -> same_player w2 w3 -> same_player w1 w3.
Proof.
  unfold same_player. intros H1 H2.
  destruct H1 as (?&?&?&?&?&?&?&?&?&?&?), H2 as (?&?&?&?&?&?&?&?&?&?&?).
  repeat (split; [congruence|]). congruence.
Qed.

Lemma load_continue_spec (k : LoadId) (o : Outcome) (w : World) :
  let w' := load_continue k o w in
  same_player w w' /\ incl (timers w') (timers w) /\
  microtasks w' = microtasks w /\
  exists new, log w' = new ++ log w /\
    forall k' e, In (CallOnError (FromLoad k') e) new ->
                 k' = k /\ o = RejectedWith e.
Proof.
  open_world w. unfold same_player.
  destruct o as [|e], lT as [t|], oE; wcbv;
    (split; [repeat split |]);
    (split; [first [apply incl_refl | apply incl_filter] |]);
    (split; [reflexivity |]);
    match goal with
    | |- exists new, ?l = new ++ _ /\ _ =>
        let nw := prefix_of l in exists nw
    end;
    (split; [reflexivity |]);
    intros k' e' H; simpl in H;
    repeat match goal with H : _ \/ _ |- _ => destruct H end;
    try discriminate; try contradiction.
  all: match goal with H : CallOnError _ _ = _ |- _ => now inversion H end.
Qed.

Lemma continuations_spec (l : list (LoadId * Outcome)) (w : World) :
  let w' := continuations l w in
  same_player w w' /\ incl (timers w') (timers w) /\
  microtasks w' = microtasks w /\
  exists new, log w' = new ++ log w /\
    forall k e, In (CallOnError (FromLoad k) e) new ->
                In (k, RejectedWith e) l.
Proof.
  revert w. induction l as [|[k o] l IH]; intros w.
  - split; [apply same_player_refl|]. split; [apply incl_refl|].
    split; [reflexivity|]. exists []. split; [reflexivity|]. intros k e [].
  - change (continuations ((k, o) :: l) w)
      with (continuations l (load_continue k o w)).
    destruct (load_continue_spec k o w) as (Hp & Ht & Hm & new & Hl & Hn).
    destruct (IH (load_continue k o w)) as (Hp' & Ht' & Hm' & new' & Hl' & Hn').
    split; [eapply same_player_trans; eassumption|].
    split; [eapply incl_tran; eassumption|].
    split; [now rewrite Hm'|].
    exists (new' ++ new). split.
    + rewrite Hl', Hl. now rewrite app_assoc.
    + intros k' e Hin. apply in_app_or in Hin as [Hin|Hin].
      * right. now apply Hn'.
      * left. destruct (Hn _ _ Hin) as [-> ->]. reflexivity.
Qed.

Lemma run_microtasks_spec (w : World) :
  let w' := run_microtasks w in
  same_player w w' /\ incl (timers w') (timers w) /\
  microtasks w' = [] /\
  exists new, log w' = new ++ log w /\
    forall k e, In (CallOnError (FromLoad k) e) new ->
                In (k, RejectedWith e) (microtasks w).
Proof.
  unfold run_microtasks.
  pose proof (continuations_spec (microtasks w) (set_microtasks [] w)) as H.
  unfold continuations in H. cbv zeta in H |- *.
  set (w' := fold_left _ _ _) in *. clearbody w'.
  destruct H as (Hp & Ht & Hm & new & Hl & Hn).
  unfold same_player in *. destruct w; cbn in *.
  repeat (split; [first [apply Hp | assumption]|]).
  exists new. split; assumption.
Qed.
(** ** HlsAdapter: the ERROR handler *)

(** C5, counterexample: a fatal NETWORK_ERROR during an hls.js load leaves
    the engine in place and the load unsettled. *)
Lemma hls_fatal_network_error_keeps_engine :
  ~ hls_errors_as_stated hls_loading hls_engine0
      (mkHlsErrorData NETWORK_ERROR (js "manifestLoadError") true).
Proof.
  intros [_ H]. destruct (H eq_refl) as [H1 _]. vm_compute in H1. discriminate H1.
Qed.

(** C5, as amended: in the HLS adapter (hls.js path) a non-fatal engine
    error changes nothing and is never surfaced.  Every fatal error is
    first surfaced through onError (the manager cancelling the pending load
    timeout).  A fatal network error then calls startLoad() and a fatal
    media error recoverMediaError(), the engine staying alive and the load
    unsettled.  After a fatal error of any other type there are three
    cases.  If the adapter's promise was already resolved or rejected (its
    [resolved] flag is set), the handler does nothing more.  Otherwise it
    destroys the engine and rejects the adapter's promise; if the race of
    [load] was still unsettled, load's catch block surfaces the rejection
    a second time and load returns false; if the race was already settled
    (by the load timeout), the engine is destroyed and nothing more is
    reported. *)
Theorem hls_error_handler (w : World) (h : HlsEngine) (data : HlsErrorData) :
  hls_hls w = Some h -> hls_wired w = true -> microtasks w = [] ->
  let w' := step (HlsError (h_id h) data) w in
  let surfaced := cancel_actions w ++ notify FromAdapter (HlsData data) w in
  let k := h_owner h in
  let failure := JsError (MsgFatalHls (e_type data) (e_details data)) in
  (e_fatal data = false -> w' = w) /\
  (e_fatal data = true -> e_type data = NETWORK_ERROR ->
   since w w' = surfaced ++ [HlsStartLoad (h_id h)] /\
   hls_hls w' = Some h /\ settled w' = settled w) /\
  (e_fatal data = true -> e_type data = MEDIA_ERROR ->
   since w w' = surfaced ++ [HlsRecoverMediaError (h_id h)] /\
   hls_hls w' = Some h /\ settled w' = settled w) /\
  (e_fatal data = true ->
   e_type data <> NETWORK_ERROR -> e_type data <> MEDIA_ERROR ->
   (h_resolved h = true ->
    since w w' = surfaced /\
    hls_hls w' = Some h /\ settled w' = settled w) /\
   (h_resolved h = false -> is_settled k w = true ->
    since w w' =
      surfaced ++ [AdapterDestroy hls; EngineDestroy hls (h_id h)] /\
    hls_hls w' = None /\ settled w' = settled w) /\
   (h_resolved h = false -> is_settled k w = false ->
    since w w' =
      surfaced ++ [AdapterDestroy hls; EngineDestroy hls (h_id h)] ++
      notify (FromLoad k) failure w ++ [LoadReturns k false] /\
    hls_hls w' = None /\
    settled w' = (k, RejectedWith failure) :: settled w)).
Proof.
  intros Hh Hw Hm. open_world w. subst hH hW mt.
  destruct data as [ty det fatal], h as [e k url res].
  cbn [e_fatal e_type e_details h_id h_owner h_resolved].
  unfold step, handle, live_hls, is_settled, cancel_actions, notify.
  cbn [hls_hls h_id loadTimeoutId onError settled]. rewrite Nat.eqb_refl.
  refine (conj _ (conj _ (conj _ _))).
  - intros ->. reflexivity.
  - intros -> ->. destruct lT, oE; (split; [since_now | split; reflexivity]).
  - intros -> ->. destruct lT, oE; (split; [since_now | split; reflexivity]).
  - intros -> Hn Hmd. destruct ty as [| |name]; [congruence | congruence |].
    refine (conj _ (conj _ _)).
    + intros ->. destruct lT, oE; (split; [since_now | split; reflexivity]).
    + intros -> Hs.
      destruct lT, oE; cbn -[since]; unfold settle, is_settled; cbn -[since]; rewrite Hs; cbn -[since];
        (split; [since_now | split; reflexivity]).
    + intros -> Hs.
      destruct lT, oE; cbn -[since]; unfold settle, is_settled; cbn -[since]; rewrite Hs; cbn -[since];
        (split; [since_now | split; reflexivity]).
Qed.

Lemma hls_error_handler_witness :
  let data := mkHlsErrorData NETWORK_ERROR (js "manifestLoadError") true in
  let w' := step (HlsError 0 data) hls_loading in
  (hls_hls hls_loading = Some hls_engine0 /\
   hls_wired hls_loading = true /\ microtasks hls_loading = []) /\
  since hls_loading w' =
    [ClearTimeout 0; CallOnError FromAdapter (HlsData data); HlsStartLoad 0] /\
  hls_hls w' = Some hls_engine0.
Proof.
  assert (Hh : hls_hls hls_loading = Some hls_engine0)
    by (vm_compute; reflexivity).
  assert (Hw : hls_wired hls_loading = true) by (vm_compute; reflexivity).
  assert (Hm : microtasks hls_loading = []) by (vm_compute; reflexivity).
  pose proof (@hls_error_handler hls_loading hls_engine0
                (mkHlsErrorData NETWORK_ERROR (js "manifestLoadError") true)
                Hh Hw Hm) as H.
  apply proj2 in H. apply proj1 in H.
  specialize (H eq_refl eq_refl). destruct H as (H1 & H2 & _).
  vm_compute in H1, H2. vm_compute.
  split; [repeat split | split; [exact H1 | exact H2]].
Defined.

(** ** The load timeout *)

Lemma In_since (w w' : World) (new : list Action) (a : Action) :
  log w' = new ++ log w -> In a new -> In a (since w w').
Proof.
  intros H Hin. rewrite (since_log w w' new (rev new) H eq_refl).
  now apply in_rev in Hin.
Qed.

Lemma find_timer_filter (t : TimerId) (l : list Timer) :
  find (fun x => t_id x =? t) (filter (fun x => negb (t_id x =? t)) l) = None.
Proof.
  induction l as [|x l IH]; simpl; [reflexivity|].
  destruct (t_id x =? t) eqn:E; simpl; [exact IH | now rewrite E].
Qed.

(** With no timer pending, the clock alone changes nothing but the time. *)
Lemma time_passes_idle (later : list Event) (w : World) :
  timers w = [] -> microtasks w = [] ->
  forallb only_time later = true ->
  let w' := run later w in
  timers w' = [] /\ microtasks w' = [] /\ settled w' = settled w /\
  hls_hls w' = hls_hls w /\ dash_player w' = dash_player w /\
  log w' = log w.
Proof.
  revert w. induction later as [|ev later IH]; intros w Ht Hm Hl;
    [repeat split; assumption|].
  cbn [forallb] in Hl. apply andb_true_iff in Hl as [Hev Hl].
  change (run (ev :: later) w) with (run later (step ev w)).
  assert (E : timers (step ev w) = [] /\ microtasks (step ev w) = [] /\
              settled (step ev w) = settled w /\
              hls_hls (step ev w) = hls_hls w /\
              dash_player (step ev w) = dash_player w /\
              log (step ev w) = log w).
  { destruct ev as [url| |ms|t|e data|e|e|e fatal|e|e| |];
      try discriminate Hev; unfold step, handle.
    - destruct w as [cA cU lT oE oS oL hH hW dP dW nW vS ls en nw tms nT nE
                     nL st mt lg].
      cbn [timers microtasks] in Ht, Hm. subst tms mt.
      repeat split; reflexivity.
    - unfold timer_fires, find_timer. rewrite Ht. cbn [find].
      rewrite run_microtasks_nil by exact Hm. repeat split; assumption. }
  destruct E as (E1 & E2 & E3 & E4 & E5 & E6).
  cbv zeta. destruct (IH (step ev w) E1 E2 Hl) as (H1 & H2 & H3 & H4 & H5 & H6).
  cbv zeta in *. repeat split; congruence.
Qed.




(** ** One adapter at a time *)


Lemma attached_shrink (w w' : World) :
  attached_ok w = true -> engines_shrink w w' -> attached_ok w' = true.
Proof.
  unfold engines_shrink. intros H (Hc & Hv & Hd & Hh).
  revert H. unfold attached_ok, has_source. rewrite Hc, Hv, Hd.
  destruct (hls_hls w'); cbn in Hh.
  - rewrite (Hh eq_refl). trivial.
  - destruct (currentAdapter w) as [[| |]|], (hls_hls w), (dash_player w),
      (video_src w) as [[|c s]|]; cbn; intros H; try discriminate H;
      reflexivity.
Qed.

Lemma engines_shrink_refl (w : World) : engines_shrink w w.
Proof. unfold engines_shrink. repeat split; trivial. Qed.

Lemma engines_shrink_trans (w1 w2 w3 : World) :
  engines_shrink w1 w2 -> engines_shrink w2 w3 -> engines_shrink w1 w3.
Proof.
  unfold engines_shrink. intros (?&?&?&?) (?&?&?&?).
  repeat (split; [congruence|]). auto.
Qed.

Lemma same_player_shrink (w w' : World) :
  same_player w w' -> engines_shrink w w'.
Proof.
  unfold same_player, engines_shrink. intros (?&Hh&?&?&_).
  repeat (split; [congruence|]). now rewrite Hh.
Qed.

Ltac shrink_now :=
  unfold engines_shrink; wcbv; repeat split; trivial; discriminate.

Lemma settle_shrink (k : LoadId) (o : Outcome) (w : World) :
  engines_shrink w (settle k o w).
Proof. rewrite settle_eq. open_world w. shrink_now. Qed.

Lemma forward_error_shrink (error : ErrorValue) (w : World) :
  engines_shrink w (forward_error error w).
Proof.
  open_world w. destruct (is_fatal error) eqn:E, lT, oE;
    unfold forward_error; rewrite E; shrink_now.
Qed.

Lemma adapter_onError_shrink (a : StreamType) (error : ErrorValue) (w : World) :
  engines_shrink w (adapter_onError a error w).
Proof.
  unfold adapter_onError. destruct (wired a w).
  - apply forward_error_shrink.
  - apply engines_shrink_refl.
Qed.

Lemma emit_shrink (a : Action) (w : World) : engines_shrink w (emit a w).
Proof. open_world w. shrink_now. Qed.

Lemma hls_on_error_shrink (h : HlsEngine) (data : HlsErrorData) (w : World) :
  engines_shrink w (hls_on_error h data w).
Proof.
  unfold hls_on_error. destruct (e_fatal data); [|apply engines_shrink_refl].
  cbv zeta.
  apply engines_shrink_trans with (w2 := adapter_onError hls (HlsData data) w);
    [apply adapter_onError_shrink|].
  generalize (adapter_onError hls (HlsData data) w). intros w1.
  destruct (e_type data); try apply emit_shrink.
  destruct (h_resolved h); [apply engines_shrink_refl|].
  eapply engines_shrink_trans; [|apply settle_shrink].
  open_world w1. destruct hH; shrink_now.
Qed.

Lemma run_handler_shrink (h : Handler) (w : World) :
  engines_shrink w (run_handler h w).
Proof.
  unfold run_handler.
  set (w1 := set_listeners _ w).
  assert (H1 : engines_shrink w w1) by (subst w1; open_world w; shrink_now).
  clearbody w1. eapply engines_shrink_trans; [exact H1|].
  destruct h as [k|k|k|k]; try apply settle_shrink.
  - eapply engines_shrink_trans; [|apply settle_shrink].
    open_world w1. shrink_now.
  - eapply engines_shrink_trans; [|apply settle_shrink].
    apply adapter_onError_shrink.
Qed.

Lemma dispatch_shrink (loaded : bool) (w : World) :
  engines_shrink w (dispatch loaded w).
Proof.
  unfold dispatch. generalize (filter (fun h => Bool.eqb (on_loadedmetadata h) loaded) (listeners w)).
  intros l. revert w. induction l as [|h l IH]; intros w; cbn.
  - apply engines_shrink_refl.
  - eapply engines_shrink_trans; [apply run_handler_shrink | apply IH].
Qed.

Lemma live_hls_some (e : EngineId) (w : World) (h : HlsEngine) :
  live_hls e w = Some h -> hls_hls w = Some h.
Proof.
  unfold live_hls. destruct (hls_hls w) as [h'|]; [|discriminate].
  destruct (h_id h' =? e); [congruence | discriminate].
Qed.

Lemma stop_clean (w : World) :
  attached_ok w = true ->
  hls_hls (stop w) = None /\ dash_player (stop w) = None /\
  engines_and_source (stop w) = 0.
Proof.
  rewrite stop_eq. open_world w. wcbv.
  destruct cA as [[| |]|], hH, dP, vS as [[|c s]|]; cbn; intros H;
    try discriminate H; repeat split.
Qed.

Lemma load_attached (url : jsstring) (w : World) :
  attached_ok w = true -> attached_ok (load url w) = true.
Proof.
  intros H. destruct (stop_clean w H) as (Hh & Hd & _).
  rewrite load_eq. rewrite Hh, Hd. cbv zeta.
  generalize (detectStreamType url). intros ty.
  unfold creates_engine, sets_source.
  open_world w. destruct en as [nh hj dj dt].
  destruct ty; wcbv.
  - destruct nh, hj; try reflexivity; destruct url; reflexivity.
  - destruct dj, dt; reflexivity.
  - reflexivity.
Qed.

Lemma handle_attached (ev : Event) (w : World) :
  attached_ok w = true -> attached_ok (handle ev w) = true.
Proof.
  intros H. destruct ev as [url| |ms|t|e data|e|e|e fatal|e|e| |]; cbn [handle].
  - now apply load_attached.
  - destruct (stop_clean w H) as (Hh & Hd & _). revert Hh Hd.
    rewrite stop_eq. wcbv. intros -> ->. reflexivity.
  - apply (attached_shrink w); [exact H|]. open_world w. shrink_now.
  - apply (attached_shrink w); [exact H|]. unfold timer_fires.
    destruct (find_timer t w) as [tm|]; [|apply engines_shrink_refl].
    destruct (t_deadline tm <=? now w)%Z; [|apply engines_shrink_refl].
    eapply engines_shrink_trans; [|apply settle_shrink].
    open_world w. shrink_now.
  - apply (attached_shrink w); [exact H|].
    destruct (live_hls e w); [apply hls_on_error_shrink|apply engines_shrink_refl].
  - apply (attached_shrink w); [exact H|].
    destruct (live_hls e w); [apply emit_shrink|apply engines_shrink_refl].
  - apply (attached_shrink w); [exact H|].
    destruct (live_hls e w) as [h|] eqn:Hl; [|apply engines_shrink_refl].
    apply live_hls_some in Hl. unfold hls_on_manifest_parsed.
    destruct (h_resolved h); [apply engines_shrink_refl|].
    eapply engines_shrink_trans; [|apply settle_shrink].
    open_world w. subst hH. shrink_now.
  - apply (attached_shrink w); [exact H|].
    destruct (live_dash e w); [apply adapter_onError_shrink|apply engines_shrink_refl].
  - apply (attached_shrink w); [exact H|].
    destruct (live_dash e w) as [p|]; [|apply engines_shrink_refl].
    unfold dash_on_stream_initialized.
    eapply engines_shrink_trans; [|apply settle_shrink].
    destruct (dash_wired w); [|apply engines_shrink_refl].
    open_world w. destruct oL; shrink_now.
  - apply (attached_shrink w); [exact H|].
    destruct (live_dash e w) as [p|]; [|apply engines_shrink_refl].
    destruct (dash_wired w); [|apply engines_shrink_refl].
    open_world w. destruct oS; shrink_now.
  - apply (attached_shrink w); [exact H|]. apply dispatch_shrink.
  - apply (attached_shrink w); [exact H|]. apply dispatch_shrink.
Qed.

Lemma step_attached (ev : Event) (w : World) :
  attached_ok w = true -> attached_ok (step ev w) = true.
Proof.
  intros H. unfold step.
  apply (attached_shrink (handle ev w)); [now apply handle_attached|].
  apply same_player_shrink. apply run_microtasks_spec.
Qed.

Lemma run_attached (evs : list Event) (w : World) :
  attached_ok w = true -> attached_ok (run evs w) = true.
Proof.
  revert w. induction evs as [|ev evs IH]; intros w H; cbn; [exact H|].
  apply IH. now apply step_attached.
Qed.

Lemma stop_cancels (w : World) (t : TimerId) :
  loadTimeoutId w = Some t -> find_timer t (stop w) = None.
Proof.
  intros H. rewrite stop_eq. unfold find_timer, timers_after_cancel.
  cbn [timers]. rewrite H. apply find_timer_filter.
Qed.

Lemma init_attached (e : Env) (cbE cbS cbL : bool) :
  attached_ok (init e cbE cbS cbL) = true.
Proof. reflexivity. Qed.

(** ** What a task does to timers, queue and trace *)

Lemma quiet_refl (w : World) : quiet w w.
Proof.
  unfold quiet. repeat split; try apply incl_refl; trivial.
  - exists []. split; [now rewrite app_nil_r | intros k []].
  - exists []. split; [reflexivity | intros k e []].
Qed.

Lemma quiet_trans (w1 w2 w3 : World) :
  quiet w1 w2 -> quiet w2 w3 -> quiet w1 w3.
Proof.
  intros (Ht1 & Hl1 & Hc1 & Hi1 & (add1 & Hm1 & Ha1) & (new1 & Hn1 & Hq1))
         (Ht2 & Hl2 & Hc2 & Hi2 & (add2 & Hm2 & Ha2) & (new2 & Hn2 & Hq2)).
  unfold quiet. split; [congruence|]. split; [congruence|].
  split; [auto|].
  split; [eapply incl_tran; eassumption|]. split.
  - exists (add1 ++ add2). split; [rewrite Hm2, Hm1; now rewrite app_assoc|].
    intros k Hin. apply in_app_or in Hin as [Hin|Hin].
    + now apply Ha1.
    + destruct (Ha2 k Hin) as (tm & Htm & Ho). exists tm. split; [|exact Ho].
      now apply Hi1.
  - exists (new2 ++ new1). split; [rewrite Hn2, Hn1; now rewrite app_assoc|].
    intros k e Hin. apply in_app_or in Hin as [Hin|Hin].
    + now apply (Hq2 k e).
    + now apply (Hq1 k e).
Qed.

(** Two explicit worlds: timers kept or filtered, queue kept, some
    actions consed on the log. *)
Ltac quiet_now :=
  unfold quiet; wcbv;
  split; [reflexivity|]; split; [reflexivity|];
  split; [intros; first [assumption | reflexivity]|];
  split; [first [apply incl_refl | apply incl_filter]|];
  split;
  [ exists []; split; [now rewrite app_nil_r | intros ? []]
  | match goal with
    | |- exists new, ?l = new ++ _ /\ _ =>
        let nw := prefix_of l in exists nw
    end;
    split; [reflexivity|];
    intros ? ? Hin; simpl in Hin;
    repeat match goal with H : _ \/ _ |- _ => destruct H end;
    try discriminate; contradiction ].

Lemma emit_quiet (a : Action) (w : World) :
  (forall k e, a <> CallOnError (FromLoad k) e) -> quiet w (emit a w).
Proof.
  intros Ha. open_world w. unfold quiet; wcbv.
  split; [reflexivity|]; split; [reflexivity|]. split; [trivial|].
  split; [apply incl_refl|].
  split.
  - exists []. split; [now rewrite app_nil_r | intros ? []].
  - exists [a]. split; [reflexivity|]. intros k e [H|[]]. now apply (Ha k e).
Qed.

Lemma settle_quiet (k : LoadId) (o : Outcome) (w : World) :
  o <> RejectedWith (JsError MsgLoadTimeout) -> quiet w (settle k o w).
Proof.
  intros Ho. rewrite settle_eq. open_world w. unfold quiet; wcbv.
  split; [reflexivity|]; split; [reflexivity|]. split; [trivial|].
  split; [apply incl_refl|].
  split.
  - settled_cases.
    + exists []. split; [now rewrite app_nil_r | intros ? []].
    + exists [(k, o)]. split; [reflexivity|].
      intros k' [H|[]]. inversion H. congruence.
  - exists []. split; [reflexivity | intros ? ? []].
Qed.

Lemma forward_error_quiet (error : ErrorValue) (w : World) :
  quiet w (forward_error error w).
Proof.
  open_world w. unfold forward_error.
  destruct (is_fatal error), lT, oE; quiet_now.
Qed.

Lemma adapter_onError_quiet (a : StreamType) (error : ErrorValue) (w : World) :
  quiet w (adapter_onError a error w).
Proof.
  unfold adapter_onError. destruct (wired a w).
  - apply forward_error_quiet.
  - apply quiet_refl.
Qed.

Lemma hls_on_error_quiet (h : HlsEngine) (data : HlsErrorData) (w : World) :
  quiet w (hls_on_error h data w).
Proof.
  unfold hls_on_error. destruct (e_fatal data); [|apply quiet_refl].
  cbv zeta.
  apply quiet_trans with (w2 := adapter_onError hls (HlsData data) w);
    [apply adapter_onError_quiet|].
  generalize (adapter_onError hls (HlsData data) w). intros w1.
  destruct (e_type data); try (apply emit_quiet; discriminate).
  destruct (h_resolved h); [apply quiet_refl|].
  eapply quiet_trans; [|apply settle_quiet; discriminate].
  open_world w1. destruct hH; quiet_now.
Qed.

Lemma run_handler_quiet (h : Handler) (w : World) :
  quiet w (run_handler h w).
Proof.
  unfold run_handler.
  set (w1 := set_listeners _ w).
  assert (H1 : quiet w w1) by (subst w1; open_world w; quiet_now).
  clearbody w1. eapply quiet_trans; [exact H1|].
  destruct h as [k|k|k|k]; try (apply settle_quiet; discriminate).
  - eapply quiet_trans; [|apply settle_quiet; discriminate].
    open_world w1. quiet_now.
  - eapply quiet_trans; [|apply settle_quiet; discriminate].
    apply adapter_onError_quiet.
Qed.

Lemma dispatch_quiet (loaded : bool) (w : World) :
  quiet w (dispatch loaded w).
Proof.
  unfold dispatch.
  generalize (filter (fun h => Bool.eqb (on_loadedmetadata h) loaded)
                     (listeners w)).
  intros l. revert w. induction l as [|h l IH]; intros w; cbn.
  - apply quiet_refl.
  - eapply quiet_trans; [apply run_handler_quiet | apply IH].
Qed.

Lemma timer_fires_quiet (t : TimerId) (w : World) :
  quiet w (timer_fires t w).
Proof.
  unfold timer_fires. destruct (find_timer t w) as [tm|] eqn:Hf;
    [|apply quiet_refl].
  destruct (t_deadline tm <=? now w)%Z; [|apply quiet_refl].
  apply find_some in Hf as [Hin _].
  rewrite settle_eq. open_world w. unfold quiet; wcbv.
  split; [reflexivity|]; split; [reflexivity|]. split; [trivial|].
  split; [apply incl_filter|].
  split.
  - settled_cases.
    + exists []. split; [now rewrite app_nil_r | intros ? []].
    + eexists. split; [reflexivity|].
      intros k' [H|[]]. inversion H. subst. exists tm. split; [exact Hin|].
      reflexivity.
  - exists []. split; [reflexivity | intros ? ? []].
Qed.

Lemma stop_trace_no_error (w : World) (s : ErrorSite) (e : ErrorValue) :
  ~ In (CallOnError s e) (stop_trace w).
Proof.
  unfold stop_trace, destroy_trace, cancel_actions.
  destruct (loadTimeoutId w) as [t|], (currentAdapter w) as [[| |]|],
    (hls_hls w), (dash_player w); cbn; intros H;
    repeat match goal with H : _ \/ _ |- _ => destruct H end;
    try discriminate; contradiction.
Qed.

Lemma stop_quiet (w : World) : quiet w (stop w).
Proof.
  rewrite stop_eq. unfold quiet. cbn [next_timer next_load timers microtasks log loadTimeoutId].
  split; [reflexivity|]; split; [reflexivity|]. split; [reflexivity|]. split.
  - unfold timers_after_cancel. destruct (loadTimeoutId w);
      [apply incl_filter | apply incl_refl].
  - split.
    + exists []. split; [now rewrite app_nil_r | intros ? []].
    + exists (rev (stop_trace w)). split; [reflexivity|].
      intros k e H. apply in_rev in H. now apply stop_trace_no_error in H.
Qed.

Lemma handle_quiet (ev : Event) (w : World) :
  (forall url, ev <> CallLoad url) -> quiet w (handle ev w).
Proof.
  intros Hev.
  destruct ev as [url| |ms|t|e data|e|e|e fatal|e|e| |]; cbn [handle].
  - now elim (Hev url).
  - apply stop_quiet.
  - open_world w. quiet_now.
  - apply timer_fires_quiet.
  - destruct (live_hls e w); [apply hls_on_error_quiet | apply quiet_refl].
  - destruct (live_hls e w); [apply emit_quiet; discriminate | apply quiet_refl].
  - destruct (live_hls e w) as [h|]; [|apply quiet_refl].
    unfold hls_on_manifest_parsed.
    destruct (h_resolved h); [apply quiet_refl|].
    eapply quiet_trans; [|apply settle_quiet; discriminate].
    open_world w. quiet_now.
  - destruct (live_dash e w); [apply adapter_onError_quiet | apply quiet_refl].
  - destruct (live_dash e w) as [p|]; [|apply quiet_refl].
    unfold dash_on_stream_initialized.
    eapply quiet_trans; [|apply settle_quiet; discriminate].
    destruct (dash_wired w); [|apply quiet_refl].
    open_world w. destruct oL; quiet_now.
  - destruct (live_dash e w) as [p|]; [|apply quiet_refl].
    destruct (dash_wired w); [|apply quiet_refl].
    open_world w. destruct oS; quiet_now.
  - apply dispatch_quiet.
  - apply dispatch_quiet.
Qed.

Lemma rejects_at_once_not_timeout (a : StreamType) (e : Env) :
  rejects_at_once a e <> Some (JsError MsgLoadTimeout).
Proof.
  destruct a, e as [nh hj dj dt]; cbn;
    [destruct nh, hj | destruct dj, dt |]; discriminate.
Qed.

Lemma adapter_load_trace_no_error (a : StreamType) (url : jsstring)
    (w : World) (e : EngineId) (en : Env) (s : ErrorSite) (err : ErrorValue) :
  ~ In (CallOnError s err)
       (adapter_load_trace a url (engine_teardown a w) e en).
Proof.
  unfold adapter_load_trace, engine_teardown.
  destruct a, en as [nh hj dj dt], (hls_hls w), (dash_player w); cbn;
    try destruct nh; try destruct hj; try destruct dj; try destruct dt;
    cbn; intros H;
    repeat match goal with H : _ \/ _ |- _ => destruct H end;
    try discriminate; contradiction.
Qed.

Lemma run_microtasks_keeps_cancelled (w : World) :
  loadTimeoutId w = None -> loadTimeoutId (run_microtasks w) = None.
Proof.
  unfold run_microtasks.
  assert (H : forall l w0, loadTimeoutId w0 = None ->
            loadTimeoutId (continuations l w0) = None).
  { induction l as [|[k o] l IH]; intros w0 H0; [exact H0|].
    apply IH. open_world w0. subst lT. destruct o, oE; reflexivity. }
  intros Hw. apply (H (microtasks w)). open_world w. exact Hw.
Qed.

Lemma load_fields (url : jsstring) (w : World) :
  let ty := detectStreamType url in
  next_timer (load url w) = S (next_timer w) /\
  next_load (load url w) = S (next_load w) /\
  timers (load url w) =
    mkTimer (next_timer w) (next_load w) (now w + LOAD_TIMEOUT_MS)
    :: timers_after_cancel w /\
  microtasks (load url w) =
    match rejects_at_once ty (env w) with
    | Some e => if is_settled (next_load w) w then microtasks w
                else microtasks w ++ [(next_load w, RejectedWith e)]
    | None => microtasks w
    end /\
  log (load url w) =
    SetTimeout (next_timer w) LOAD_TIMEOUT_MS ::
    rev (adapter_load_trace ty url (engine_teardown ty (stop w))
           (next_engine w) (env w)) ++
    Select ty :: rev (stop_trace w) ++ log w.
Proof. rewrite load_eq. repeat split. Qed.

(** One task, from a state between tasks. *)
Lemma step_footprint (ev : Event) (w : World) :
  microtasks w = [] -> footprint w (step ev w).
Proof.
  intros Hm. unfold step.
  destruct (run_microtasks_spec (handle ev w))
    as (Hp & Ht & Hq & cont & Hl & Hc).
  destruct Hp as (_ & _ & _ & _ & _ & _ & Hnl & Hnt & _).
  unfold footprint. split; [exact Hq|].
  destruct ev as [url| |ms|t|e data|e|e|e fatal|e|e| |].
  1: {
    cbn [handle] in *.
    destruct (load_fields url w) as (Ft & Fl & Fi & Fm & Fg).
    cbv zeta in *. rewrite Fl in Hnl. rewrite Ft in Hnt. rewrite Fi in Ht.
    rewrite Fm in Hc. rewrite Fg in Hl.
    split.
    - right. split; [exact Hnt|]. split; [exact Hnl|].
      eapply incl_tran; [exact Ht|].
      apply incl_cons; [now left|]. apply incl_tl.
      unfold timers_after_cancel. destruct (loadTimeoutId w);
        [apply incl_filter | apply incl_refl].
    - exists (cont ++
              SetTimeout (next_timer w) LOAD_TIMEOUT_MS ::
              rev (adapter_load_trace (detectStreamType url) url
                     (engine_teardown (detectStreamType url) (stop w))
                     (next_engine w) (env w)) ++
              Select (detectStreamType url) :: rev (stop_trace w)).
      split; [rewrite Hl; rewrite <- !app_assoc; cbn [app];
              rewrite <- !app_assoc; reflexivity|].
      intros k Hin. exfalso. unfold timeout_error in Hin.
      apply in_app_or in Hin as [Hin|Hin].
      + apply Hc in Hin. rewrite Hm in Hin.
        pose proof (rejects_at_once_not_timeout (detectStreamType url) (env w)) as Hr.
        destruct (rejects_at_once (detectStreamType url) (env w)) as [err|];
          [|contradiction].
        destruct (is_settled (next_load w) w); [contradiction|].
        destruct Hin as [Hin|[]]. inversion Hin. congruence.
      + cbn in Hin. destruct Hin as [Hin|Hin]; [discriminate|].
        apply in_app_or in Hin as [Hin|Hin].
        * apply in_rev in Hin. now apply adapter_load_trace_no_error in Hin.
        * destruct Hin as [Hin|Hin]; [discriminate|].
          apply in_rev in Hin. now apply stop_trace_no_error in Hin. }
  all: match goal with
       | |- context [handle ?ev ?w0] =>
           assert (Hk : quiet w0 (handle ev w0))
             by (apply handle_quiet; discriminate);
           revert Hk Ht Hl Hc Hnl Hnt; generalize (handle ev w0)
       end;
       intros w1 Hk Ht Hl Hc Hnl Hnt;
       destruct Hk as (Kt & Kl & _ & Ki & (add & Ka & Kq) & (new & Kn & Kf));
       (split;
        [ left; split; [congruence|]; split; [congruence|];
          eapply incl_tran; eassumption
        | exists (cont ++ new); split;
          [ rewrite Hl, Kn; now rewrite app_assoc
          | intros k Hin; apply in_app_or in Hin as [Hin|Hin];
            [ apply Hc in Hin; rewrite Ka, Hm in Hin; now apply Kq
            | now apply Kf in Hin ] ] ]).
Qed.

(** ** Timers of reachable states *)

Lemma step_timers_ok (ev : Event) (w : World) :
  timers_ok w -> timers_ok (step ev w).
Proof.
  intros (Hn & Hf & Hm).
  destruct (step_footprint ev w Hm) as (Hq & Hc & _).
  unfold timers_ok. rewrite Forall_forall in *.
  destruct Hc as [(Ht & Hl & Hi) | (Ht & Hl & Hi)].
  - split; [congruence|]. split; [|exact Hq].
    intros tm Hin. rewrite Ht. apply Hf. now apply Hi.
  - split; [congruence|]. split; [|exact Hq].
    intros tm Hin. rewrite Ht. apply Hi in Hin. destruct Hin as [<-|Hin].
    + cbn. split; [now rewrite Hn | lia].
    + destruct (Hf tm Hin). split; [assumption | lia].
Qed.

Lemma run_timers_ok (evs : list Event) (w : World) :
  timers_ok w -> timers_ok (run evs w).
Proof.
  revert w. induction evs as [|ev evs IH]; intros w H; cbn; [exact H|].
  apply IH. now apply step_timers_ok.
Qed.

Lemma init_timers_ok (e : Env) (cbE cbS cbL : bool) :
  timers_ok (init e cbE cbS cbL).
Proof. repeat split. constructor. Qed.

Lemma step_timer_gone (k : LoadId) (ev : Event) (w : World) :
  timer_gone k w ->
  timer_gone k (step ev w) /\
  exists new, log (step ev w) = new ++ log w /\ ~ In (timeout_error k) new.
Proof.
  intros (Hf & Hk & Hm).
  destruct (step_footprint ev w Hm) as (Hq & Hc & new & Hl & Hn).
  rewrite Forall_forall in Hf. split.
  - unfold timer_gone. rewrite Forall_forall.
    destruct Hc as [(Ht & Hl' & Hi) | (Ht & Hl' & Hi)].
    + split; [|split; [lia | exact Hq]].
      intros tm Hin. apply Hf. now apply Hi.
    + split; [|split; [lia | exact Hq]].
      intros tm Hin. apply Hi in Hin. destruct Hin as [<-|Hin].
      * cbn. lia.
      * now apply Hf.
  - exists new. split; [exact Hl|]. intros Hin.
    destruct (Hn k Hin) as (tm & Htm & Ho). now apply (Hf tm Htm).
Qed.

Lemma run_timer_gone (k : LoadId) (evs : list Event) (w : World) :
  timer_gone k w ->
  exists new, log (run evs w) = new ++ log w /\ ~ In (timeout_error k) new.
Proof.
  revert w. induction evs as [|ev evs IH]; intros w H.
  - exists []. split; [reflexivity | intros []].
  - change (run (ev :: evs) w) with (run evs (step ev w)).
    destruct (step_timer_gone k ev w H) as (H' & new & Hl & Hn).
    destruct (IH _ H') as (new' & Hl' & Hn').
    exists (new' ++ new). split.
    + rewrite Hl', Hl. now rewrite app_assoc.
    + intros Hin. apply in_app_or in Hin as [Hin|Hin]; tauto.
Qed.

(** ** Fatal errors and the load timeout *)

Lemma live_dash_some (e : EngineId) (w : World) (p : DashEngine) :
  live_dash e w = Some p -> dash_player w = Some p.
Proof.
  unfold live_dash. destruct (dash_player w) as [p'|]; [|discriminate].
  destruct (d_id p' =? e); [congruence | discriminate].
Qed.

(** After the manager's error closure has run, the rest of the task arms
    no timer and reports nothing from a catch block. *)
Lemma reports_quiet (ev : Event) (w : World) (err : ErrorValue) :
  reports ev w = Some err -> quiet (forward_error err w) (handle ev w).
Proof.
  destruct ev as [url| |ms|t|e data|e|e|e fatal|e|e| |]; cbn [reports handle];
    try discriminate.
  - destruct (live_hls e w) as [h|]; [|discriminate].
    destruct (e_fatal data) eqn:Ef; [|discriminate].
    destruct (hls_wired w) eqn:Hw; [|discriminate].
    cbn. intros H. inversion H. subst err. clear H.
    unfold hls_on_error, adapter_onError. cbn [wired]. rewrite Ef, Hw.
    cbv zeta. generalize (forward_error (HlsData data) w). intros w1.
    destruct (e_type data); try (apply emit_quiet; discriminate).
    destruct (h_resolved h); [apply quiet_refl|].
    eapply quiet_trans; [|apply settle_quiet; discriminate].
    open_world w1. destruct hH; quiet_now.
  - destruct (live_dash e w) as [p|]; [|discriminate].
    destruct (dash_wired w) eqn:Hw; [|discriminate].
    intros H. inversion H. subst err. clear H.
    unfold adapter_onError. cbn [wired]. rewrite Hw. apply quiet_refl.
Qed.

Lemma find_timer_incl (t : TimerId) (l l' : list Timer) :
  incl l' l -> find (fun x => t_id x =? t) l = None ->
  find (fun x => t_id x =? t) l' = None.
Proof.
  intros Hi Hf. destruct (find _ l') as [tm|] eqn:E; [|reflexivity].
  apply find_some in E as [Hin Ht]. apply Hi in Hin.
  now rewrite (find_none _ _ Hf tm Hin) in Ht.
Qed.

(** C4: in any state the manager can reach, when the live engine of the
    current adapter reports an error whose [fatal] flag is set while the
    load timeout is pending, the manager clears that timeout at once,
    before passing the adapter's error on to onError; the timer is gone
    afterwards, and whatever happens later, load's catch block never
    reports a load-timeout error for that load. *)
Theorem fatal_error_cancels_timeout (e : Env) (cbE cbS cbL : bool)
    (evs0 : list Event) (ev : Event) (err : ErrorValue) (tm : Timer) :
  let w := run evs0 (init e cbE cbS cbL) in
  reports ev w = Some err -> is_fatal err = true ->
  loadTimeoutId w = Some (t_id tm) -> find_timer (t_id tm) w = Some tm ->
  let w' := step ev w in
  loadTimeoutId w' = None /\ find_timer (t_id tm) w' = None /\
  (exists rest,
     since w w' =
       ClearTimeout (t_id tm) :: notify FromAdapter err w ++ rest) /\
  forall evs, ~ In (timeout_error (t_owner tm)) (since w (run evs w')).
Proof.
  intros w Hr Hfat Hlt Hfind w'.
  assert (Hok : timers_ok w) by apply run_timers_ok, init_timers_ok.
  destruct Hok as (Hn & Hall & Hm).
  pose proof (reports_quiet ev w err Hr) as Hq.
  (* the state right after the manager's error closure *)
  set (w1 := forward_error err w) in *.
  assert (H1 : loadTimeoutId w1 = None /\
               timers w1 = filter (fun x => negb (t_id x =? t_id tm)) (timers w) /\
               next_load w1 = next_load w /\ microtasks w1 = [] /\
               log w1 = rev (ClearTimeout (t_id tm) :: notify FromAdapter err w)
                        ++ log w).
  { subst w1. unfold forward_error, notify. rewrite Hfat.
    clear Hq Hr Hfind Hall. revert Hlt Hm Hn. generalize (t_id tm). intros t.
    clearbody w. open_world w. intros -> -> _. destruct oE; repeat split. }
  destruct H1 as (L1 & T1 & N1 & M1 & G1).
  destruct Hq as (Qt & Ql & Qc & Qi & (add & Qa & Qq) & (new & Qn & Qf)).
  subst w'. unfold step.
  destruct (run_microtasks_spec (handle ev w))
    as (Hp & Ht & Hmq & cont & Hl & Hc).
  destruct Hp as (_ & _ & _ & _ & _ & _ & Pnl & Pnt & _).
  assert (Hsub : incl (timers (run_microtasks (handle ev w)))
                      (filter (fun x => negb (t_id x =? t_id tm)) (timers w))).
  { rewrite <- T1. eapply incl_tran; eassumption. }
  assert (Hown : forall x, In x (timers (run_microtasks (handle ev w))) ->
                           t_owner x <> t_owner tm).
  { intros x Hx. apply Hsub in Hx. apply filter_In in Hx as [Hx Hne].
    rewrite Forall_forall in Hall.
    apply find_some in Hfind as [Htm _].
    destruct (Hall x Hx) as [-> _]. destruct (Hall tm Htm) as [-> _].
    apply negb_true_iff, Nat.eqb_neq in Hne. exact Hne. }
  assert (Hquiet : ~ In (timeout_error (t_owner tm)) (cont ++ new)).
  { intros Hin. apply in_app_or in Hin as [Hin|Hin].
    - apply Hc in Hin. rewrite Qa, M1 in Hin. cbn in Hin.
      destruct (Qq _ Hin) as (x & Hx & Ho). rewrite T1 in Hx.
      apply filter_In in Hx as [Hx Hne].
      rewrite Forall_forall in Hall.
      apply find_some in Hfind as [Htm _].
      destruct (Hall x Hx) as [Ex _]. destruct (Hall tm Htm) as [Et _].
      apply negb_true_iff, Nat.eqb_neq in Hne. congruence.
    - now apply Qf in Hin. }
  assert (Hlog : log (run_microtasks (handle ev w)) =
                 (cont ++ new ++
                  rev (ClearTimeout (t_id tm) :: notify FromAdapter err w))
                 ++ log w).
  { rewrite Hl, Qn, G1. now rewrite <- !app_assoc. }
  split; [|split; [|split]].
  - apply run_microtasks_keeps_cancelled. now apply Qc.
  - unfold find_timer. eapply find_timer_incl; [exact Hsub|].
    apply find_timer_filter.
  - exists (rev (cont ++ new)).
    apply since_log with (1 := Hlog).
    rewrite !rev_app_distr, rev_involutive. cbn [app].
    now rewrite <- app_assoc.
  - intros evs.
    assert (Hgone : timer_gone (t_owner tm) (run_microtasks (handle ev w))).
    { split; [now apply Forall_forall|]. split; [|exact Hmq].
      rewrite Pnl, Ql, N1. rewrite Forall_forall in Hall.
      apply find_some in Hfind as [Htm _].
      destruct (Hall tm Htm) as [-> Hlt']. lia. }
    destruct (run_timer_gone (t_owner tm) evs _ Hgone) as (more & Hml & Hmn).
    rewrite (since_log w _ (more ++ cont ++ new ++
               rev (ClearTimeout (t_id tm) :: notify FromAdapter err w))
               _ (eq_trans Hml (eq_trans (f_equal _ Hlog)
                    (app_assoc _ _ _))) eq_refl).
    intros Hin. apply in_rev in Hin.
    apply in_app_or in Hin as [Hin|Hin]; [tauto|].
    rewrite app_assoc in Hin.
    apply in_app_or in Hin as [Hin|Hin]; [tauto|].
    apply in_rev in Hin. unfold notify, timeout_error in Hin.
    destruct Hin as [Hin|Hin]; [discriminate|].
    destruct (onError w); [destruct Hin as [Hin|[]]; discriminate | destruct Hin].
Qed.

Lemma fatal_error_cancels_timeout_witness :
  let data := mkHlsErrorData NETWORK_ERROR (js "manifestLoadError") true in
  let ev := HlsError 0 data in
  let w := run [CallLoad (js "http://x/live.m3u8")]
               (init chromium true true true) in
  let w' := step ev w in
  (reports ev w = Some (HlsData data) /\ is_fatal (HlsData data) = true /\
   loadTimeoutId w = Some 0 /\
   find_timer 0 w = Some (mkTimer 0 0 30000)) /\
  loadTimeoutId w' = None /\
  ~ In (timeout_error 0)
       (since w (run [Elapse 30000; TimerFires 0] w')).
Proof.
  intros data ev w w'.
  assert (Hr : reports ev w = Some (HlsData data)) by (vm_compute; reflexivity).
  assert (Hf : is_fatal (HlsData data) = true) by reflexivity.
  assert (Hl : loadTimeoutId w = Some (t_id (mkTimer 0 0 30000)))
    by (vm_compute; reflexivity).
  assert (Ht : find_timer (t_id (mkTimer 0 0 30000)) w =
               Some (mkTimer 0 0 30000)) by (vm_compute; reflexivity).
  pose proof (fatal_error_cancels_timeout chromium true true true
                [CallLoad (js "http://x/live.m3u8")] ev (HlsData data)
                (mkTimer 0 0 30000) Hr Hf Hl Ht) as (H1 & _ & _ & H2).
  split; [repeat split; assumption|].
  split; [exact H1 | exact (H2 [Elapse 30000; TimerFires 0])].
Defined.

End PlayerProofs.

(* ================================================================== *)
(** * Properties of the quality selector *)
(* ================================================================== *)

Module QualityProofs.
Import Quality.
Local Open Scope Z_scope.

(** ** The sort *)

Lemma insert_perm (x : Level) (l : list Level) :
  Permutation (insert x l) (x :: l).
Proof.
  induction l as [|y l IH]; cbn; [reflexivity|].
  destruct (before y x); [|reflexivity].
  rewrite IH. apply perm_swap.
Qed.

Lemma sort_perm (l : list Level) : Permutation (sort l) l.
Proof.
  induction l as [|x l IH]; cbn; [reflexivity|].
  rewrite insert_perm. now constructor.
Qed.

Lemma before_key (a b : Level) :
  before a b = true <-> sort_key a > sort_key b.
Proof. unfold before, sort_key. rewrite Z.ltb_lt. lia. Qed.

Lemma insert_sorted (x : Level) (l : list Level) :
  StronglySorted (fun a b => sort_key a >= sort_key b) l ->
  StronglySorted (fun a b => sort_key a >= sort_key b) (insert x l).
Proof.
  induction l as [|y l IH]; intros Hs; cbn.
  - repeat constructor.
  - apply StronglySorted_inv in Hs as [Hs Hy].
    destruct (before y x) eqn:E.
    + constructor; [now apply IH|].
      apply before_key in E.
      rewrite Forall_forall in *. intros z Hz.
      apply (Permutation_in _ (insert_perm x l)) in Hz.
      destruct Hz as [<-|Hz]; [lia | now apply Hy].
    + assert (Hxy : sort_key x >= sort_key y).
      { destruct (Z_ge_lt_dec (sort_key x) (sort_key y)) as [H|H]; [exact H|].
        assert (before y x = true) by (apply before_key; lia). congruence. }
      constructor; [now constructor|].
      constructor; [exact Hxy|].
      rewrite Forall_forall in *. intros z Hz. specialize (Hy z Hz). lia.
Qed.

Lemma sort_sorted (l : list Level) :
  StronglySorted (fun a b => sort_key a >= sort_key b) (sort l).
Proof.
  induction l as [|x l IH]; cbn; [constructor | now apply insert_sorted].
Qed.

(** Levels of one height keep the order the adapter gave them. *)
Lemma insert_stable (h : Z) (x : Level) (l : list Level) :
  StronglySorted (fun a b => sort_key a >= sort_key b) l ->
  filter (fun v => sort_key v =? h) (insert x l) =
  filter (fun v => sort_key v =? h) (x :: l).
Proof.
  induction l as [|y l IH]; intros Hs; [reflexivity|].
  apply StronglySorted_inv in Hs as [Hs Hy].
  cbn [insert]. destruct (before y x) eqn:E; [|reflexivity].
  apply before_key in E.
  cbn [filter]. rewrite (IH Hs). cbn [filter].
  destruct (sort_key y =? h) eqn:Ey, (sort_key x =? h) eqn:Ex;
    try reflexivity.
  apply Z.eqb_eq in Ey, Ex. lia.
Qed.

Lemma sort_stable (h : Z) (l : list Level) :
  filter (fun v => sort_key v =? h) (sort l) =
  filter (fun v => sort_key v =? h) l.
Proof.
  induction l as [|x l IH]; [reflexivity|].
  cbn [sort fold_right]. fold (sort l).
  rewrite insert_stable by apply sort_sorted.
  cbn [filter]. now rewrite IH.
Qed.

(** ** Rendering *)

(** C6, counterexample: a level with neither height nor bitrate is
    labelled [Level 0], which is not derived from a bitrate. *)
Lemma render_level_without_bitrate : ~ render_as_stated bare_selector.
Proof.
  intros (sorted & _ & Hperm & _ & Hl).
  apply Permutation_sym, Permutation_length_1_inv in Hperm. subst sorted.
  destruct (Hl bare_level (or_introl eq_refl) eq_refl) as [kbps [H|H]];
    discriminate H.
Qed.

(** C6, as amended: when the selector renders (it has a popup element),
    the popup holds the Auto option first, then one option per level of
    the adapter, ordered by descending height (a missing height counting
    as 0, levels of equal height in the adapter's order).  A level with a
    height is labelled [<height>p]; one without a height but with a
    bitrate is labelled from its bitrate in kbps ([Mbps] from 1000 kbps);
    one with neither is labelled [Level <index>]. *)
Theorem render_spec (qs : QualitySelector) (old : list Option_) :
  popup qs = Some old ->
  let sorted := sort (levels qs) in
  popup (render qs) =
    Some (mkOption LabelAuto AUTO (currentQuality qs =? AUTO)
          :: map (level_option (currentQuality qs)) sorted) /\
  Permutation sorted (levels qs) /\
  StronglySorted (fun a b => sort_key a >= sort_key b) sorted /\
  (forall h, filter (fun v => sort_key v =? h) sorted =
             filter (fun v => sort_key v =? h) (levels qs)) /\
  forall level, In level sorted ->
    let kbps := round_div_1000 (or0 (bitrate level)) in
    (truthy (height level) = true ->
     formatLabel level = LabelHeight (or0 (height level))) /\
    (truthy (height level) = false -> truthy (bitrate level) = true ->
     formatLabel level = if 1000 <=? kbps then LabelMbps kbps
                         else LabelKbps kbps) /\
    (truthy (height level) = false -> truthy (bitrate level) = false ->
     formatLabel level = LabelLevel (index level)).
Proof.
  intros Hp sorted. split; [|split; [|split; [|split]]].
  - unfold render. rewrite Hp. reflexivity.
  - apply sort_perm.
  - apply sort_sorted.
  - intros h. apply sort_stable.
  - intros level _ kbps. unfold formatLabel. subst kbps.
    destruct (truthy (height level)), (truthy (bitrate level));
      repeat split; intros; congruence.
Qed.

Lemma render_spec_witness :
  popup watching = Some
    [mkOption LabelAuto AUTO true;
     mkOption (LabelHeight 1080) 1 false;
     mkOption (LabelHeight 720) 2 false;
     mkOption (LabelHeight 480) 0 false] /\
  popup (render watching) = popup watching.
Proof.
  assert (Hp : popup watching = Some
    [mkOption LabelAuto AUTO true;
     mkOption (LabelHeight 1080) 1 false;
     mkOption (LabelHeight 720) 2 false;
     mkOption (LabelHeight 480) 0 false]) by reflexivity.
  split; [exact Hp|].
  destruct (render_spec watching _ Hp) as (H & _).
  rewrite H. reflexivity.
Defined.

(** ** Selection *)

(** C7: when the levels of a newly loaded stream arrive ([updateLevels]
    on a selector that has its player manager) the selection is Auto
    afterwards, whatever it was before and whichever level had been
    selected for the previous stream. *)
Theorem updateLevels_resets_selection (qs : QualitySelector) (pm : Manager) :
  playerManager qs = Some pm ->
  currentQuality (updateLevels qs) = AUTO /\
  levels (updateLevels qs) = m_levels pm /\
  forall i, currentQuality (updateLevels (select i qs)) = AUTO.
Proof.
  intros Hm.
  assert (H : forall q p, playerManager q = Some p ->
            currentQuality (updateLevels q) = AUTO /\
            levels (updateLevels q) = m_levels p).
  { intros q p Hq. unfold updateLevels. rewrite Hq. cbv zeta.
    cbn [levels]. destruct (Z.of_nat (List.length (m_levels p)) <=? 1).
    - destruct q as [m po v [b|] c l]; split; reflexivity.
    - destruct q as [m [po|] v [b|] c l]; split; reflexivity. }
  split; [apply (H qs pm Hm)|]. split; [apply (H qs pm Hm)|].
  intros i.
  apply (H (select i qs)
           (mkManager (m_levels pm) (i :: m_setQuality pm))).
  unfold select, manager_setQuality, render, hide, set_popup, set_visible.
  cbn. rewrite Hm. destruct (popup qs); reflexivity.
Qed.

Lemma updateLevels_resets_selection_witness :
  let qs := select 2 watching in
  playerManager qs = Some (mkManager ladder [2]) /\
  currentQuality qs = 2 /\ currentQuality (updateLevels qs) = AUTO.
Proof.
  intros qs.
  assert (Hm : playerManager qs = Some (mkManager ladder [2])) by reflexivity.
  split; [exact Hm|]. split; [reflexivity|].
  exact (proj1 (updateLevels_resets_selection qs _ Hm)).
Defined.

End QualityProofs.

(* ================================================================== *)
(** * Properties of the stream recorder *)
(* ================================================================== *)

Module RecorderProofs.
Import Recorder.
Local Open Scope Z_scope.

(** ** start *)

(** C8: [start()] on a recorder that is recording returns false and is
    the identity on the recorder: chunks, MediaRecorder, stream, flags and
    trace (no call is made, no callback invoked) are what they were. *)
Theorem start_while_recording (r : StreamRecorder) :
  recording r = true -> start r = (false, r).
Proof. intros H. unfold start. now rewrite H. Qed.

Lemma start_while_recording_witness :
  let r := deliver [[Byte.x01; Byte.x02]] (snd (start idle)) in
  recording r = true /\
  start r = (false, r) /\ recordedChunks r = [[Byte.x01; Byte.x02]].
Proof.
  intros r.
  assert (H : recording r = true) by reflexivity.
  split; [exact H|]. split; [exact (start_while_recording r H) | reflexivity].
Defined.

(** ** The chunks of one recording *)

Lemma on_dataavailable_chunks (c : Chunk) (r : StreamRecorder) :
  recordedChunks (on_dataavailable c r) =
  recordedChunks r ++ (if nonempty c then [c] else []).
Proof.
  unfold on_dataavailable, nonempty. destruct (0 <? size c).
  - destruct r. cbn. destruct onDataAvailable0; reflexivity.
  - now rewrite app_nil_r.
Qed.

Lemma deliver_chunks (chunks : list Chunk) (r : StreamRecorder) :
  recordedChunks (deliver chunks r) =
  recordedChunks r ++ filter nonempty chunks.
Proof.
  revert r. induction chunks as [|c chunks IH]; intros r.
  - cbn. now rewrite app_nil_r.
  - change (deliver (c :: chunks) r)
      with (deliver chunks (on_dataavailable c r)).
    rewrite IH, on_dataavailable_chunks. cbn [filter].
    destruct (nonempty c); cbn; now rewrite <- ?app_assoc, ?app_nil_r.
Qed.

Lemma concat_nonempty (chunks : list Chunk) :
  List.concat (filter nonempty chunks) = List.concat chunks.
Proof.
  induction chunks as [|c chunks IH]; [reflexivity|].
  cbn [filter]. unfold nonempty at 1, size.
  destruct c as [|b c]; cbn; [exact IH|].
  destruct (0 <? Z.pos (Pos.of_succ_nat (List.length c))) eqn:E.
  - cbn. now rewrite IH.
  - apply Z.ltb_ge in E. lia.
Qed.

Lemma start_true_chunks (r r1 : StreamRecorder) :
  start r = (true, r1) ->
  recordedChunks r1 = [] /\ recording r1 = true /\
  recording r = false /\ canRecord r = true.
Proof.
  unfold start.
  destruct (recording r) eqn:Hr; [discriminate|].
  destruct (canRecord r) eqn:Hc; [|discriminate]. cbn [negb].
  destruct r as [v m ch s rec st p c1 c2 c3 c4 sup th sth ck fr tr].
  unfold thrown_at, notify_error. cbn.
  destruct th as [[| |]|]; try discriminate;
    destruct (presets p); try discriminate;
    destruct c1; intros H; inversion H; repeat split.
Qed.

(** C10: a [start()] that succeeds leaves the chunk buffer empty, so after
    the data events of that recording the buffer holds exactly the
    non-empty chunks delivered, in the order delivered, whatever the buffer
    held before the start.  [getBlob()] is then [null] when there is none,
    and otherwise the blob of their bytes in that order, and it is this
    blob that [onStop] receives. *)
Theorem recording_holds_its_own_chunks (r r1 : StreamRecorder)
    (chunks : list Chunk) :
  start r = (true, r1) ->
  let r2 := deliver chunks r1 in
  recordedChunks r1 = [] /\
  recordedChunks r2 = filter nonempty chunks /\
  getBlob r2 =
    (if forallb (fun c => negb (nonempty c)) chunks then None
     else Some (mkBlob (List.concat chunks) BLOB_TYPE)) /\
  (onStop r2 = true ->
   exists duration,
     trace (on_stop r2) = CallOnStop (getBlob r2) duration :: trace r2).
Proof.
  intros Hs r2. destruct (start_true_chunks r r1 Hs) as (Hc & _).
  assert (H2 : recordedChunks r2 = filter nonempty chunks).
  { subst r2. now rewrite deliver_chunks, Hc. }
  split; [exact Hc|]. split; [exact H2|]. split.
  - unfold getBlob. rewrite H2, <- concat_nonempty.
    clear. induction chunks as [|c chunks IH]; [reflexivity|].
    cbn [filter forallb]. destruct (nonempty c); cbn; [reflexivity|].
    exact IH.
  - intros Ho. unfold on_stop. cbv zeta.
    generalize dependent r2. intros r2 _ Ho.
    destruct r2 as [v m ch s rec st p c1 c2 c3 c4 sup th sth ck fr tr].
    cbn in Ho. subst c2. cbn. eexists. reflexivity.
Qed.

Lemma recording_holds_its_own_chunks_witness :
  let stale := set_chunks [[Byte.xff]] idle in
  let r1 := snd (start stale) in
  let r2 := deliver [[Byte.x01]; []; [Byte.x02; Byte.x03]] r1 in
  start stale = (true, r1) /\
  recordedChunks r2 = [[Byte.x01]; [Byte.x02; Byte.x03]] /\
  getBlob r2 = Some (mkBlob [Byte.x01; Byte.x02; Byte.x03] BLOB_TYPE).
Proof.
  intros stale r1 r2.
  assert (Hs : start stale = (true, r1)) by reflexivity.
  split; [exact Hs|].
  destruct (recording_holds_its_own_chunks stale r1
              [[Byte.x01]; []; [Byte.x02; Byte.x03]] Hs) as (_ & H1 & H2 & _).
  split; [exact H1 | exact H2].
Defined.

(** ** generateFilename *)

Lemma digit_range (n : Z) : (48 <= digit n <= 57)%N.
Proof.
  unfold digit. pose proof (Z.mod_pos_bound n 10 eq_refl) as H.
  assert (Z.to_N (n mod 10) <= 9)%N by lia. lia.
Qed.

Lemma pad_digits (w : nat) (n : Z) : Forall is_digit (pad w n).
Proof.
  revert n. induction w as [|w IH]; intros n; cbn; [constructor|].
  apply Forall_app. split; [apply IH|].
  constructor; [apply digit_range | constructor].
Qed.

Lemma pad_length (w : nat) (n : Z) : List.length (pad w n) = w.
Proof.
  revert n. induction w as [|w IH]; intros n; cbn; [reflexivity|].
  rewrite length_app, IH. cbn. lia.
Qed.

Lemma replace_units_app (cls : N -> bool) (by_ a b : jsstring) :
  replace_units cls by_ (a ++ b) =
  replace_units cls by_ a ++ replace_units cls by_ b.
Proof. apply flat_map_app. Qed.

Lemma replace_units_none (cls : N -> bool) (by_ s : jsstring) :
  Forall (fun c => cls c = false) s -> replace_units cls by_ s = s.
Proof.
  induction 1 as [|c s Hc _ IH]; [reflexivity|].
  cbn. rewrite Hc. cbn. now f_equal.
Qed.

Lemma replace_units_digits (w : nat) (n : Z) :
  replace_units colon_or_dot (js "-") (pad w n) = pad w n.
Proof.
  apply replace_units_none. eapply Forall_impl; [|apply pad_digits].
  intros c [H1 H2]. unfold colon_or_dot.
  apply orb_false_iff. split; apply N.eqb_neq; lia.
Qed.

Lemma replace_first_skip (c : N) (by_ a b : jsstring) :
  Forall (fun x => x <> c) a ->
  replace_first c by_ (a ++ b) = a ++ replace_first c by_ b.
Proof.
  induction 1 as [|x a Hx _ IH]; [reflexivity|].
  cbn. apply N.eqb_neq in Hx. rewrite Hx. now f_equal.
Qed.

Lemma pad_no_T (w : nat) (n : Z) : Forall (fun x => x <> 84%N) (pad w n).
Proof.
  eapply Forall_impl; [|apply pad_digits]. intros c [H1 H2]. lia.
Qed.

Lemma firstn_exact (n : nat) (a b : jsstring) :
  List.length a = n -> firstn n (a ++ b) = a.
Proof.
  intros <-. rewrite firstn_app, Nat.sub_diag, firstn_all. cbn.
  apply app_nil_r.
Qed.

(** The timestamp is [YYYY-MM-DD_HH-mm-ss]. *)
Lemma timestamp_format (now : DateUTC) :
  timestamp now =
    pad 4 (year now) ++ js "-" ++ pad 2 (month now) ++ js "-" ++
    pad 2 (day now) ++ js "_" ++ pad 2 (hour now) ++ js "-" ++
    pad 2 (minute now) ++ js "-" ++ pad 2 (second now).
Proof.
  unfold timestamp, toISOString.
  rewrite !replace_units_app, !replace_units_digits.
  change (replace_units colon_or_dot (js "-") (js "-")) with (js "-").
  change (replace_units colon_or_dot (js "-") (js "T")) with (js "T").
  change (replace_units colon_or_dot (js "-") (js ":")) with (js "-").
  change (replace_units colon_or_dot (js "-") (js ".")) with (js "-").
  change (replace_units colon_or_dot (js "-") (js "Z")) with (js "Z").
  rewrite (replace_first_skip _ _ (pad 4 (year now))) by apply pad_no_T.
  rewrite (replace_first_skip _ _ (js "-")) by (repeat constructor; discriminate).
  rewrite (replace_first_skip _ _ (pad 2 (month now))) by apply pad_no_T.
  rewrite (replace_first_skip _ _ (js "-")) by (repeat constructor; discriminate).
  rewrite (replace_first_skip _ _ (pad 2 (day now))) by apply pad_no_T.
  change (replace_first 84 (js "_") (js "T" ++ ?x)) with (js "_" ++ x).
  change (js "T" ++ pad 2 (hour now) ++ js "-" ++ pad 2 (minute now) ++
          js "-" ++ pad 2 (second now) ++ js "-" ++
          pad 3 (millisecond now) ++ js "Z")
    with (84%N :: (pad 2 (hour now) ++ js "-" ++ pad 2 (minute now) ++
          js "-" ++ pad 2 (second now) ++ js "-" ++
          pad 3 (millisecond now) ++ js "Z")).
  cbn [replace_first]. change (84 =? 84)%N with true. cbv iota.
  unfold slice0.
  replace (pad 4 (year now) ++ js "-" ++ pad 2 (month now) ++ js "-" ++
           pad 2 (day now) ++ js "_" ++ pad 2 (hour now) ++ js "-" ++
           pad 2 (minute now) ++ js "-" ++ pad 2 (second now) ++ js "-" ++
           pad 3 (millisecond now) ++ js "Z")
    with ((pad 4 (year now) ++ js "-" ++ pad 2 (month now) ++ js "-" ++
           pad 2 (day now) ++ js "_" ++ pad 2 (hour now) ++ js "-" ++
           pad 2 (minute now) ++ js "-" ++ pad 2 (second now)) ++
          (js "-" ++ pad 3 (millisecond now) ++ js "Z"))
    by (now rewrite <- !app_assoc).
  apply firstn_exact.
  rewrite !length_app, !pad_length. reflexivity.
Qed.

(** The sanitised label. *)

Lemma strip_filter (s : jsstring) :
  replace_units reserved [] s = filter (fun c => negb (reserved c)) s.
Proof.
  induction s as [|c s IH]; [reflexivity|].
  unfold replace_units in *. cbn [flat_map filter].
  destruct (reserved c); cbn [negb app]; now rewrite IH.
Qed.

Lemma collapse_In (s : jsstring) (c : N) :
  In c (collapse s) -> is_space c = false /\ (c = 95%N \/ In c s).
Proof.
  induction s as [|x s IH]; [intros []|].
  cbn [collapse]. destruct (is_space x) eqn:Ex.
  - destruct s as [|y s'].
    + intros [<-|[]]. split; [reflexivity | now left].
    + destruct (is_space y).
      * intros H. destruct (IH H) as [H1 [H2|H2]]; split; auto.
        right. now right.
      * intros [<-|H]; [split; [reflexivity | now left]|].
        destruct (IH H) as [H1 [H2|H2]]; split; auto. right. now right.
  - intros [<-|H]; [split; [exact Ex | right; now left]|].
    destruct (IH H) as [H1 [H2|H2]]; split; auto. right. now right.
Qed.

(** A string without white space is left as it is. *)
Lemma collapse_plain (s : jsstring) :
  Forall (fun c => is_space c = false) s -> collapse s = s.
Proof.
  induction 1 as [|c s Hc _ IH]; [reflexivity|].
  cbn. rewrite Hc. now f_equal.
Qed.

Lemma collapse_app_plain (u x : jsstring) :
  Forall (fun c => is_space c = false) u ->
  collapse (u ++ x) = u ++ collapse x.
Proof.
  induction 1 as [|c s Hc _ IH]; [reflexivity|].
  cbn. rewrite Hc. now f_equal.
Qed.

(** A run of white space, however long, becomes one underscore. *)
Lemma collapse_run (ws v : jsstring) :
  ws <> [] -> Forall (fun c => is_space c = true) ws ->
  match v with c :: _ => is_space c = false | [] => True end ->
  collapse (ws ++ v) = 95%N :: collapse v.
Proof.
  intros Hne Hws Hv. induction Hws as [|c ws Hc Hws IH]; [congruence|].
  cbn [app collapse]. rewrite Hc.
  destruct ws as [|c' ws'].
  - cbn [app]. destruct v as [|y v']; [reflexivity|]. now rewrite Hv.
  - inversion Hws as [|? ? Hc' _]. subst. cbn [app]. rewrite Hc'.
    apply IH. discriminate.
Qed.

Lemma In_firstn (n : nat) (l : jsstring) (c : N) :
  In c (firstn n l) -> In c l.
Proof.
  intros H. rewrite <- (firstn_skipn n l). apply in_or_app. now left.
Qed.

Lemma safeName_spec (name : jsstring) :
  (List.length (safeName name) <= 50)%nat /\
  forall c, In c (safeName name) ->
    reserved c = false /\ is_space c = false /\ (c = 95%N \/ In c name).
Proof.
  unfold safeName, slice0, MAX_NAME. split; [apply firstn_le_length|].
  intros c Hc. apply In_firstn in Hc. apply collapse_In in Hc as [Hs Hc].
  rewrite strip_filter in Hc. destruct Hc as [->|Hc].
  - split; [reflexivity | split; [exact Hs | now left]].
  - apply filter_In in Hc as [Hin Hr]. apply negb_true_iff in Hr.
    split; [exact Hr | split; [exact Hs | now right]].
Qed.

(** The order of timestamps. *)

Lemma lex_lt_app (a b r1 r2 : jsstring) :
  List.length a = List.length b -> lex_lt a b -> lex_lt (a ++ r1) (b ++ r2).
Proof.
  revert b. induction a as [|x a IH]; intros [|y b] Hl H; cbn in *;
    try discriminate; try contradiction.
  destruct H as [H|[-> H]]; [now left|]. right. split; [reflexivity|].
  apply IH; [now inversion Hl | exact H].
Qed.

Lemma lex_lt_same (a r1 r2 : jsstring) :
  lex_lt r1 r2 -> lex_lt (a ++ r1) (a ++ r2).
Proof.
  induction a as [|x a IH]; intros H; cbn; [exact H|].
  right. split; [reflexivity | now apply IH].
Qed.

Lemma digit_lt (x y : Z) :
  x mod 10 < y mod 10 -> (digit x < digit y)%N.
Proof.
  unfold digit. intros H.
  pose proof (Z.mod_pos_bound x 10 eq_refl).
  pose proof (Z.mod_pos_bound y 10 eq_refl). lia.
Qed.

Lemma pad_lt (w : nat) (x y : Z) :
  0 <= x < y -> y < 10 ^ Z.of_nat w -> lex_lt (pad w x) (pad w y).
Proof.
  revert x y. induction w as [|w IH]; intros x y Hxy Hy.
  - cbn in Hy. lia.
  - cbn [pad].
    assert (Hp : 10 ^ Z.of_nat (S w) = 10 * 10 ^ Z.of_nat w)
      by (rewrite Nat2Z.inj_succ, Z.pow_succ_r; lia).
    rewrite Hp in Hy.
    pose proof (Z.div_mod x 10 ltac:(lia)) as Ex.
    pose proof (Z.div_mod y 10 ltac:(lia)) as Ey.
    pose proof (Z.mod_pos_bound x 10 eq_refl).
    pose proof (Z.mod_pos_bound y 10 eq_refl).
    destruct (Z.eq_dec (x / 10) (y / 10)) as [E|E].
    + rewrite E. apply lex_lt_same. cbn. left. apply digit_lt. lia.
    + apply lex_lt_app; [now rewrite !pad_length|].
      apply IH; lia.
Qed.

Lemma field_lt (w : nat) (x y : Z) (r1 r2 : jsstring) :
  0 <= x -> 0 <= y -> x < 10 ^ Z.of_nat w -> y < 10 ^ Z.of_nat w ->
  x < y \/ (x = y /\ lex_lt r1 r2) ->
  lex_lt (pad w x ++ r1) (pad w y ++ r2).
Proof.
  intros Hx Hy Hxw Hyw [H|[-> H]].
  - apply lex_lt_app; [now rewrite !pad_length | apply pad_lt; lia].
  - now apply lex_lt_same.
Qed.

Lemma timestamp_sortable (a b : DateUTC) :
  valid_date a -> valid_date b -> seconds_key a < seconds_key b ->
  lex_lt (timestamp a) (timestamp b).
Proof.
  unfold valid_date, seconds_key.
  intros (Ya & Ma & Da & Ha & Ia & Sa & _) (Yb & Mb & Db & Hb & Ib & Sb & _) Hk.
  rewrite !timestamp_format.
  change (js "-") with [45%N]. change (js "_") with [95%N].
  assert (P4 : 10 ^ Z.of_nat 4 = 10000) by reflexivity.
  assert (P2 : 10 ^ Z.of_nat 2 = 100) by reflexivity.
  apply field_lt; try lia.
  destruct (Z.eq_dec (year a) (year b)) as [Ey|Ey]; [right|left; lia].
  split; [exact Ey|]. apply (lex_lt_same [45%N]).
  apply field_lt; try lia.
  destruct (Z.eq_dec (month a) (month b)) as [Em|Em]; [right|left; lia].
  split; [exact Em|]. apply (lex_lt_same [45%N]).
  apply field_lt; try lia.
  destruct (Z.eq_dec (day a) (day b)) as [Ed|Ed]; [right|left; lia].
  split; [exact Ed|]. apply (lex_lt_same [95%N]).
  apply field_lt; try lia.
  destruct (Z.eq_dec (hour a) (hour b)) as [Eh|Eh]; [right|left; lia].
  split; [exact Eh|]. apply (lex_lt_same [45%N]).
  apply field_lt; try lia.
  destruct (Z.eq_dec (minute a) (minute b)) as [Ei|Ei]; [right|left; lia].
  split; [exact Ei|]. apply (lex_lt_same [45%N]).
  rewrite <- (app_nil_r (pad 2 (second a))), <- (app_nil_r (pad 2 (second b))).
  apply lex_lt_app; [now rewrite !pad_length|].
  apply pad_lt; lia.
Qed.
(** C9, counterexample: a control character in the channel name (here
    U+0001 between [a] and [b]) stays in the filename. *)
Lemma generateFilename_keeps_control_character :
  ~ filename_as_stated [97; 1; 98]%N sample_date.
Proof.
  intros (label & Heq & _ & Hc).
  unfold generateFilename in Heq.
  change (safeName [97; 1; 98]%N) with [97; 1; 98]%N in Heq.
  apply app_inv_tail in Heq. subst label.
  destruct (Hc 1%N) as (H & _); [right; now left | discriminate H].
Qed.

(** C9, as amended: the filename is the sanitised channel name
    ([recording] when none is given), an underscore, the timestamp and
    [.webm].  The name is sanitised by removing the characters
    < > : double quote / \ | ? * (control characters are not removed), then
    replacing every run of white space by one underscore, then keeping the
    first 50 code units; so it has at most 50 units, none of them one of
    the removed characters or white space.  The timestamp is
    [YYYY-MM-DD_HH-mm-ss] in UTC, and a later second gives a greater
    timestamp in the order of strings. *)
Theorem generateFilename_spec (name : option jsstring) (now : DateUTC) :
  valid_date now ->
  let given := match name with Some n => n | None => js "recording" end in
  let label := safeName given in
  generateFilename name now =
    label ++ js "_" ++ timestamp now ++ js ".webm" /\
  label =
    slice0 50 (collapse (filter (fun c => negb (reserved c)) given)) /\
  (List.length label <= 50)%nat /\
  (forall c, In c label ->
     reserved c = false /\ is_space c = false /\ (c = 95%N \/ In c given)) /\
  (forall u ws v,
     Forall (fun c => is_space c = false) u ->
     ws <> [] -> Forall (fun c => is_space c = true) ws ->
     match v with c :: _ => is_space c = false | [] => True end ->
     collapse (u ++ ws ++ v) = u ++ js "_" ++ collapse v) /\
  timestamp now =
    pad 4 (year now) ++ js "-" ++ pad 2 (month now) ++ js "-" ++
    pad 2 (day now) ++ js "_" ++ pad 2 (hour now) ++ js "-" ++
    pad 2 (minute now) ++ js "-" ++ pad 2 (second now) /\
  forall later, valid_date later ->
    seconds_key now < seconds_key later ->
    lex_lt (timestamp now) (timestamp later).
Proof.
  intros Hv given label.
  split; [destruct name; reflexivity|].
  split; [unfold label, safeName; now rewrite strip_filter|].
  split; [apply safeName_spec|].
  split; [apply safeName_spec|].
  split.
  - intros u ws v Hu Hne Hws Hv'.
    rewrite collapse_app_plain by exact Hu.
    now rewrite collapse_run.
  - split; [apply timestamp_format|].
    intros later Hl Hk. now apply timestamp_sortable.
Qed.

Lemma generateFilename_spec_witness :
  valid_date sample_date /\
  generateFilename (Some (js "  BBC  One/HD  ")) sample_date =
    js "_BBC_OneHD__2024-03-09_18-05-42.webm" /\
  lex_lt (timestamp sample_date)
         (timestamp (mkDate 2024 3 10 0 0 0 0)).
Proof.
  assert (Hv : valid_date sample_date) by (unfold valid_date; cbn; lia).
  assert (Hl : valid_date (mkDate 2024 3 10 0 0 0 0))
    by (unfold valid_date; cbn; lia).
  destruct (generateFilename_spec (Some (js "  BBC  One/HD  ")) sample_date Hv)
    as (H1 & _ & _ & _ & _ & _ & H2).
  split; [exact Hv|]. split.
  - rewrite H1. reflexivity.
  - apply H2; [exact Hl | reflexivity].
Defined.

End RecorderProofs.

(* ================================================================== *)
(** * Further properties of PlayerManager and its adapters *)
(* ================================================================== *)

Module PlayerMoreProofs.
Import Player PlayerProofs PlayerMore.

(** The actions consed on the log of the earlier world. *)
Ltac prefix_to l base :=
  lazymatch l with
  | base => constr:(@nil Action)
  | ?a :: ?l' => let r := prefix_to l' base in constr:(a :: r)
  end.

Ltac since_from :=
  lazymatch goal with
  | |- since ?w ?w' = _ =>
      let l := eval cbn in (log w') in
      let b := eval cbn in (log w) in
      let nw := prefix_to l b in
      apply since_log with (new := nw); [reflexivity | reflexivity]
  end.

(** ** stop and destroy *)

(** X1: [stop()] releases the media, not the listeners: in every state
    the manager can reach, after it there is no current adapter, url or
    load timeout, the timer that was pending is gone, and no engine and
    no source is attached to the video element; the listeners the
    adapters registered on the element are all still there.  A second
    [stop()] destroys nothing: it only repeats the clean-up of the
    element. *)
Theorem stop_releases (e : Env) (cbE cbS cbL : bool) (evs : list Event) :
  let w := run evs (init e cbE cbS cbL) in
  let w' := step CallStop w in
  currentAdapter w' = None /\ currentUrl w' = None /\
  loadTimeoutId w' = None /\
  hls_hls w' = None /\ dash_player w' = None /\ video_src w' = None /\
  listeners w' = listeners w /\
  (forall t, loadTimeoutId w = Some t -> find_timer t w' = None) /\
  since w' (step CallStop w') = [VideoPause; VideoRemoveSrc; VideoLoad].
Proof.
  intros w w'.
  assert (Hok : timers_ok w) by apply run_timers_ok, init_timers_ok.
  assert (Ha : attached_ok w = true) by apply run_attached, init_attached.
  destruct Hok as (_ & _ & Hm).
  assert (Hw : w' = stop w).
  { subst w'. unfold step, handle. apply run_microtasks_nil.
    rewrite stop_eq. exact Hm. }
  rewrite Hw. clear Hw w'.
  destruct (stop_clean w Ha) as (Hh & Hd & _).
  split; [now rewrite stop_eq|]. split; [now rewrite stop_eq|].
  split; [now rewrite stop_eq|]. split; [exact Hh|]. split; [exact Hd|].
  split; [now rewrite stop_eq|]. split; [now rewrite stop_eq|].
  split; [intros t; apply stop_cancels|].
  unfold step, handle. rewrite run_microtasks_nil
    by (rewrite !stop_eq; exact Hm).
  rewrite (stop_eq (stop w)).
  apply since_log with (new := [VideoLoad; VideoRemoveSrc; VideoPause]);
    [|reflexivity].
  cbn [log]. unfold stop_trace, cancel_actions.
  rewrite (stop_eq w). reflexivity.
Qed.

(** X2: [PlayerManager.destroy()] destroys all three adapters, not only
    the current one: whatever the state was, reachable or not, afterwards
    no adapter holds an engine, no source is set on the element and there
    is no current adapter and no load timeout.  Like [stop()] it removes
    no listener from the element. *)
Theorem destroy_releases_all (w : World) :
  let w' := destroy w in
  hls_hls w' = None /\ dash_player w' = None /\ has_source w' = false /\
  listeners w' = listeners w /\
  currentAdapter w' = None /\ loadTimeoutId w' = None /\
  forall a, In (AdapterDestroy a) (since w w').
Proof.
  cbv zeta. unfold destroy. rewrite stop_eq.
  set (tr := rev (stop_trace w) ++ log w).
  assert (Htr : tr = rev (stop_trace w) ++ log w) by reflexivity.
  clearbody tr.
  open_world w.
  destruct cA as [[| |]|], hH as [h|], dP as [p|]; wcbv;
    (repeat (split; [reflexivity|]));
    intros a;
    match goal with
    | |- In _ (since ?w0 ?w1) =>
        let l := eval cbn in (log w1) in
        let nw := prefix_of l in
        apply In_since with (new := nw ++ rev (stop_trace w0));
        [cbn [log]; rewrite Htr; cbn [app log]; now rewrite <- ?app_assoc
        | apply in_or_app; left; destruct a; simpl; tauto]
    end.
Qed.

(** ** A load that succeeds *)

(** X3: HLS: the first MANIFEST_PARSED of the live hls.js instance starts
    playback, and [load] then clears the pending load timeout and returns
    true.  The timer is gone, and a second MANIFEST_PARSED of the same
    instance is ignored. *)
Theorem hls_manifest_parsed_resolves (w : World) (h : HlsEngine) (t : TimerId) :
  hls_hls w = Some h -> h_resolved h = false ->
  is_settled (h_owner h) w = false -> microtasks w = [] ->
  loadTimeoutId w = Some t ->
  let w' := step (HlsManifestParsed (h_id h)) w in
  since w w' = [VideoPlay; ClearTimeout t; LoadReturns (h_owner h) true] /\
  loadTimeoutId w' = None /\ find_timer t w' = None /\
  hls_hls w' = Some (set_resolved h) /\
  is_settled (h_owner h) w' = true /\
  step (HlsManifestParsed (h_id h)) w' = w'.
Proof.
  intros Hh Hr Hs Hm Ht. cbv zeta.
  unfold step, handle, live_hls. rewrite Hh, Nat.eqb_refl.
  unfold hls_on_manifest_parsed. rewrite Hr. rewrite settle_eq.
  open_world w. subst hH mt lT. destruct h as [e k url res].
  cbn in Hr. subst res. unfold is_settled in Hs. cbn [settled h_owner] in Hs.
  wcbv. rewrite Hs. lists. wcbv.
  split; [since_now|]. split; [reflexivity|].
  split; [apply find_timer_filter|]. split; [reflexivity|].
  split; [lists; now rewrite Nat.eqb_refl|].
  rewrite Nat.eqb_refl. reflexivity.
Qed.

Lemma hls_manifest_parsed_resolves_witness :
  let w' := step (HlsManifestParsed 0) hls_loading in
  (hls_hls hls_loading = Some hls_engine0 /\
   is_settled 0 hls_loading = false /\ loadTimeoutId hls_loading = Some 0) /\
  since hls_loading w' = [VideoPlay; ClearTimeout 0; LoadReturns 0 true] /\
  loadTimeoutId w' = None.
Proof.
  assert (Hh : hls_hls hls_loading = Some hls_engine0)
    by (vm_compute; reflexivity).
  assert (Hs : is_settled (h_owner hls_engine0) hls_loading = false)
    by (vm_compute; reflexivity).
  assert (Hm : microtasks hls_loading = []) by (vm_compute; reflexivity).
  assert (Ht : loadTimeoutId hls_loading = Some 0)
    by (vm_compute; reflexivity).
  destruct (hls_manifest_parsed_resolves hls_loading hls_engine0 0
              Hh eq_refl Hs Hm Ht) as (H1 & H2 & _).
  split; [repeat split; assumption|]. split; [exact H1 | exact H2].
Defined.

(** X4: DASH: STREAM_INITIALIZED of the live player announces the levels (if
    the application listens) before [load] clears the pending timeout and
    returns true.  The handler has no guard: a later STREAM_INITIALIZED of
    the same player announces the levels again, and nothing else. *)
Theorem dash_stream_initialized_resolves (w : World) (p : DashEngine)
    (t : TimerId) :
  dash_player w = Some p -> dash_wired w = true ->
  is_settled (d_owner p) w = false -> microtasks w = [] ->
  loadTimeoutId w = Some t ->
  let w' := step (DashStreamInitialized (d_id p)) w in
  let announce := if onLevelsAvailable w then [CallOnLevelsAvailable]
                  else [] in
  since w w' = announce ++ [ClearTimeout t; LoadReturns (d_owner p) true] /\
  loadTimeoutId w' = None /\ find_timer t w' = None /\
  dash_player w' = Some p /\
  since w' (step (DashStreamInitialized (d_id p)) w') = announce.
Proof.
  intros Hp Hw Hs Hm Ht. cbv zeta.
  unfold step, handle, live_dash. rewrite Hp, Nat.eqb_refl.
  unfold dash_on_stream_initialized. rewrite Hw. rewrite settle_eq.
  open_world w. subst dP mt lT dW. destruct p as [e k].
  unfold is_settled in Hs. cbn [settled d_owner] in Hs.
  destruct oL; wcbv; rewrite Hs; lists; wcbv;
    (split; [since_now|]); (split; [reflexivity|]);
    (split; [apply find_timer_filter|]); (split; [reflexivity|]);
    rewrite Nat.eqb_refl; wcbv; lists; rewrite Nat.eqb_refl; lists;
    since_from.
Qed.

Lemma dash_stream_initialized_resolves_witness :
  let w' := step (DashStreamInitialized 0) dash_loading in
  (dash_player dash_loading = Some (mkDashEngine 0 0) /\
   dash_wired dash_loading = true /\ is_settled 0 dash_loading = false /\
   loadTimeoutId dash_loading = Some 0) /\
  since dash_loading w' =
    [CallOnLevelsAvailable; ClearTimeout 0; LoadReturns 0 true] /\
  since w' (step (DashStreamInitialized 0) w') = [CallOnLevelsAvailable].
Proof.
  assert (Hp : dash_player dash_loading = Some (mkDashEngine 0 0))
    by (vm_compute; reflexivity).
  assert (Hw : dash_wired dash_loading = true) by (vm_compute; reflexivity).
  assert (Hs : is_settled (d_owner (mkDashEngine 0 0)) dash_loading = false)
    by (vm_compute; reflexivity).
  assert (Hm : microtasks dash_loading = []) by (vm_compute; reflexivity).
  assert (Ht : loadTimeoutId dash_loading = Some 0)
    by (vm_compute; reflexivity).
  destruct (dash_stream_initialized_resolves dash_loading (mkDashEngine 0 0) 0
              Hp Hw Hs Hm Ht) as (H1 & _ & _ & _ & H2).
  split; [repeat split; assumption|]. split; [exact H1 | exact H2].
Defined.

(** ** A load that fails at once *)

(** X5: When the adapter rejects before [load] reaches its [await] (HLS with
    neither native support nor hls.js; DASH without dash.js, or with
    dash.js throwing), the error is reported once from the catch block and
    [load] returns false.  The catch block does not clear the timeout it
    has just armed: the timer stays pending, and when it fires later
    nothing is reported and nothing changes but the timer being spent. *)
Theorem load_rejected_at_once (w : World) (url : jsstring) (err : ErrorValue) :
  microtasks w = [] -> is_settled (next_load w) w = false ->
  rejects_at_once (detectStreamType url) (env w) = Some err ->
  let k := next_load w in
  let t := next_timer w in
  let tm := mkTimer t k (now w + LOAD_TIMEOUT_MS) in
  let w1 := step (CallLoad url) w in
  (exists pre,
     since w w1 =
       pre ++ [SetTimeout t LOAD_TIMEOUT_MS] ++ notify (FromLoad k) err w ++
       [LoadReturns k false]) /\
  loadTimeoutId w1 = Some t /\ find_timer t w1 = Some tm /\
  is_settled k w1 = true /\
  forall w2 : World,
    find_timer t w2 = Some tm -> is_settled k w2 = true ->
    microtasks w2 = [] -> (t_deadline tm <= now w2)%Z ->
    let w3 := step (TimerFires t) w2 in
    since w2 w3 = [] /\ find_timer t w3 = None.
Proof.
  intros Hm Hs Hr k t tm w1. subst w1 tm t k. unfold step, handle.
  rewrite load_eq. cbv zeta. rewrite Hr, Hs, Hm. cbn [app].
  set (ty := detectStreamType url) in *.
  set (old := engine_teardown ty (stop w)) in *.
  set (tr := stop_trace w) in *.
  set (tc := timers_after_cancel w) in *.
  set (hh := hls_hls (stop w)) in *.
  set (dp := dash_player (stop w)) in *.
  clearbody old tr tc hh dp. unfold notify.
  unfold is_settled in Hs.
  split; [|split; [|split; [|split]]].
  - open_world w.
    exists (tr ++ Select ty :: adapter_load_trace ty url old nE en).
    destruct oE; wcbv; lists.
    + apply since_log with
        (new := [LoadReturns nL false; CallOnError (FromLoad nL) err;
                 SetTimeout nT LOAD_TIMEOUT_MS] ++
                rev (adapter_load_trace ty url old nE en) ++
                Select ty :: rev tr).
      * cbn [app log]. rewrite <- ?app_assoc. cbn [app].
        rewrite <- ?app_assoc. reflexivity.
      * cbn [app rev]. rewrite ?rev_app_distr. cbn [rev app].
        rewrite ?rev_app_distr, ?rev_involutive. cbn [rev app].
        rewrite <- ?app_assoc. cbn [app].
        rewrite <- ?app_assoc. reflexivity.
    + apply since_log with
        (new := [LoadReturns nL false; SetTimeout nT LOAD_TIMEOUT_MS] ++
                rev (adapter_load_trace ty url old nE en) ++
                Select ty :: rev tr).
      * cbn [app log]. rewrite <- ?app_assoc. cbn [app].
        rewrite <- ?app_assoc. reflexivity.
      * cbn [app rev]. rewrite ?rev_app_distr. cbn [rev app].
        rewrite ?rev_app_distr, ?rev_involutive. cbn [rev app].
        rewrite <- ?app_assoc. cbn [app].
        rewrite <- ?app_assoc. reflexivity.
  - open_world w. destruct oE; reflexivity.
  - open_world w. destruct oE; wcbv; lists; now rewrite Nat.eqb_refl.
  - open_world w. destruct oE; wcbv; lists; now rewrite Nat.eqb_refl.
  - intros w2 Hf Hs2 Hm2 Hd. cbv zeta. cbn [t_deadline] in Hd.
    revert Hf Hs2 Hd.
    generalize (next_load w) (next_timer w) (now w + LOAD_TIMEOUT_MS)%Z.
    intros k t d Hf Hs2 Hd.
    unfold timer_fires. rewrite Hf. cbn [t_deadline t_owner] in *.
    apply Z.leb_le in Hd. rewrite Hd. rewrite settle_eq.
    open_world w2. subst mt. unfold is_settled in Hs2. cbn [settled] in Hs2.
    wcbv. rewrite Hs2. lists. wcbv.
    split; [since_now | apply find_timer_filter].
Qed.
Lemma load_rejected_at_once_witness :
  let w := init no_hls true true true in
  let url := js "http://x/stream" in
  let w1 := step (CallLoad url) w in
  let w2 := step (Elapse 30000) w1 in
  (is_settled 0 w = false /\
   rejects_at_once (detectStreamType url) no_hls =
     Some (JsError MsgHlsNotSupported)) /\
  loadTimeoutId w1 = Some 0 /\
  find_timer 0 w1 = Some (mkTimer 0 0 30000) /\
  since w2 (step (TimerFires 0) w2) = [].
Proof.
  intros w url w1 w2.
  assert (Hm : microtasks w = []) by reflexivity.
  assert (Hs : is_settled (next_load w) w = false) by reflexivity.
  assert (Hr : rejects_at_once (detectStreamType url) (env w) =
               Some (JsError MsgHlsNotSupported)) by (vm_compute; reflexivity).
  destruct (load_rejected_at_once w url (JsError MsgHlsNotSupported) Hm Hs Hr)
    as (_ & H1 & H2 & H3 & H4).
  assert (Hf : find_timer (next_timer w) w2 =
               Some (mkTimer (next_timer w) (next_load w)
                             (now w + LOAD_TIMEOUT_MS)))
    by (vm_compute; reflexivity).
  assert (Hs2 : is_settled (next_load w) w2 = true)
    by (vm_compute; reflexivity).
  assert (Hm2 : microtasks w2 = []) by (vm_compute; reflexivity).
  assert (Hd : (t_deadline (mkTimer (next_timer w) (next_load w)
                              (now w + LOAD_TIMEOUT_MS)) <= now w2)%Z)
    by (vm_compute; discriminate).
  destruct (H4 w2 Hf Hs2 Hm2 Hd) as (H5 & _).
  split; [split; [exact Hs | exact Hr]|].
  split; [exact H1|]. split; [exact H2 | exact H5].
Defined.


(** ** The native adapter's listeners *)

(** X6: Native: an error of the element during a load is reported twice when
    the application listens, once by the adapter with the element's event
    and once by [load] with the adapter's own error, and [load] returns
    false.  The load timeout is not cancelled and stays pending, and the
    success listener stays on the element. *)
Theorem native_error_reported_twice (w : World) (k : LoadId) :
  listeners w = [NativeLoaded k; NativeError k] ->
  is_settled k w = false -> microtasks w = [] ->
  let w' := step VideoError w in
  since w w' =
    (if native_wired w then notify FromAdapter VideoErrorEvent w else []) ++
    notify (FromLoad k) (JsError MsgFailedToLoadVideo) w ++
    [LoadReturns k false] /\
  listeners w' = [NativeLoaded k] /\
  loadTimeoutId w' = loadTimeoutId w /\ timers w' = timers w /\
  is_settled k w' = true.
Proof.
  intros Hl Hs Hm. cbv zeta.
  open_world w. subst ls mt. unfold is_settled in Hs. cbn [settled] in Hs.
  unfold notify. cbn [onError].
  unfold step, handle, dispatch. cbn [listeners].
  cbn [filter on_loadedmetadata Bool.eqb fold_left].
  unfold run_handler. cbn [set_listeners listeners].
  cbn [filter Handler_eqb negb]. rewrite Nat.eqb_refl. cbn [negb].
  destruct nW, oE; wcbv; rewrite Hs; lists; wcbv; lists;
    (split; [since_now|]); (split; [reflexivity|]);
    (split; [reflexivity|]); (split; [reflexivity|]);
    now rewrite Nat.eqb_refl.
Qed.

Lemma native_error_reported_twice_witness :
  let w' := step VideoError native_loading in
  since native_loading w' =
    [CallOnError FromAdapter VideoErrorEvent;
     CallOnError (FromLoad 0) (JsError MsgFailedToLoadVideo);
     LoadReturns 0 false] /\
  loadTimeoutId w' = Some 0 /\ listeners w' = [NativeLoaded 0].
Proof.
  assert (Hl : listeners native_loading = [NativeLoaded 0; NativeError 0])
    by (vm_compute; reflexivity).
  assert (Hs : is_settled 0 native_loading = false)
    by (vm_compute; reflexivity).
  assert (Hm : microtasks native_loading = []) by (vm_compute; reflexivity).
  destruct (native_error_reported_twice native_loading 0 Hl Hs Hm)
    as (H1 & H2 & H3 & _).
  split; [exact H1|]. split; [rewrite H3; vm_compute; reflexivity | exact H2].
Defined.

(** X7: Native: [loadedmetadata] removes both listeners of the load and lets
    its [load] call return true after clearing the timeout [loadTimeoutId]
    names at that moment, whichever load armed it: the listeners of an
    abandoned load clear the timeout of the load that replaced it. *)
Theorem native_loaded_clears_current_timeout (w : World) (k : LoadId)
    (t : TimerId) :
  listeners w = [NativeLoaded k; NativeError k] ->
  is_settled k w = false -> microtasks w = [] ->
  loadTimeoutId w = Some t ->
  let w' := step VideoLoadedMetadata w in
  since w w' = [ClearTimeout t; LoadReturns k true] /\
  listeners w' = [] /\ loadTimeoutId w' = None /\
  find_timer t w' = None /\ is_settled k w' = true.
Proof.
  intros Hl Hs Hm Ht. cbv zeta.
  open_world w. subst ls mt lT. unfold is_settled in Hs. cbn [settled] in Hs.
  unfold step, handle, dispatch. cbn [listeners].
  cbn [filter on_loadedmetadata Bool.eqb fold_left].
  unfold run_handler. cbn [set_listeners listeners].
  cbn [filter Handler_eqb negb]. rewrite !Nat.eqb_refl. cbn [negb].
  cbn [set_listeners listeners filter Handler_eqb negb].
  rewrite ?Nat.eqb_refl. cbn [negb].
  wcbv. rewrite Hs. lists. wcbv. lists.
  split; [since_now|]. split; [reflexivity|]. split; [reflexivity|].
  split; [apply find_timer_filter | now rewrite Nat.eqb_refl].
Qed.

Lemma native_loaded_clears_current_timeout_witness :
  let w' := step VideoLoadedMetadata native_then_hls in
  (find_timer 1 native_then_hls = Some (mkTimer 1 1 30000) /\
   hls_hls native_then_hls =
     Some (mkHlsEngine 0 1 (js "http://x/live.m3u8") false)) /\
  since native_then_hls w' = [ClearTimeout 1; LoadReturns 0 true] /\
  find_timer 1 w' = None.
Proof.
  assert (Hl : listeners native_then_hls = [NativeLoaded 0; NativeError 0])
    by (vm_compute; reflexivity).
  assert (Hs : is_settled 0 native_then_hls = false)
    by (vm_compute; reflexivity).
  assert (Hm : microtasks native_then_hls = []) by (vm_compute; reflexivity).
  assert (Ht : loadTimeoutId native_then_hls = Some 1)
    by (vm_compute; reflexivity).
  destruct (native_loaded_clears_current_timeout native_then_hls 0 1
              Hl Hs Hm Ht) as (H1 & _ & _ & H2 & _).
  split; [split; vm_compute; reflexivity|]. split; [exact H1 | exact H2].
Defined.


(** ** One load timeout at a time *)

Lemma filter_all_true (l : list Timer) : filter (fun _ => true) l = l.
Proof. induction l as [|x l IH]; [reflexivity|]. cbn. now rewrite IH. Qed.

Lemma filter_twice (f g : Timer -> bool) (l : list Timer) :
  filter g (filter f l) = filter (fun x => f x && g x) l.
Proof.
  induction l as [|x l IH]; [reflexivity|]. cbn [filter].
  destruct (f x); cbn [filter andb]; [destruct (g x)|]; now rewrite IH.
Qed.

Lemma keeps_refl (w : World) : keeps w w.
Proof.
  split; [reflexivity|]. split; [|now left].
  exists (fun _ => true). symmetry. apply filter_all_true.
Qed.

Lemma keeps_trans (w1 w2 w3 : World) :
  keeps w1 w2 -> keeps w2 w3 -> keeps w1 w3.
Proof.
  intros (N1 & (f & F1) & L1) (N2 & (g & F2) & L2).
  split; [congruence|]. split.
  - exists (fun x => f x && g x). now rewrite F2, F1, filter_twice.
  - assert (Hin : forall tm, In tm (timers w3) -> In tm (timers w2)).
    { intros tm. rewrite F2. intros H. now apply filter_In in H. }
    destruct L1 as [L1|[L1 C1]], L2 as [L2|[L2 C2]].
    + left. congruence.
    + right. split; [exact L2|]. rewrite <- L1. exact C2.
    + right. split; [congruence|]. intros t Ht tm Htm.
      apply (C1 t Ht tm). now apply Hin.
    + right. split; [exact L2|]. intros t Ht tm Htm.
      apply (C1 t Ht tm). now apply Hin.
Qed.

Lemma keeps_one_timer (w w' : World) :
  one_timer w -> keeps w w' -> one_timer w'.
Proof.
  intros [A B] (N & (f & F) & L). split.
  - destruct A as [A|(tm & A & Hl)].
    + left. now rewrite F, A.
    + rewrite F, A. cbn [filter]. destruct (f tm) eqn:Ef; [|now left].
      right. exists tm. split; [reflexivity|].
      destruct L as [L|[L C]]; [congruence|].
      exfalso. apply (C (t_id tm) Hl tm); [|reflexivity].
      rewrite F, A. cbn [filter]. rewrite Ef. now left.
  - intros t Ht. rewrite N. apply B.
    destruct L as [L|[L _]]; congruence.
Qed.

(** Two explicit worlds: timers kept or filtered, [loadTimeoutId] kept or
    reset with its timer filtered out. *)
Ltac keeps_now :=
  unfold keeps; wcbv;
  split; [reflexivity|];
  split;
  [ first [ exists (fun _ => true); symmetry; apply filter_all_true
          | eexists; reflexivity ]
  | first [ left; reflexivity
          | right; split; [reflexivity|];
            let H := fresh in
            intros ? [= <-] ? H; apply filter_In in H as [_ H];
            apply negb_true_iff, Nat.eqb_neq in H; exact H ] ].

Lemma emit_keeps (a : Action) (w : World) : keeps w (emit a w).
Proof. open_world w. keeps_now. Qed.

Lemma settle_keeps (k : LoadId) (o : Outcome) (w : World) :
  keeps w (settle k o w).
Proof. rewrite settle_eq. open_world w. keeps_now. Qed.

Lemma forward_error_keeps (error : ErrorValue) (w : World) :
  keeps w (forward_error error w).
Proof.
  open_world w. unfold forward_error.
  destruct (is_fatal error), lT, oE; keeps_now.
Qed.

Lemma adapter_onError_keeps (a : StreamType) (error : ErrorValue) (w : World) :
  keeps w (adapter_onError a error w).
Proof.
  unfold adapter_onError. destruct (wired a w).
  - apply forward_error_keeps.
  - apply keeps_refl.
Qed.

Lemma hls_on_error_keeps (h : HlsEngine) (data : HlsErrorData) (w : World) :
  keeps w (hls_on_error h data w).
Proof.
  unfold hls_on_error. destruct (e_fatal data); [|apply keeps_refl].
  cbv zeta.
  apply keeps_trans with (w2 := adapter_onError hls (HlsData data) w);
    [apply adapter_onError_keeps|].
  generalize (adapter_onError hls (HlsData data) w). intros w1.
  destruct (e_type data); try apply emit_keeps.
  destruct (h_resolved h); [apply keeps_refl|].
  eapply keeps_trans; [|apply settle_keeps].
  open_world w1. destruct hH; keeps_now.
Qed.

Lemma run_handler_keeps (h : Handler) (w : World) :
  keeps w (run_handler h w).
Proof.
  unfold run_handler.
  set (w1 := set_listeners _ w).
  assert (H1 : keeps w w1) by (subst w1; open_world w; keeps_now).
  clearbody w1. eapply keeps_trans; [exact H1|].
  destruct h as [k|k|k|k]; try apply settle_keeps.
  - eapply keeps_trans; [|apply settle_keeps].
    open_world w1. keeps_now.
  - eapply keeps_trans; [|apply settle_keeps].
    apply adapter_onError_keeps.
Qed.

Lemma dispatch_keeps (loaded : bool) (w : World) :
  keeps w (dispatch loaded w).
Proof.
  unfold dispatch.
  generalize (filter (fun h => Bool.eqb (on_loadedmetadata h) loaded)
                     (listeners w)).
  intros l. revert w. induction l as [|h l IH]; intros w; cbn.
  - apply keeps_refl.
  - eapply keeps_trans; [apply run_handler_keeps | apply IH].
Qed.

Lemma timer_fires_keeps (t : TimerId) (w : World) :
  keeps w (timer_fires t w).
Proof.
  unfold timer_fires. destruct (find_timer t w) as [tm|];
    [|apply keeps_refl].
  destruct (t_deadline tm <=? now w)%Z; [|apply keeps_refl].
  rewrite settle_eq. open_world w. keeps_now.
Qed.

Lemma stop_keeps (w : World) : keeps w (stop w).
Proof.
  rewrite stop_eq. unfold keeps.
  cbn [next_timer timers loadTimeoutId].
  split; [reflexivity|]. unfold timers_after_cancel.
  destruct (loadTimeoutId w) as [t|].
  - split; [eexists; reflexivity|]. right. split; [reflexivity|].
    intros t0 [= <-] tm H. apply filter_In in H as [_ H].
    now apply negb_true_iff, Nat.eqb_neq in H.
  - split; [|now left]. exists (fun _ => true). symmetry.
    apply filter_all_true.
Qed.

Lemma load_continue_keeps (k : LoadId) (o : Outcome) (w : World) :
  keeps w (load_continue k o w).
Proof. open_world w. destruct o, lT, oE; keeps_now. Qed.

Lemma run_microtasks_keeps (w : World) : keeps w (run_microtasks w).
Proof.
  unfold run_microtasks.
  apply keeps_trans with (w2 := set_microtasks [] w);
    [open_world w; keeps_now|].
  generalize (set_microtasks [] w). generalize (microtasks w).
  intros l. induction l as [|[k o] l IH]; intros w0; cbn [fold_left].
  - apply keeps_refl.
  - eapply keeps_trans; [apply load_continue_keeps | apply IH].
Qed.

Lemma handle_keeps (ev : Event) (w : World) :
  (forall url, ev <> CallLoad url) -> keeps w (handle ev w).
Proof.
  intros Hev.
  destruct ev as [url| |ms|t|e data|e|e|e fatal|e|e| |]; cbn [handle].
  - now elim (Hev url).
  - apply stop_keeps.
  - open_world w. keeps_now.
  - apply timer_fires_keeps.
  - destruct (live_hls e w); [apply hls_on_error_keeps | apply keeps_refl].
  - destruct (live_hls e w); [apply emit_keeps | apply keeps_refl].
  - destruct (live_hls e w) as [h|]; [|apply keeps_refl].
    unfold hls_on_manifest_parsed.
    destruct (h_resolved h); [apply keeps_refl|].
    eapply keeps_trans; [|apply settle_keeps].
    open_world w. keeps_now.
  - destruct (live_dash e w); [apply adapter_onError_keeps | apply keeps_refl].
  - destruct (live_dash e w) as [p|]; [|apply keeps_refl].
    unfold dash_on_stream_initialized.
    eapply keeps_trans; [|apply settle_keeps].
    destruct (dash_wired w); [|apply keeps_refl].
    open_world w. destruct oL; keeps_now.
  - destruct (live_dash e w) as [p|]; [|apply keeps_refl].
    destruct (dash_wired w); [|apply keeps_refl].
    open_world w. destruct oS; keeps_now.
  - apply dispatch_keeps.
  - apply dispatch_keeps.
Qed.

Lemma load_one_timer (url : jsstring) (w : World) :
  one_timer w -> one_timer (load url w).
Proof.
  intros [A B]. pose proof (load_eq url w) as E. cbv zeta in E.
  rewrite E. clear E. unfold one_timer.
  cbn [timers loadTimeoutId next_timer t_id]. split.
  - right.
    exists (mkTimer (next_timer w) (next_load w) (now w + LOAD_TIMEOUT_MS)).
    split; [|reflexivity]. f_equal.
    unfold timers_after_cancel.
    destruct A as [A|(tm & A & Hl)].
    + rewrite A. now destruct (loadTimeoutId w).
    + rewrite A, Hl. cbn [filter]. now rewrite Nat.eqb_refl.
  - intros t [= <-]. reflexivity.
Qed.

Lemma step_one_timer (ev : Event) (w : World) :
  one_timer w -> one_timer (step ev w).
Proof.
  intros H. unfold step.
  apply keeps_one_timer with (w := handle ev w);
    [|apply run_microtasks_keeps].
  destruct ev as [url| |ms|t|e data|e|e|e fatal|e|e| |];
    try (apply keeps_one_timer with (w := w);
         [exact H | apply handle_keeps; discriminate]).
  now apply load_one_timer.
Qed.

Lemma run_one_timer (evs : list Event) (w : World) :
  one_timer w -> one_timer (run evs w).
Proof.
  revert w. induction evs as [|ev evs IH]; intros w H; [exact H|].
  change (run (ev :: evs) w) with (run evs (step ev w)).
  now apply IH, step_one_timer.
Qed.

(** X8: In every state the manager can reach at most one load timeout is
    pending; [loadTimeoutId] names it, and it belongs to the latest call
    of [load]. *)
Theorem one_load_timeout_pending (e : Env) (cbE cbS cbL : bool)
    (evs : list Event) :
  let w := run evs (init e cbE cbS cbL) in
  timers w = [] \/
  exists tm, timers w = [tm] /\ loadTimeoutId w = Some (t_id tm) /\
             S (t_owner tm) = next_load w.
Proof.
  intros w.
  assert (H : one_timer w).
  { apply run_one_timer. split; [now left | discriminate]. }
  assert (Hok : timers_ok w) by apply run_timers_ok, init_timers_ok.
  destruct H as [[A|(tm & A & Hl)] B]; [now left|].
  right. exists tm. split; [exact A|]. split; [exact Hl|].
  destruct Hok as (N & F & _). rewrite A in F.
  inversion F as [|? ? [Ho _] _]. subst. rewrite Ho, <- N. now apply B.
Qed.


(** ** The current adapter and the current url *)

Lemma same_target_refl (w : World) : same_target w w.
Proof. split; reflexivity. Qed.

Lemma same_target_trans (w1 w2 w3 : World) :
  same_target w1 w2 -> same_target w2 w3 -> same_target w1 w3.
Proof. intros [A1 B1] [A2 B2]. split; congruence. Qed.

Ltac target_now := unfold same_target; wcbv; split; reflexivity.

Lemma settle_target (k : LoadId) (o : Outcome) (w : World) :
  same_target w (settle k o w).
Proof. rewrite settle_eq. open_world w. target_now. Qed.

Lemma emit_target (a : Action) (w : World) : same_target w (emit a w).
Proof. open_world w. target_now. Qed.

Lemma adapter_onError_target (a : StreamType) (error : ErrorValue)
    (w : World) :
  same_target w (adapter_onError a error w).
Proof.
  unfold adapter_onError. destruct (wired a w); [|apply same_target_refl].
  open_world w. unfold forward_error.
  destruct (is_fatal error), lT, oE; target_now.
Qed.

Lemma hls_on_error_target (h : HlsEngine) (data : HlsErrorData) (w : World) :
  same_target w (hls_on_error h data w).
Proof.
  unfold hls_on_error. destruct (e_fatal data); [|apply same_target_refl].
  cbv zeta.
  apply same_target_trans with (w2 := adapter_onError hls (HlsData data) w);
    [apply adapter_onError_target|].
  generalize (adapter_onError hls (HlsData data) w). intros w1.
  destruct (e_type data); try apply emit_target.
  destruct (h_resolved h); [apply same_target_refl|].
  eapply same_target_trans; [|apply settle_target].
  open_world w1. destruct hH; target_now.
Qed.

Lemma run_handler_target (h : Handler) (w : World) :
  same_target w (run_handler h w).
Proof.
  unfold run_handler.
  set (w1 := set_listeners _ w).
  assert (H1 : same_target w w1) by (subst w1; open_world w; target_now).
  clearbody w1. eapply same_target_trans; [exact H1|].
  destruct h as [k|k|k|k]; try apply settle_target.
  - eapply same_target_trans; [|apply settle_target].
    open_world w1. target_now.
  - eapply same_target_trans; [|apply settle_target].
    apply adapter_onError_target.
Qed.

Lemma dispatch_target (loaded : bool) (w : World) :
  same_target w (dispatch loaded w).
Proof.
  unfold dispatch.
  generalize (filter (fun h => Bool.eqb (on_loadedmetadata h) loaded)
                     (listeners w)).
  intros l. revert w. induction l as [|h l IH]; intros w; cbn.
  - apply same_target_refl.
  - eapply same_target_trans; [apply run_handler_target | apply IH].
Qed.

Lemma run_microtasks_target (w : World) : same_target w (run_microtasks w).
Proof.
  destruct (run_microtasks_spec w) as ((H & _) & _).
  split; [exact H|].
  unfold run_microtasks.
  assert (E : currentUrl (set_microtasks [] w) = currentUrl w)
    by (open_world w; reflexivity).
  rewrite <- E. generalize (set_microtasks [] w). generalize (microtasks w).
  intros l. induction l as [|[k o] l IH]; intros w0; cbn [fold_left];
    [reflexivity|].
  rewrite IH. open_world w0. destruct o, lT, oE; reflexivity.
Qed.

Lemma handle_target (ev : Event) (w : World) :
  (forall url, ev <> CallLoad url) -> ev <> CallStop ->
  same_target w (handle ev w).
Proof.
  intros Hev Hstop.
  destruct ev as [url| |ms|t|e data|e|e|e fatal|e|e| |]; cbn [handle].
  - now elim (Hev url).
  - now elim Hstop.
  - open_world w. target_now.
  - unfold timer_fires. destruct (find_timer t w) as [tm|];
      [|apply same_target_refl].
    destruct (t_deadline tm <=? now w)%Z; [|apply same_target_refl].
    rewrite settle_eq. open_world w. target_now.
  - destruct (live_hls e w);
      [apply hls_on_error_target | apply same_target_refl].
  - destruct (live_hls e w); [apply emit_target | apply same_target_refl].
  - destruct (live_hls e w) as [h|]; [|apply same_target_refl].
    unfold hls_on_manifest_parsed.
    destruct (h_resolved h); [apply same_target_refl|].
    eapply same_target_trans; [|apply settle_target].
    open_world w. target_now.
  - destruct (live_dash e w);
      [apply adapter_onError_target | apply same_target_refl].
  - destruct (live_dash e w) as [p|]; [|apply same_target_refl].
    unfold dash_on_stream_initialized.
    eapply same_target_trans; [|apply settle_target].
    destruct (dash_wired w); [|apply same_target_refl].
    open_world w. destruct oL; target_now.
  - destruct (live_dash e w) as [p|]; [|apply same_target_refl].
    destruct (dash_wired w); [|apply same_target_refl].
    open_world w. destruct oS; target_now.
  - apply dispatch_target.
  - apply dispatch_target.
Qed.

Lemma same_target_ok (w w' : World) :
  target_ok w -> same_target w w' -> target_ok w'.
Proof. unfold target_ok. intros H [-> ->]. exact H. Qed.

Lemma step_target_ok (ev : Event) (w : World) :
  target_ok w -> target_ok (step ev w).
Proof.
  intros H. unfold step.
  apply same_target_ok with (w := handle ev w);
    [|apply run_microtasks_target].
  destruct ev as [url| |ms|t|e data|e|e|e fatal|e|e| |];
    try (apply same_target_ok with (w := w);
         [exact H | apply handle_target; discriminate]).
  - cbn [handle]. pose proof (load_eq url w) as E. cbv zeta in E.
    rewrite E. reflexivity.
  - cbn [handle]. rewrite stop_eq. exact I.
Qed.

(** X9: In every state the manager can reach, the current adapter is the one
    [detectStreamType] gives for the current url, and there is a current
    url exactly when there is a current adapter: [getState()] never throws
    on the url, and its [streamType] names the current adapter. *)
Theorem getState_names_current_adapter (e : Env) (cbE cbS cbL : bool)
    (evs : list Event) :
  let w := run evs (init e cbE cbS cbL) in
  getState_streamType w = Some (currentAdapter w) /\
  (currentUrl w = None <-> currentAdapter w = None).
Proof.
  intros w.
  assert (H : target_ok w).
  { subst w. generalize (init e cbE cbS cbL), (I : target_ok (init e cbE cbS cbL)).
    induction evs as [|ev evs IH]; intros w0 H0; [exact H0|].
    change (run (ev :: evs) w0) with (run evs (step ev w0)).
    now apply IH, step_target_ok. }
  unfold target_ok in H. unfold getState_streamType.
  destruct (currentAdapter w) as [a|], (currentUrl w) as [url|];
    try contradiction.
  - subst a. split; [reflexivity|]. split; discriminate.
  - split; [reflexivity|]. split; reflexivity.
Qed.

(** ** Who announces the quality levels *)

Lemma silent_refl (w : World) : silent w w.
Proof. exists []. split; [reflexivity | intros []]. Qed.

Lemma silent_trans (w1 w2 w3 : World) :
  silent w1 w2 -> silent w2 w3 -> silent w1 w3.
Proof.
  intros (n1 & E1 & H1) (n2 & E2 & H2). exists (n2 ++ n1). split.
  - now rewrite E2, E1, app_assoc.
  - intros H. apply in_app_or in H as [H|H]; tauto.
Qed.

(** Two explicit worlds: some actions consed on the log, none of them the
    announcement. *)
Ltac silent_now :=
  unfold silent; wcbv;
  match goal with
  | |- exists new, ?l = new ++ _ /\ _ =>
      let nw := prefix_of l in exists nw
  end;
  split; [reflexivity|];
  let H := fresh in
  intros H; simpl in H;
  repeat match goal with H : _ \/ _ |- _ => destruct H end;
  try discriminate; contradiction.

Lemma emit_silent (a : Action) (w : World) :
  a <> CallOnLevelsAvailable -> silent w (emit a w).
Proof.
  intros Ha. open_world w. unfold silent; wcbv. exists [a].
  split; [reflexivity|]. intros [H|[]]. now apply Ha.
Qed.

Lemma settle_silent (k : LoadId) (o : Outcome) (w : World) :
  silent w (settle k o w).
Proof. rewrite settle_eq. open_world w. silent_now. Qed.

Lemma adapter_onError_silent (a : StreamType) (error : ErrorValue)
    (w : World) :
  silent w (adapter_onError a error w).
Proof.
  unfold adapter_onError. destruct (wired a w); [|apply silent_refl].
  open_world w. unfold forward_error.
  destruct (is_fatal error), lT, oE; silent_now.
Qed.

Lemma hls_on_error_silent (h : HlsEngine) (data : HlsErrorData) (w : World) :
  silent w (hls_on_error h data w).
Proof.
  unfold hls_on_error. destruct (e_fatal data); [|apply silent_refl].
  cbv zeta.
  apply silent_trans with (w2 := adapter_onError hls (HlsData data) w);
    [apply adapter_onError_silent|].
  generalize (adapter_onError hls (HlsData data) w). intros w1.
  destruct (e_type data); try (apply emit_silent; discriminate).
  destruct (h_resolved h); [apply silent_refl|].
  eapply silent_trans; [|apply settle_silent].
  open_world w1. destruct hH; silent_now.
Qed.

Lemma run_handler_silent (h : Handler) (w : World) :
  silent w (run_handler h w).
Proof.
  unfold run_handler.
  set (w1 := set_listeners _ w).
  assert (H1 : silent w w1) by (subst w1; open_world w; silent_now).
  clearbody w1. eapply silent_trans; [exact H1|].
  destruct h as [k|k|k|k]; try apply settle_silent.
  - eapply silent_trans; [|apply settle_silent].
    open_world w1. silent_now.
  - eapply silent_trans; [|apply settle_silent].
    apply adapter_onError_silent.
Qed.

Lemma dispatch_silent (loaded : bool) (w : World) :
  silent w (dispatch loaded w).
Proof.
  unfold dispatch.
  generalize (filter (fun h => Bool.eqb (on_loadedmetadata h) loaded)
                     (listeners w)).
  intros l. revert w. induction l as [|h l IH]; intros w; cbn.
  - apply silent_refl.
  - eapply silent_trans; [apply run_handler_silent | apply IH].
Qed.

Lemma load_continue_silent (k : LoadId) (o : Outcome) (w : World) :
  silent w (load_continue k o w).
Proof. open_world w. destruct o, lT, oE; silent_now. Qed.

Lemma run_microtasks_silent (w : World) : silent w (run_microtasks w).
Proof.
  unfold run_microtasks.
  apply silent_trans with (w2 := set_microtasks [] w);
    [open_world w; silent_now|].
  generalize (set_microtasks [] w). generalize (microtasks w).
  intros l. induction l as [|[k o] l IH]; intros w0; cbn [fold_left].
  - apply silent_refl.
  - eapply silent_trans; [apply load_continue_silent | apply IH].
Qed.

Lemma stop_trace_no_levels (w : World) :
  ~ In CallOnLevelsAvailable (stop_trace w).
Proof.
  unfold stop_trace, destroy_trace, cancel_actions.
  destruct (loadTimeoutId w) as [t|], (currentAdapter w) as [[| |]|],
    (hls_hls w), (dash_player w); cbn; intros H;
    repeat match goal with H : _ \/ _ |- _ => destruct H end;
    try discriminate; contradiction.
Qed.

Lemma adapter_load_trace_no_levels (a : StreamType) (url : jsstring)
    (w : World) (e : EngineId) (en : Env) :
  ~ In CallOnLevelsAvailable
       (adapter_load_trace a url (engine_teardown a w) e en).
Proof.
  unfold adapter_load_trace, engine_teardown.
  destruct a, en as [nh hj dj dt], (hls_hls w), (dash_player w); cbn;
    try destruct nh; try destruct hj; try destruct dj; try destruct dt;
    cbn; intros H;
    repeat match goal with H : _ \/ _ |- _ => destruct H end;
    try discriminate; contradiction.
Qed.

Lemma handle_silent (ev : Event) (w : World) :
  (forall e, ev <> DashStreamInitialized e) -> silent w (handle ev w).
Proof.
  intros Hev.
  destruct ev as [url| |ms|t|e data|e|e|e fatal|e|e| |]; cbn [handle].
  - destruct (load_fields url w) as (_ & _ & _ & _ & E). cbv zeta in E.
    exists (SetTimeout (next_timer w) LOAD_TIMEOUT_MS ::
            rev (adapter_load_trace (detectStreamType url) url
                   (engine_teardown (detectStreamType url) (stop w))
                   (next_engine w) (env w)) ++
            Select (detectStreamType url) :: rev (stop_trace w)).
    split; [rewrite E; cbn [app]; rewrite <- app_assoc; reflexivity|].
    intros [H|H]; [discriminate|].
    apply in_app_or in H as [H|[H|H]]; [| discriminate |].
    + apply in_rev in H. now apply adapter_load_trace_no_levels in H.
    + apply in_rev in H. now apply stop_trace_no_levels in H.
  - rewrite stop_eq. exists (rev (stop_trace w)). split; [reflexivity|].
    intros H. apply in_rev in H. now apply stop_trace_no_levels in H.
  - open_world w. silent_now.
  - unfold timer_fires. destruct (find_timer t w) as [tm|];
      [|apply silent_refl].
    destruct (t_deadline tm <=? now w)%Z; [|apply silent_refl].
    rewrite settle_eq. open_world w. silent_now.
  - destruct (live_hls e w); [apply hls_on_error_silent | apply silent_refl].
  - destruct (live_hls e w);
      [apply emit_silent; discriminate | apply silent_refl].
  - destruct (live_hls e w) as [h|]; [|apply silent_refl].
    unfold hls_on_manifest_parsed.
    destruct (h_resolved h); [apply silent_refl|].
    eapply silent_trans; [|apply settle_silent].
    open_world w. silent_now.
  - destruct (live_dash e w);
      [apply adapter_onError_silent | apply silent_refl].
  - now elim (Hev e).
  - destruct (live_dash e w) as [p|]; [|apply silent_refl].
    destruct (dash_wired w); [|apply silent_refl].
    open_world w. destruct oS; silent_now.
  - apply dispatch_silent.
  - apply dispatch_silent.
Qed.

Lemma silent_since (w w' : World) :
  silent w w' -> ~ In CallOnLevelsAvailable (since w w').
Proof.
  intros (new & E & H) Hin.
  rewrite (since_log w w' new (rev new) E eq_refl) in Hin.
  now apply in_rev in Hin.
Qed.

(** X10: The application's [onLevelsAvailable] is called by one event only:
    STREAM_INITIALIZED of the live dash.js player, with the DASH adapter
    wired to the manager.  No HLS event and no event of the video element
    announces levels, neither does [load] itself. *)
Theorem levels_announced_only_by_dash (ev : Event) (w : World) :
  In CallOnLevelsAvailable (since w (step ev w)) ->
  exists e p,
    ev = DashStreamInitialized e /\ live_dash e w = Some p /\
    dash_wired w = true /\ onLevelsAvailable w = true.
Proof.
  intros Hin.
  assert (S : forall w1, silent w w1 -> silent w (run_microtasks w1))
    by (intros w1 H1; eapply silent_trans;
        [exact H1 | apply run_microtasks_silent]).
  destruct ev as [url| |ms|t|e data|e0|e0|e fatal|e|e0| |];
    try (exfalso; revert Hin; apply silent_since, S, handle_silent;
         discriminate).
  unfold step in Hin. cbn [handle] in Hin.
  destruct (live_dash e w) as [p|] eqn:El;
    [|exfalso; revert Hin; apply silent_since, S, silent_refl].
  unfold dash_on_stream_initialized in Hin.
  destruct (dash_wired w) eqn:Ew;
    [|exfalso; revert Hin; apply silent_since, S, settle_silent].
  unfold forward_levels in Hin.
  destruct (onLevelsAvailable w) eqn:Eo;
    [|exfalso; revert Hin; apply silent_since, S, settle_silent].
  exists e, p. repeat split; first [reflexivity | assumption].
Qed.

Lemma levels_announced_only_by_dash_witness :
  exists e p,
    DashStreamInitialized 0 = DashStreamInitialized e /\
    live_dash e dash_loading = Some p /\
    dash_wired dash_loading = true /\ onLevelsAvailable dash_loading = true.
Proof.
  apply (levels_announced_only_by_dash (DashStreamInitialized 0) dash_loading).
  vm_compute. left. reflexivity.
Defined.


(** ** A load left waiting *)

(** X29: In any state the manager can reach, a fatal network or media error
    of the live hls.js instance during an unsettled load leaves the caller
    of [load] waiting without a timeout: the pending timer is cleared, the
    load is not settled and the engine stays, so that however much time
    passes afterwards nothing is reported and [load] does not return. *)
Theorem fatal_hls_error_leaves_load_waiting (e : Env) (cbE cbS cbL : bool)
    (evs0 : list Event) (h : HlsEngine) (data : HlsErrorData)
    (later : list Event) :
  let w := run evs0 (init e cbE cbS cbL) in
  hls_hls w = Some h -> hls_wired w = true ->
  e_fatal data = true ->
  e_type data = NETWORK_ERROR \/ e_type data = MEDIA_ERROR ->
  is_settled (h_owner h) w = false ->
  forallb only_time later = true ->
  let w' := step (HlsError (h_id h) data) w in
  let w'' := run later w' in
  timers w' = [] /\ loadTimeoutId w' = None /\
  is_settled (h_owner h) w'' = false /\ hls_hls w'' = Some h /\
  since w' w'' = [].
Proof.
  intros w Hh Hw Hf Hty Hs Hl w' w''.
  assert (Hone : one_timer w).
  { apply run_one_timer. split; [now left | discriminate]. }
  assert (Hok : timers_ok w) by apply run_timers_ok, init_timers_ok.
  destruct Hok as (_ & _ & Hm). destruct Hone as [A _].
  assert (E : timers w' = [] /\ loadTimeoutId w' = None /\
              microtasks w' = [] /\ settled w' = settled w /\
              hls_hls w' = Some h).
  { subst w'. clearbody w. unfold step, handle, live_hls.
    rewrite Hh, Nat.eqb_refl. unfold hls_on_error. rewrite Hf.
    unfold adapter_onError, wired. rewrite Hw. unfold forward_error.
    cbn [is_fatal]. rewrite Hf.
    open_world w. subst hH hW mt. destruct data as [ty det fatal].
    cbn [e_type e_fatal] in *.
    assert (Ht : match lT with
                 | Some t => filter (fun x => negb (t_id x =? t)) tms
                 | None => tms
                 end = []).
    { destruct A as [->|(tm & -> & ->)]; [now destruct lT|].
      cbn [filter]. now rewrite Nat.eqb_refl. }
    destruct Hty as [-> | ->]; destruct lT, oE; wcbv; lists;
      repeat split; first [exact Ht | reflexivity]. }
  destruct E as (E1 & E2 & E3 & E4 & E5).
  destruct (time_passes_idle later w' E1 E3 Hl)
    as (_ & _ & H3 & H4 & _ & H6).
  fold w'' in H3, H4, H6.
  split; [exact E1|]. split; [exact E2|].
  split; [unfold is_settled in *; rewrite H3, E4; exact Hs|].
  split; [congruence|].
  apply since_log with (new := []); [exact H6 | reflexivity].
Qed.

Lemma fatal_hls_error_leaves_load_waiting_witness :
  let data := mkHlsErrorData NETWORK_ERROR (js "manifestLoadError") true in
  let w' := step (HlsError 0 data) hls_loading in
  let w'' := run [Elapse 60000; TimerFires 0] w' in
  find_timer 0 hls_loading = Some (mkTimer 0 0 30000) /\
  timers w' = [] /\ is_settled 0 w'' = false /\ since w' w'' = [].
Proof.
  intros data w' w''.
  destruct (fatal_hls_error_leaves_load_waiting chromium true true true
              [CallLoad (js "http://x/live.m3u8")] hls_engine0 data
              [Elapse 60000; TimerFires 0])
    as (H1 & _ & H3 & _ & H5);
    try (vm_compute; reflexivity); [left; reflexivity|].
  split; [vm_compute; reflexivity|]. split; [exact H1|].
  split; [exact H3 | exact H5].
Defined.

End PlayerMoreProofs.

(* ================================================================== *)
(** * The stream recorder: the life of one recording *)
(* ================================================================== *)

Module RecorderMoreProofs.
Import Recorder RecorderProofs.
Local Open Scope Z_scope.

Ltac open_recorder r :=
  destruct r as [v m ch s rec st p c1 c2 c3 c4 sup th sth ck fr tr].

(** ** start *)

(** What [start()] leaves behind when it returns true. *)
Lemma start_true_fields (r r1 : StreamRecorder) :
  start r = (true, r1) ->
  exists preset,
    presets (currentPreset r) = Some preset /\
    throws r = None /\
    trace r1 =
      (if onStart r then [CallOnStart] else []) ++
      [RecorderStart 1000;
       NewMediaRecorder MIME (videoBitsPerSecond preset)
                        (audioBitsPerSecond preset);
       CaptureStream 30] ++ trace r /\
    startTime r1 = Some (clock r) /\
    stream r1 = Some (fresh r) /\
    mediaRecorder r1 = Some (S (fresh r)) /\
    clock r1 = clock r /\ onStop r1 = onStop r /\
    stop_throws r1 = stop_throws r.
Proof.
  open_recorder r. unfold start, notify_error, thrown_at. cbn.
  destruct rec; [discriminate|].
  destruct (canRecord _); cbn; [|destruct c3; discriminate].
  destruct th as [[]|]; cbn; try (destruct c3; discriminate).
  - destruct (presets p) as [preset|]; cbn;
      destruct c3; discriminate.
  - destruct (presets p) as [preset|]; cbn;
      destruct c3; discriminate.
  - destruct (presets p) as [preset|]; cbn; [|destruct c3; discriminate].
    intros H. exists preset. destruct c1; cbn in H; inversion H; subst; cbn;
      repeat split; reflexivity.
Qed.


(** X11: [start()] returns true exactly when the recorder is idle, the element
    is playing with data and the browser supports the format, the stored
    preset name has a value, and none of [captureStream], the
    [MediaRecorder] constructor and [mediaRecorder.start] throws. *)
Theorem start_succeeds_iff (r : StreamRecorder) :
  fst (start r) = true <->
  recording r = false /\ canRecord r = true /\ throws r = None /\
  presets (currentPreset r) <> None.
Proof.
  open_recorder r. unfold start, notify_error, thrown_at. cbn.
  destruct rec; cbn; [intuition discriminate|].
  destruct (canRecord _); cbn; [|intuition discriminate].
  destruct th as [[]|]; cbn; try (intuition discriminate).
  - destruct (presets p); cbn; intuition discriminate.
  - destruct (presets p); cbn; intuition discriminate.
  - destruct (presets p); cbn; [intuition discriminate|].
    intuition congruence.
Qed.

(** X12: A successful [start()] captures the stream at 30 frames a second,
    builds the MediaRecorder with the bitrates of the current preset,
    starts it with one-second slices and then calls [onStart] if set, in
    this order and nothing else; the start time is the time of the call. *)
Theorem start_calls_in_order (r r1 : StreamRecorder) :
  start r = (true, r1) ->
  exists preset,
    presets (currentPreset r) = Some preset /\
    trace r1 =
      (if onStart r then [CallOnStart] else []) ++
      [RecorderStart 1000;
       NewMediaRecorder MIME (videoBitsPerSecond preset)
                        (audioBitsPerSecond preset);
       CaptureStream 30] ++ trace r /\
    startTime r1 = Some (clock r) /\
    stream r1 = Some (fresh r) /\
    mediaRecorder r1 = Some (S (fresh r)).
Proof.
  intros H. destruct (start_true_fields r r1 H)
    as (preset & H1 & _ & H2 & H3 & H4 & H5 & _).
  exists preset. repeat split; assumption.
Qed.

Lemma start_calls_in_order_witness :
  start idle = (true, snd (start idle)) /\
  trace (snd (start idle)) =
    [CallOnStart; RecorderStart 1000;
     NewMediaRecorder MIME (Some 1500000) (Some 128000);
     CaptureStream 30].
Proof.
  assert (H : start idle = (true, snd (start idle))) by reflexivity.
  split; [exact H|].
  destruct (start_calls_in_order idle (snd (start idle)) H)
    as (preset & H1 & H2 & _).
  vm_compute in H1. injection H1 as <-. exact H2.
Defined.

(** X13: A [start()] that fails on an idle recorder leaves it idle, and
    no [mediaRecorder.start] returns and [onStart] is not called.  The
    calls that returned before the failure (the trace lists the calls
    that returned) are none when the element cannot be recorded or
    [captureStream] throws, [captureStream] alone when the preset has no
    value or the constructor throws, and [captureStream] and the
    constructor when [mediaRecorder.start] itself throws; in that last
    case the captured stream and the new MediaRecorder stay in the
    recorder and the chunks are emptied.  [onError] is called once if set:
    with the not-ready error when the element cannot be recorded, with
    the caught exception otherwise. *)
Theorem start_failure_reports (r r1 : StreamRecorder) :
  recording r = false -> start r = (false, r1) ->
  let made :=
    if negb (canRecord r) then []
    else match throws r, presets (currentPreset r) with
         | Some AtCaptureStream, _ => []
         | Some AtRecorderStart, Some preset =>
             [NewMediaRecorder MIME (videoBitsPerSecond preset)
                               (audioBitsPerSecond preset);
              CaptureStream 30]
         | _, _ => [CaptureStream 30]
         end in
  recording r1 = false /\
  trace r1 =
    (if onError r
     then [CallOnError (if canRecord r then ErrThrown else ErrCannotRecord)]
     else []) ++ made ++ trace r /\
  (canRecord r = true -> throws r = Some AtRecorderStart ->
   presets (currentPreset r) <> None ->
   stream r1 = Some (fresh r) /\ mediaRecorder r1 = Some (S (fresh r)) /\
   recordedChunks r1 = []).
Proof.
  open_recorder r. unfold start, notify_error, thrown_at. cbn.
  intros ->. destruct (canRecord _) eqn:Ec; cbn.
  2:{ intros H. destruct c3; cbn in H; inversion H; subst; cbn;
        (split; [reflexivity|]); (split; [reflexivity|]); discriminate. }
  destruct th as [[]|]; cbn.
  - intros H. destruct c3; cbn in H; inversion H; subst; cbn;
      (split; [reflexivity|]); (split; [reflexivity|]);
      intros _ [=].
  - destruct (presets p) as [preset|]; cbn;
      intros H; destruct c3; cbn in H; inversion H; subst; cbn;
      (split; [reflexivity|]); (split; [reflexivity|]);
      intros _ [=].
  - destruct (presets p) as [preset|]; cbn;
      intros H; destruct c3; cbn in H; inversion H; subst; cbn;
      (split; [reflexivity|]); (split; [reflexivity|]);
      intros _ _ Hp; first [now elim Hp | repeat split].
  - destruct (presets p) as [preset|]; cbn.
    + destruct c1; discriminate.
    + intros H; destruct c3; cbn in H; inversion H; subst; cbn;
      (split; [reflexivity|]); (split; [reflexivity|]);
      intros _ [=].
Qed.

Lemma start_failure_reports_witness :
  let paused := create (Some (mkVideo true 4)) true None false 1000
                       true true true true in
  let failing := create (Some playing) true (Some AtRecorderStart) false 1000
                        true true true true in
  (recording paused = false /\ start paused = (false, snd (start paused)) /\
   trace (snd (start paused)) = [CallOnError ErrCannotRecord]) /\
  (recording failing = false /\
   start failing = (false, snd (start failing)) /\
   trace (snd (start failing)) =
     [CallOnError ErrThrown;
      NewMediaRecorder MIME (Some 1500000) (Some 128000);
      CaptureStream 30] /\
   stream (snd (start failing)) = Some 0%nat /\
   mediaRecorder (snd (start failing)) = Some 1%nat).
Proof.
  intros paused failing. split.
  - assert (H0 : recording paused = false) by reflexivity.
    assert (H : start paused = (false, snd (start paused))) by reflexivity.
    split; [exact H0|]. split; [exact H|].
    exact (proj1 (proj2 (start_failure_reports paused _ H0 H))).
  - assert (H0 : recording failing = false) by reflexivity.
    assert (H : start failing = (false, snd (start failing)))
      by reflexivity.
    split; [exact H0|]. split; [exact H|].
    destruct (start_failure_reports failing _ H0 H) as (_ & H1 & H2).
    split; [exact H1|].
    destruct H2 as (H3 & H4 & _);
      [reflexivity | reflexivity | discriminate|].
    split; [exact H3 | exact H4].
Defined.

(** ** stop *)

(** What the browser's [stop] event will report for recorder [r]. *)
Lemma on_stop_trace (r : StreamRecorder) :
  recording (on_stop r) = false /\
  trace (on_stop r) =
    (if onStop r
     then [CallOnStop (getBlob r)
             (match started r with Some t => clock r - t | None => 0 end)]
     else []) ++ trace r.
Proof.
  open_recorder r. unfold on_stop, getBlob, started. cbn.
  destruct c2; cbn; split; reflexivity.
Qed.

(** Data events change the chunks and the trace only. *)
Lemma deliver_fields (chunks : list Chunk) (r : StreamRecorder) :
  recording (deliver chunks r) = recording r /\
  onStop (deliver chunks r) = onStop r /\
  startTime (deliver chunks r) = startTime r /\
  clock (deliver chunks r) = clock r /\
  mediaRecorder (deliver chunks r) = mediaRecorder r /\
  stream (deliver chunks r) = stream r.
Proof.
  revert r. induction chunks as [|c chunks IH]; intros r.
  - repeat split; reflexivity.
  - change (deliver (c :: chunks) r)
      with (deliver chunks (on_dataavailable c r)).
    destruct (IH (on_dataavailable c r)) as (H1 & H2 & H3 & H4 & H5 & H6).
    rewrite H1, H2, H3, H4, H5, H6.
    open_recorder r. unfold on_dataavailable. cbn.
    destruct (0 <? size c); cbn; [destruct c4|]; cbn;
      repeat split; reflexivity.
Qed.

(** The blob [getBlob()] builds from a list of chunks. *)
Lemma getBlob_chunks (r : StreamRecorder) :
  getBlob r =
    match recordedChunks r with
    | [] => None
    | chunks => Some (mkBlob (List.concat chunks) BLOB_TYPE)
    end.
Proof. reflexivity. Qed.

(** X14: [stop()] on a running recording stops the MediaRecorder and the
    tracks and returns true, but the recorder still counts as recording:
    a [start()] made before the browser's stop event is refused without a
    call.  The stop event, after the last data events, ends the recording
    and hands [onStop] the blob of all the chunks and the milliseconds
    since the start. *)
Theorem stop_waits_for_stop_event (r : StreamRecorder) (rec_id : nat)
    (last : list Chunk) :
  recording r = true -> mediaRecorder r = Some rec_id ->
  stop_throws r = false ->
  let r1 := snd (stop r) in
  let r2 := deliver last r1 in
  let chunks := recordedChunks r ++ filter nonempty last in
  fst (stop r) = true /\
  trace r1 =
    (match stream r with Some _ => [StopTracks] | None => [] end) ++
    RecorderStop :: trace r /\
  stream r1 = None /\ recording r1 = true /\
  start r1 = (false, r1) /\
  recording r2 = true /\
  recording (on_stop r2) = false /\
  trace (on_stop r2) =
    (if onStop r
     then [CallOnStop
             (match chunks with
              | [] => None
              | _ => Some (mkBlob (List.concat chunks) BLOB_TYPE)
              end)
             (match started r with Some t => clock r - t | None => 0 end)]
     else []) ++ trace r2.
Proof.
  intros Hr Hm Hs r1 r2 chunks.
  assert (E : fst (stop r) = true /\
              trace r1 =
                (match stream r with Some _ => [StopTracks] | None => [] end)
                ++ RecorderStop :: trace r /\
              stream r1 = None /\ recording r1 = true /\
              start r1 = (false, r1) /\
              recordedChunks r1 = recordedChunks r /\
              onStop r1 = onStop r /\ startTime r1 = startTime r /\
              clock r1 = clock r).
  { subst r1. open_recorder r. cbn in Hr, Hm, Hs. subst. unfold stop. cbn.
    destruct s as [s|]; cbn; repeat split; reflexivity. }
  destruct E as (E1 & E2 & E3 & E4 & E5 & E6 & E7 & E8 & E9).
  destruct (deliver_fields last r1) as (D1 & D2 & D3 & D4 & _).
  destruct (on_stop_trace r2) as (S1 & S2).
  repeat (split; [assumption|]).
  split; [subst r2; congruence|]. split; [exact S1|].
  rewrite S2, getBlob_chunks. unfold started. subst r2.
  rewrite deliver_chunks, D2, D3, D4, E6, E7, E8, E9. subst chunks.
  destruct (recordedChunks r ++ filter nonempty last); reflexivity.
Qed.

Lemma stop_waits_for_stop_event_witness :
  let r := deliver [[Byte.x01]] (tick 2500 (snd (start idle))) in
  let r2 := deliver [[Byte.x02]; []] (snd (stop r)) in
  recording r = true /\ recording r2 = true /\
  trace (on_stop r2) =
    CallOnStop (Some (mkBlob [Byte.x01; Byte.x02] BLOB_TYPE)) 2500
    :: trace r2.
Proof.
  intros r r2.
  assert (H1 : recording r = true) by reflexivity.
  assert (H2 : mediaRecorder r = Some 1%nat) by reflexivity.
  assert (H3 : stop_throws r = false) by reflexivity.
  destruct (stop_waits_for_stop_event r 1%nat [[Byte.x02]; []] H1 H2 H3)
    as (_ & _ & _ & _ & _ & H4 & _ & H5).
  split; [exact H1|]. split; [exact H4|]. exact H5.
Defined.

(** ** The MediaRecorder's error event *)

(** X15: An error event of the MediaRecorder ends the recording and calls
    [onError] if set, and nothing else: [onStop] is not called, the tracks
    are not stopped, and the chunks recorded so far stay available. *)
Theorem on_error_keeps_chunks (r : StreamRecorder) :
  let r1 := on_error r in
  recording r1 = false /\
  trace r1 = (if onError r then [CallOnError ErrRecorder] else []) ++ trace r /\
  recordedChunks r1 = recordedChunks r /\ getBlob r1 = getBlob r /\
  stream r1 = stream r /\ mediaRecorder r1 = mediaRecorder r /\
  stop r1 = (false, r1).
Proof.
  open_recorder r. unfold on_error, notify_error, getBlob, stop. cbn.
  destruct c3; cbn; repeat split; reflexivity.
Qed.

(** ** getDuration *)

(** X16: While a recording runs, [getDuration()] is the time since the start
    in seconds, rounded to the nearest second with halves up; before the
    start and after the stop event it is 0. *)
Theorem getDuration_counts_seconds (r r1 : StreamRecorder) (ms : Z) :
  start r = (true, r1) -> clock r <> 0 -> 0 <= ms ->
  getDuration r = 0 /\
  getDuration (tick ms r1) = (ms + 500) / 1000 /\
  getDuration (on_stop (tick ms r1)) = 0.
Proof.
  intros H Hc Hms.
  destruct (start_true_chunks r r1 H) as (_ & Hrec1 & Hrec & _).
  destruct (start_true_fields r r1 H)
    as (preset & _ & _ & _ & Hst & _ & _ & Hck & _).
  split; [|split].
  - unfold getDuration. rewrite Hrec. now destruct (started r).
  - open_recorder r1. cbn in *. subst.
    unfold getDuration, started, round_div_1000. cbn.
    destruct (clock r) eqn:E; [congruence| |];
      f_equal; rewrite Z.max_r by lia; f_equal; lia.
  - open_recorder r1. cbn in *. subst.
    unfold getDuration, on_stop, started. cbn.
    destruct c2; cbn; now destruct (clock r).
Qed.

Lemma getDuration_counts_seconds_witness :
  getDuration (tick 2500 (snd (start idle))) = 3 /\
  getDuration (tick 2499 (snd (start idle))) = 2.
Proof.
  assert (H : start idle = (true, snd (start idle))) by reflexivity.
  assert (Hc : clock idle <> 0) by discriminate.
  split.
  - destruct (getDuration_counts_seconds idle (snd (start idle)) 2500 H Hc)
      as (_ & H1 & _); [lia | exact H1].
  - destruct (getDuration_counts_seconds idle (snd (start idle)) 2499 H Hc)
      as (_ & H1 & _); [lia | exact H1].
Defined.

(** ** setPreset *)

(** X17: [setPreset(name)] keeps the current preset when [presets[name]] is
    undefined.  Otherwise the next successful [start()] builds the
    MediaRecorder with the bitrates of [presets[name]]. *)
Theorem setPreset_sets_bitrates (r : StreamRecorder) (name : jsstring) :
  (presets name = None -> setPreset name r = r) /\
  forall preset r1,
    presets name = Some preset ->
    start (setPreset name r) = (true, r1) ->
    trace r1 =
      (if onStart r then [CallOnStart] else []) ++
      [RecorderStart 1000;
       NewMediaRecorder MIME (videoBitsPerSecond preset)
                        (audioBitsPerSecond preset);
       CaptureStream 30] ++ trace r.
Proof.
  split.
  - intros H. unfold setPreset. now rewrite H.
  - intros preset r1 Hp H.
    destruct (start_true_fields _ _ H) as (q & Hq & _ & Ht & _).
    unfold setPreset in *. rewrite Hp in *.
    open_recorder r. cbn in *. congruence.
Qed.

(** ** destroy *)

(** X18: [destroy()] empties the recorder.  On a running recording it asks the
    MediaRecorder to stop, but the recorder still counts as recording, so
    that neither [start()] nor [stop()] does anything until the stop
    event.  The chunks recorded before the call are gone: the stop event
    hands [onStop] only the data delivered after it, or no blob when there
    is none. *)
Theorem destroy_discards_recording (r : StreamRecorder) (rec_id : nat)
    (last : list Chunk) :
  recording r = true -> mediaRecorder r = Some rec_id ->
  stop_throws r = false ->
  let r1 := destroy r in
  let r2 := deliver last r1 in
  let chunks := filter nonempty last in
  recordedChunks r1 = [] /\ mediaRecorder r1 = None /\ stream r1 = None /\
  trace r1 =
    (match stream r with Some _ => [StopTracks] | None => [] end) ++
    RecorderStop :: trace r /\
  recording r1 = true /\
  start r1 = (false, r1) /\ stop r1 = (false, r1) /\
  trace (on_stop r2) =
    (if onStop r
     then [CallOnStop
             (match chunks with
              | [] => None
              | _ => Some (mkBlob (List.concat chunks) BLOB_TYPE)
              end)
             (match started r with Some t => clock r - t | None => 0 end)]
     else []) ++ trace r2.
Proof.
  intros Hr Hm Hs r1 r2 chunks.
  assert (E : recordedChunks r1 = [] /\ mediaRecorder r1 = None /\
              stream r1 = None /\
              trace r1 =
                (match stream r with Some _ => [StopTracks] | None => [] end)
                ++ RecorderStop :: trace r /\
              recording r1 = true /\
              start r1 = (false, r1) /\ stop r1 = (false, r1) /\
              onStop r1 = onStop r /\ startTime r1 = startTime r /\
              clock r1 = clock r).
  { subst r1. open_recorder r. cbn in Hr, Hm, Hs. subst.
    unfold destroy, stop. cbn.
    destruct s as [s|]; cbn; repeat split; reflexivity. }
  destruct E as (E1 & E2 & E3 & E4 & E5 & E6 & E7 & E8 & E9 & E10).
  destruct (deliver_fields last r1) as (_ & D2 & D3 & D4 & _).
  destruct (on_stop_trace r2) as (_ & S2).
  repeat (split; [assumption|]).
  rewrite S2, getBlob_chunks. unfold started. subst r2.
  rewrite deliver_chunks, D2, D3, D4, E1, E8, E9, E10. subst chunks.
  cbn [app]. destruct (filter nonempty last); reflexivity.
Qed.

Lemma destroy_discards_recording_witness :
  let r := deliver [[Byte.x01]] (tick 2500 (snd (start idle))) in
  let r2 := deliver [[Byte.x02]] (destroy r) in
  recording r = true /\ getBlob r = Some (mkBlob [Byte.x01] BLOB_TYPE) /\
  trace (on_stop r2) =
    CallOnStop (Some (mkBlob [Byte.x02] BLOB_TYPE)) 2500 :: trace r2.
Proof.
  intros r r2.
  assert (H1 : recording r = true) by reflexivity.
  assert (H2 : mediaRecorder r = Some 1%nat) by reflexivity.
  assert (H3 : stop_throws r = false) by reflexivity.
  destruct (destroy_discards_recording r 1%nat [[Byte.x02]] H1 H2 H3)
    as (_ & _ & _ & _ & _ & _ & _ & H4).
  split; [exact H1|]. split; [reflexivity | exact H4].
Defined.


(** ** generateFilename *)

Lemma digit_plain (c : N) :
  is_digit c -> reserved c = false /\ is_space c = false.
Proof.
  unfold is_digit. intros H.
  assert (E : (c = 48 \/ c = 49 \/ c = 50 \/ c = 51 \/ c = 52 \/ c = 53 \/
               c = 54 \/ c = 55 \/ c = 56 \/ c = 57)%N) by lia.
  repeat (destruct E as [->|E]; [split; reflexivity|]).
  subst. split; reflexivity.
Qed.

Lemma pad_plain (w : nat) (n : Z) (c : N) :
  In c (pad w n) -> reserved c = false /\ is_space c = false.
Proof.
  intros H. apply digit_plain.
  exact (proj1 (Forall_forall _ _) (pad_digits w n) c H).
Qed.

Lemma timestamp_plain (now : DateUTC) (c : N) :
  In c (timestamp now) -> reserved c = false /\ is_space c = false.
Proof.
  rewrite timestamp_format. intros H.
  repeat (apply in_app_or in H as [H|H];
          [first [ now apply pad_plain in H
                 | destruct H as [<-|[]]; split; reflexivity ]|]).
  now apply pad_plain in H.
Qed.

Lemma timestamp_length (now : DateUTC) :
  List.length (timestamp now) = 19%nat.
Proof.
  rewrite timestamp_format. rewrite !length_app, !pad_length. reflexivity.
Qed.

(** X19: The whole file name, not only its label, is free of the
    characters < > : / \ | ? * and the double quote and of white space,
    and it has from 25 to 75 code units: 25 more than the label. *)
Theorem generateFilename_is_portable (name : option jsstring)
    (now : DateUTC) :
  valid_date now ->
  let f := generateFilename name now in
  (25 <= List.length f <= 75)%nat /\
  forall c, In c f -> reserved c = false /\ is_space c = false.
Proof.
  intros _. unfold generateFilename.
  set (given := match name with Some n => n | None => js "recording" end).
  destruct (safeName_spec given) as [Hlen Hin]. split.
  - rewrite !length_app, timestamp_length.
    change (List.length (js "_")) with 1%nat.
    change (List.length (js ".webm")) with 5%nat. lia.
  - intros c H.
    apply in_app_or in H as [H|H];
      [destruct (Hin c H) as (H1 & H2 & _); now split|].
    apply in_app_or in H as [H|H];
      [destruct H as [<-|[]]; split; reflexivity|].
    apply in_app_or in H as [H|H]; [now apply timestamp_plain in H|].
    cbn in H.
    repeat (destruct H as [<-|H]; [split; reflexivity|]). destruct H.
Qed.

Lemma generateFilename_is_portable_witness :
  let f := generateFilename (Some (js "Canal 24h: Noticias / HD")) sample_date in
  f = js "Canal_24h_Noticias_HD_2024-03-09_18-05-42.webm" /\
  (25 <= List.length f <= 75)%nat.
Proof.
  intros f. split; [reflexivity|].
  apply (generateFilename_is_portable
           (Some (js "Canal 24h: Noticias / HD")) sample_date).
  unfold valid_date, sample_date. cbn. lia.
Defined.

Lemma filter_keeps_all (f : N -> bool) (s : jsstring) :
  (forall c, In c s -> f c = true) -> filter f s = s.
Proof.
  induction s as [|c s IH]; [reflexivity|]. intros H. cbn [filter].
  rewrite (H c (or_introl eq_refl)). f_equal. apply IH.
  intros x Hx. apply H. now right.
Qed.

(** X20: Sanitising a channel name twice gives what sanitising it once gives. *)
Theorem safeName_idempotent (name : jsstring) :
  safeName (safeName name) = safeName name.
Proof.
  destruct (safeName_spec name) as [Hlen Hin].
  set (s := safeName name) in *.
  unfold safeName at 1. rewrite strip_filter.
  rewrite filter_keeps_all
    by (intros c Hc; destruct (Hin c Hc) as (-> & _); reflexivity).
  rewrite collapse_plain
    by (apply Forall_forall; intros c Hc; now destruct (Hin c Hc) as (_ & ? & _)).
  unfold slice0, MAX_NAME. now apply firstn_all2.
Qed.

Lemma lex_lt_irrefl (a : jsstring) : ~ lex_lt a a.
Proof.
  induction a as [|x a IH]; cbn; [tauto|].
  intros [H|[_ H]]; [lia | exact (IH H)].
Qed.

Lemma seconds_key_fields (a b : DateUTC) :
  valid_date a -> valid_date b -> seconds_key a = seconds_key b ->
  year a = year b /\ month a = month b /\ day a = day b /\
  hour a = hour b /\ minute a = minute b /\ second a = second b.
Proof.
  unfold valid_date, seconds_key. intros Ha Hb H. lia.
Qed.

(** X21: Two file names for the same channel are equal exactly when the
    two instants agree to the second: the milliseconds play no part, and
    different seconds never give the same name. *)
Theorem generateFilename_same_second (name : option jsstring)
    (a b : DateUTC) :
  valid_date a -> valid_date b ->
  (generateFilename name a = generateFilename name b <->
   year a = year b /\ month a = month b /\ day a = day b /\
   hour a = hour b /\ minute a = minute b /\ second a = second b).
Proof.
  intros Ha Hb. unfold generateFilename. split.
  - intros H. apply app_inv_head in H. apply app_inv_head in H.
    apply app_inv_tail in H.
    apply (seconds_key_fields a b Ha Hb).
    destruct (Z.lt_trichotomy (seconds_key a) (seconds_key b))
      as [L|[E|L]]; [|exact E|].
    + apply (timestamp_sortable a b Ha Hb) in L. rewrite H in L.
      now apply lex_lt_irrefl in L.
    + apply (timestamp_sortable b a Hb Ha) in L. rewrite H in L.
      now apply lex_lt_irrefl in L.
  - intros (E1 & E2 & E3 & E4 & E5 & E6).
    rewrite !timestamp_format, E1, E2, E3, E4, E5, E6. reflexivity.
Qed.

Lemma generateFilename_same_second_witness :
  generateFilename (Some (js "BBC One")) sample_date =
  generateFilename (Some (js "BBC One")) (mkDate 2024 3 9 18 5 42 999).
Proof.
  apply (generateFilename_same_second (Some (js "BBC One")) sample_date
           (mkDate 2024 3 9 18 5 42 999)).
  - unfold valid_date, sample_date. cbn. lia.
  - unfold valid_date. cbn. lia.
  - repeat split; reflexivity.
Defined.

End RecorderMoreProofs.

(* ================================================================== *)
(** * The quality selector and the levels it is given *)
(* ================================================================== *)

Module QualityMoreProofs.
Import Quality QualityProofs Levels.
Local Open Scope Z_scope.

(** ** The numbering of the levels *)

Lemma number_from_nth (infos : list Info) (i : Z) (n : nat) :
  nth_error (number_from i infos) n =
  option_map (fun x => mkLevel (i + Z.of_nat n) (i_height x) (i_width x)
                               (i_bitrate x))
             (nth_error infos n).
Proof.
  revert i n. induction infos as [|x infos IH]; intros i n.
  - now destruct n.
  - destruct n as [|n]; cbn [number_from nth_error option_map].
    + now rewrite Z.add_0_r.
    + rewrite IH. destruct (nth_error infos n); cbn; [|reflexivity].
      do 2 f_equal. lia.
Qed.

(** X22: The levels an adapter reports are the renditions of its engine in
    the engine's order, each numbered by its position from 0; without an
    engine, without a current adapter and for the native adapter there
    are none. *)
Theorem getQualityLevels_numbered (current : option StreamType)
    (a : Adapters) (n : nat) :
  let engine := match current with
                | Some hls => a_hls a
                | Some dash => a_player a
                | Some native | None => None
                end in
  nth_error (getQualityLevels current a) n =
  match engine with
  | Some infos =>
      option_map (fun x => mkLevel (Z.of_nat n) (i_height x) (i_width x)
                                   (i_bitrate x))
                 (nth_error infos n)
  | None => None
  end.
Proof.
  destruct current as [[]|]; cbn;
    unfold HlsAdapter_getQualityLevels, DashAdapter_getQualityLevels,
           NativeAdapter_getQualityLevels;
    try (now destruct n).
  - destruct (a_hls a); [apply number_from_nth | now destruct n].
  - destruct (a_player a); [apply number_from_nth | now destruct n].
Qed.


(** ** The active option *)

Ltac zb :=
  symmetry;
  first [ apply Z.leb_le | apply Z.leb_gt | apply Z.ltb_lt | apply Z.ltb_ge
        | apply Z.eqb_eq | apply Z.eqb_neq
        | apply andb_true_intro; split; [apply Z.leb_le | apply Z.ltb_lt] ];
  lia.

Lemma filter_perm (f : Level -> bool) (l l' : list Level) :
  Permutation l l' -> Permutation (filter f l) (filter f l').
Proof.
  induction 1 as [|x l l' _ IH|x y l|l l' l'' _ IH1 _ IH2]; cbn [filter].
  - constructor.
  - destruct (f x); [now constructor | exact IH].
  - destruct (f x), (f y); try apply Permutation_refl. apply perm_swap.
  - now apply Permutation_trans with (filter f l').
Qed.

Lemma filter_level_option (c : Z) (l : list Level) :
  filter o_active (map (level_option c) l) =
  map (level_option c) (filter (fun v => c =? index v) l).
Proof.
  induction l as [|x l IH]; [reflexivity|].
  cbn [map filter]. unfold level_option at 1. cbn [o_active].
  destruct (c =? index x); cbn [map]; now rewrite IH.
Qed.

(** The levels numbered from [i] that carry the number [c]. *)
Lemma number_from_pick (infos : list Info) (i c : Z) :
  filter (fun v => c =? index v) (number_from i infos) =
  if (i <=? c) && (c <? i + Z.of_nat (List.length infos))
  then match nth_error (number_from i infos) (Z.to_nat (c - i)) with
       | Some v => [v]
       | None => []
       end
  else [].
Proof.
  revert i. induction infos as [|x infos IH]; intros i.
  - cbn [number_from filter List.length].
    destruct ((i <=? c) && (c <? i + Z.of_nat 0));
      [destruct (Z.to_nat (c - i))|]; reflexivity.
  - cbn [number_from filter index List.length]. rewrite IH.
    destruct (c =? i) eqn:E.
    + apply Z.eqb_eq in E. subst c.
      replace (i + 1 <=? i) with false by zb. cbn [andb].
      replace (i <=? i) with true by zb.
      replace (i <? i + Z.of_nat (S (List.length infos))) with true by zb.
      cbn [andb]. now rewrite Z.sub_diag.
    + apply Z.eqb_neq in E.
      destruct (i + 1 <=? c) eqn:E1.
      * replace (i <=? c) with true by zb. cbn [andb].
        replace (i + 1 + Z.of_nat (List.length infos))
          with (i + Z.of_nat (S (List.length infos))) by lia.
        destruct (c <? i + Z.of_nat (S (List.length infos))); [|reflexivity].
        replace (Z.to_nat (c - i)) with (S (Z.to_nat (c - (i + 1)))) by lia.
        reflexivity.
      * cbn [andb]. replace (i <=? c) with false by zb. reflexivity.
Qed.

(** X23: With the levels an adapter reports, the popup marks exactly one
    option as active when the current quality is Auto or the number of a
    level: the option that selects the current quality. *)
Theorem render_marks_one_option (qs : QualitySelector)
    (old : list Option_) (infos : list Info) :
  popup qs = Some old ->
  levels qs = number_from 0 infos ->
  currentQuality qs = AUTO \/
  0 <= currentQuality qs < Z.of_nat (List.length infos) ->
  exists o,
    active_options (render qs) = [o] /\ o_selects o = currentQuality qs.
Proof.
  intros Hp Hl Hc. unfold active_options, render. rewrite Hp.
  unfold set_popup. cbn [popup filter o_active].
  rewrite filter_level_option, Hl.
  set (c := currentQuality qs) in *.
  assert (P : Permutation
                (filter (fun v => c =? index v) (sort (number_from 0 infos)))
                (filter (fun v => c =? index v) (number_from 0 infos)))
    by (apply filter_perm, sort_perm).
  rewrite number_from_pick in P.
  destruct Hc as [Hc|Hc].
  - replace (0 <=? c) with false in P by (unfold AUTO in Hc; zb).
    cbn [andb] in P.
    rewrite (Permutation_nil (Permutation_sym P)).
    rewrite Hc. cbn. eexists; split; reflexivity.
  - replace (c =? AUTO) with false by (unfold AUTO; zb).
    replace ((0 <=? c) && (c <? 0 + Z.of_nat (List.length infos)))
      with true in P by zb.
    rewrite number_from_nth in P.
    destruct (nth_error infos (Z.to_nat (c - 0))) as [x|] eqn:En.
    + cbn [option_map] in P.
      apply Permutation_sym, Permutation_length_1_inv in P. rewrite P.
      cbn [map]. eexists; split; [reflexivity|].
      cbn. lia.
    + apply nth_error_None in En. lia.
Qed.

Lemma render_marks_one_option_witness :
  let qs := select 2 (updateLevels (selector_on three_steps)) in
  active_options (render qs) = [mkOption (LabelHeight 720) 2 true].
Proof.
  intros qs.
  assert (Hp : popup qs = Some [mkOption LabelAuto AUTO false;
                                mkOption (LabelHeight 1080) 1 false;
                                mkOption (LabelHeight 720) 2 true;
                                mkOption (LabelHeight 480) 0 false])
    by reflexivity.
  assert (Hl : levels qs = number_from 0 three_steps) by reflexivity.
  assert (Hc : currentQuality qs = AUTO \/
               0 <= currentQuality qs < Z.of_nat (List.length three_steps))
    by (right; cbn; lia).
  destruct (render_marks_one_option qs _ three_steps Hp Hl Hc) as (o & H & _).
  rewrite H. vm_compute in H. exact (eq_sym H).
Defined.


(** ** updateLevels *)

(** X24: [updateLevels()] shows the button exactly when the manager reports
    two levels or more.  With fewer it leaves the popup as it was: open
    if it was open, and listing the options of the previous stream.  With
    two or more it lists the new levels, Auto active, without opening or
    closing the popup. *)
Theorem updateLevels_button (qs : QualitySelector) (pm : Manager)
    (hidden : bool) :
  playerManager qs = Some pm -> button qs = Some hidden ->
  let few := Z.of_nat (List.length (m_levels pm)) <=? 1 in
  let qs' := updateLevels qs in
  button qs' = Some few /\
  popup_visible qs' = popup_visible qs /\
  popup qs' =
    match popup qs with
    | Some old =>
        if few then Some old
        else Some (mkOption LabelAuto AUTO true
                   :: map (level_option AUTO) (sort (m_levels pm)))
    | None => None
    end.
Proof.
  destruct qs as [m pop vis btn cur lv]. cbn. intros -> ->.
  unfold updateLevels. cbn.
  destruct (Z.of_nat (List.length (m_levels pm)) <=? 1); cbn.
  - now destruct pop.
  - unfold render. cbn. now destruct pop.
Qed.

Lemma updateLevels_button_witness :
  let one := [mkInfo (Some 720) (Some 1280) (Some 2500000)] in
  let pm := mkManager (getQualityLevels (Some hls)
                         (mkAdapters (Some one) None)) [] in
  let open := set_visible true (updateLevels (selector_on three_steps)) in
  let qs := mkQS (Some pm) (popup open) (popup_visible open) (button open)
                 (currentQuality open) (levels open) in
  button (updateLevels qs) = Some true /\
  popup_visible (updateLevels qs) = true /\
  popup (updateLevels qs) = popup open.
Proof.
  intros one pm open qs.
  destruct (updateLevels_button qs pm false eq_refl eq_refl)
    as (H1 & H2 & H3).
  split; [exact H1|]. split; [exact H2 | exact H3].
Defined.

(** ** select *)

(** X25: [select(i)] calls [setQuality(i)] on the manager once, whether or not
    [i] is the number of a level, closes the popup, and lists the options
    again with exactly those active that select [i]. *)
Theorem select_marks_choice (qs : QualitySelector) (pm : Manager)
    (old : list Option_) (i : Z) :
  playerManager qs = Some pm -> popup qs = Some old ->
  let qs' := select i qs in
  playerManager qs' = Some (mkManager (m_levels pm) (i :: m_setQuality pm)) /\
  popup_visible qs' = false /\
  currentQuality qs' = i /\ levels qs' = levels qs /\
  exists options,
    popup qs' = Some options /\
    List.length options = S (List.length (levels qs)) /\
    forall o, In o options -> o_active o = (i =? o_selects o).
Proof.
  destruct qs as [m pop vis btn cur lv]. cbn. intros -> ->.
  unfold select, manager_setQuality, render, hide, set_visible, set_popup.
  cbn. repeat (split; [reflexivity|]).
  eexists. split; [reflexivity|]. split.
  - cbn [List.length]. rewrite length_map.
    f_equal. apply Permutation_length, sort_perm.
  - intros o [<-|H]; [reflexivity|].
    apply in_map_iff in H as (v & <- & _). reflexivity.
Qed.

Lemma select_marks_choice_witness :
  let qs := updateLevels (selector_on three_steps) in
  playerManager (select 7 qs) =
    Some (mkManager (number_from 0 three_steps) [7]) /\
  active_options (select 7 qs) = [].
Proof.
  intros qs.
  destruct (select_marks_choice qs (mkManager (number_from 0 three_steps) [])
              [mkOption LabelAuto AUTO true;
               mkOption (LabelHeight 1080) 1 false;
               mkOption (LabelHeight 720) 2 false;
               mkOption (LabelHeight 480) 0 false] 7 eq_refl eq_refl)
    as (H1 & _).
  split; [exact H1 | reflexivity].
Defined.

(** ** toggle, show and clear *)

(** X26: [toggle()] opens the popup only when it is closed and there are two
    levels or more; in every other case the popup is closed afterwards.
    After [clear()] the popup is closed and [toggle()] cannot open it. *)
Theorem toggle_visibility (qs qs' : QualitySelector) :
  toggle qs = Some qs' ->
  popup_visible qs' =
    negb (popup_visible qs) && (1 <? Z.of_nat (List.length (levels qs))) /\
  popup_visible (clear qs) = false /\
  exists qs'', toggle (clear qs) = Some qs'' /\ popup_visible qs'' = false.
Proof.
  destruct qs as [m pop vis btn cur lv]. unfold toggle. cbn.
  destruct pop as [old|]; [|discriminate]. intros [= <-].
  split; [|split].
  - destruct vis; cbn; [reflexivity|].
    unfold show. cbn. rewrite Z.leb_antisym.
    destruct (1 <? Z.of_nat (List.length lv)); reflexivity.
  - reflexivity.
  - unfold clear, hide, set_hidden, set_visible. cbn.
    eexists. split; reflexivity.
Qed.

Lemma toggle_visibility_witness :
  let one := selector_on [mkInfo (Some 720) (Some 1280) (Some 2500000)] in
  (exists qs', toggle (updateLevels one) = Some qs' /\
               popup_visible qs' = false) /\
  (exists qs', toggle (updateLevels (selector_on three_steps)) = Some qs' /\
               popup_visible qs' = true).
Proof.
  intros one. split.
  - eexists. split; [reflexivity|].
    exact (proj1 (toggle_visibility (updateLevels one) _ eq_refl)).
  - eexists. split; [reflexivity|].
    exact (proj1 (toggle_visibility
                    (updateLevels (selector_on three_steps)) _ eq_refl)).
Defined.

End QualityMoreProofs.

(* ================================================================== *)
(** * Properties of the keyboard shortcuts *)
(* ================================================================== *)

Module ShortcutsProofs.
Import Recorder Shortcuts.

Lemma jseqb_eq (a b : jsstring) : jseqb a b = true <-> a = b.
Proof.
  revert b. induction a as [|x a IH]; intros [|y b]; cbn;
    try (split; [discriminate | discriminate]); [tauto|].
  rewrite andb_true_iff, N.eqb_eq, IH. split.
  - intros [-> ->]. reflexivity.
  - intros [= -> ->]. split; reflexivity.
Qed.

Lemma jseqb_refl (a : jsstring) : jseqb a a = true.
Proof. now apply jseqb_eq. Qed.

Lemma jseqb_neq (a b : jsstring) : jseqb a b = false <-> a <> b.
Proof.
  rewrite <- jseqb_eq. destruct (jseqb a b); split; congruence.
Qed.

Lemma has_own_In (name : jsstring) (o : Obj) :
  has_own name o = true <-> In name (map fst o).
Proof.
  unfold has_own. rewrite existsb_exists, in_map_iff. split.
  - intros (p & Hp & E). apply jseqb_eq in E. now exists p.
  - intros (p & E & Hp). exists p. split; [exact Hp|]. now apply jseqb_eq.
Qed.


(** ** Assignment to a property *)

Lemma update_keys (name value : jsstring) (o : Obj) :
  map fst (update name value o) = map fst o.
Proof.
  induction o as [|[a k] o IH]; cbn; [reflexivity|].
  destruct (jseqb a name); cbn; [reflexivity | now rewrite IH].
Qed.

Lemma update_In (name value : jsstring) (o : Obj) (a k : jsstring) :
  NoDup (map fst o) -> In name (map fst o) ->
  (In (a, k) (update name value o) <->
   (a = name /\ k = value) \/ (a <> name /\ In (a, k) o)).
Proof.
  induction o as [|[a0 k0] o IH]; cbn [map fst update In]; intros Hnd Hin.
  - destruct Hin.
  - inversion Hnd as [|? ? Hnot Hnd']; subst.
    destruct (jseqb a0 name) eqn:E.
    + apply jseqb_eq in E. subst a0. cbn [In]. split.
      * intros [H|H]; [injection H as <- <-; now left|].
        right. split; [|now right].
        intros ->. apply Hnot. apply in_map_iff. now exists (name, k).
      * intros [[-> ->]|[Hne [H|H]]]; [now left | | now right].
        injection H as <- <-. congruence.
    + apply jseqb_neq in E. destruct Hin as [Hin|Hin]; [congruence|].
      cbn [In]. rewrite (IH Hnd' Hin). split.
      * intros [H|[H|[H1 H2]]].
        -- injection H as <- <-. right. split; [exact E | now left].
        -- now left.
        -- right. split; [exact H1 | now right].
      * intros [H|[Hne [H|H]]].
        -- right. now left.
        -- now left.
        -- right. right. now split.
Qed.

Lemma update_app (name value k : jsstring) (pre l : Obj) :
  ~ In name (map fst pre) ->
  update name value (pre ++ (name, k) :: l) = pre ++ (name, value) :: l.
Proof.
  induction pre as [|[a0 k0] pre IH]; cbn [app update map fst In]; intros H.
  - now rewrite jseqb_refl.
  - destruct (jseqb a0 name) eqn:E.
    + apply jseqb_eq in E. tauto.
    + rewrite IH; [reflexivity | tauto].
Qed.

(** ** The loop of rebind *)

Lemma unbound_key (action key : jsstring) (p : jsstring * jsstring) :
  fst (unbound action key p) = fst p.
Proof.
  unfold unbound.
  now destruct (jseqb (snd p) key && negb (jseqb (fst p) action)).
Qed.

Lemma unbound_keys (action key : jsstring) (o : Obj) :
  map fst (map (unbound action key) o) = map fst o.
Proof.
  rewrite map_map. apply map_ext. intros p. apply unbound_key.
Qed.

Lemma unbind_loop (action key : jsstring) (l pre : Obj) :
  NoDup (map fst (pre ++ l)) ->
  fold_left
    (fun s p =>
       if jseqb (snd p) key && negb (jseqb (fst p) action)
       then assign (fst p) [] s
       else s)
    l (pre ++ l)
  = pre ++ map (unbound action key) l.
Proof.
  revert pre. induction l as [|[a k] l IH]; intros pre Hnd;
    cbn [fold_left map]; [reflexivity|].
  assert (Hpre : ~ In a (map fst pre)).
  { rewrite map_app in Hnd. cbn [map fst] in Hnd.
    apply NoDup_remove_2 in Hnd. intros H. apply Hnd.
    apply in_or_app. now left. }
  assert (Hnd' : forall v, NoDup (map fst ((pre ++ [(a, v)]) ++ l))).
  { intros v. rewrite <- app_assoc. cbn [app].
    rewrite map_app in *. exact Hnd. }
  unfold unbound at 1. cbn [fst snd].
  destruct (jseqb k key && negb (jseqb a action)).
  - unfold assign.
    replace (has_own a (pre ++ (a, k) :: l)) with true
      by (symmetry; apply has_own_In; rewrite map_app; apply in_or_app;
          right; now left).
    rewrite update_app by exact Hpre.
    change (pre ++ (a, []) :: l) with (pre ++ [(a, [])] ++ l).
    rewrite app_assoc, IH by apply Hnd'. now rewrite <- app_assoc.
  - change (pre ++ (a, k) :: l) with (pre ++ [(a, k)] ++ l).
    rewrite app_assoc, IH by apply Hnd'. now rewrite <- app_assoc.
Qed.

Lemma unbind_others_map (action key : jsstring) (o : Obj) :
  NoDup (map fst o) ->
  unbind_others action key o = map (unbound action key) o.
Proof. intros H. exact (unbind_loop action key o [] H). Qed.

Lemma unbound_In (action key : jsstring) (o : Obj) (a k : jsstring) :
  In (a, k) (map (unbound action key) o) <->
  (In (a, k) o /\ (k <> key \/ a = action)) \/
  (k = [] /\ In (a, key) o /\ a <> action).
Proof.
  rewrite in_map_iff. unfold unbound. split.
  - intros ([a0 k0] & E & Hin). cbn [fst snd] in E.
    destruct (jseqb k0 key) eqn:E1; cbn [andb] in E.
    + apply jseqb_eq in E1. subst k0.
      destruct (jseqb a0 action) eqn:E2; cbn [negb] in E;
        injection E as <- <-.
      * apply jseqb_eq in E2. left. split; [exact Hin | now right].
      * apply jseqb_neq in E2. right. repeat split; assumption.
    + apply jseqb_neq in E1. injection E as <- <-.
      left. split; [exact Hin | now left].
  - intros [[Hin H]|(-> & Hin & Hne)].
    + exists (a, k). split; [|exact Hin]. cbn [fst snd].
      destruct H as [H| ->].
      * apply jseqb_neq in H. now rewrite H.
      * rewrite jseqb_refl. cbn [negb]. now rewrite andb_false_r.
    + exists (a, key). split; [|exact Hin]. cbn [fst snd].
      apply jseqb_neq in Hne. now rewrite jseqb_refl, Hne.
Qed.

(** ** getActionForKey *)

Lemma getActionForKey_In (key : jsstring) (o : Obj) (a : jsstring) :
  getActionForKey key o = Some a -> In (a, key) o.
Proof.
  induction o as [|[a0 k0] o IH]; cbn [getActionForKey]; [discriminate|].
  destruct (jseqb k0 key) eqn:E.
  - apply jseqb_eq in E. intros [= <-]. left. now subst.
  - intros H. right. now apply IH.
Qed.

Lemma getActionForKey_only (key action : jsstring) (o : Obj) :
  In (action, key) o ->
  (forall a, In (a, key) o -> a = action) ->
  getActionForKey key o = Some action.
Proof.
  induction o as [|[a0 k0] o IH]; cbn [getActionForKey In]; [tauto|].
  intros Hin Hall. destruct (jseqb k0 key) eqn:E.
  - apply jseqb_eq in E. subst k0. f_equal. apply Hall. now left.
  - apply jseqb_neq in E. apply IH.
    + destruct Hin as [H|H]; [congruence | exact H].
    + intros a H. apply Hall. now right.
Qed.

(** ** rebind *)

(** X27: [rebind(action, key)] of an action the object has takes the key away
    from every other action: after it the key triggers [action] alone,
    each other action that was bound to the key is bound to the empty
    string, and all other bindings are as before. *)
Theorem rebind_steals_key (shortcuts : Obj) (action key : jsstring) :
  NoDup (map fst shortcuts) ->
  has action DEFAULT_SHORTCUTS = true ->
  has_own action shortcuts = true -> key <> [] ->
  let s' := rebind action key shortcuts in
  getActionForKey key s' = Some action /\
  map fst s' = map fst shortcuts /\
  forall a k, a <> action ->
    (In (a, k) s' <->
     (In (a, k) shortcuts /\ k <> key) \/ (k = [] /\ In (a, key) shortcuts)).
Proof.
  intros Hnd Hdef Hown Hkey. cbv zeta. unfold rebind. rewrite Hdef.
  cbn [negb]. rewrite unbind_others_map by exact Hnd.
  set (cleared := map (unbound action key) shortcuts).
  assert (Hk : map fst cleared = map fst shortcuts) by apply unbound_keys.
  assert (Hown' : has_own action cleared = true)
    by (apply has_own_In; rewrite Hk; now apply has_own_In).
  unfold assign. rewrite Hown'.
  assert (Hnd' : NoDup (map fst cleared)) by now rewrite Hk.
  assert (Hin' : In action (map fst cleared)) by now apply has_own_In.
  assert (Hother : forall a k, a <> action ->
            (In (a, k) (update action key cleared) <->
             (In (a, k) shortcuts /\ k <> key) \/
             (k = [] /\ In (a, key) shortcuts))).
  { intros a k Hne. rewrite (update_In action key cleared a k Hnd' Hin').
    subst cleared. rewrite unbound_In. tauto. }
  split; [|split; [now rewrite update_keys|exact Hother]].
  apply getActionForKey_only.
  - apply (update_In action key cleared action key Hnd' Hin'). now left.
  - intros a H. destruct (jseqb a action) eqn:E; [now apply jseqb_eq|].
    apply jseqb_neq in E. apply (Hother a key E) in H.
    destruct H as [[_ H]|[H _]]; congruence.
Qed.

Lemma DEFAULT_SHORTCUTS_keys : NoDup (map fst DEFAULT_SHORTCUTS).
Proof.
  vm_compute.
  repeat (constructor;
          [cbn [In]; intros H;
           repeat (destruct H as [H|H]; [discriminate|]); exact H|]).
  constructor.
Qed.

Lemma rebind_steals_key_witness :
  let s' := rebind (js "mute") (js "f") DEFAULT_SHORTCUTS in
  getActionForKey (js "f") DEFAULT_SHORTCUTS = Some (js "fullscreen") /\
  getActionForKey (js "f") s' = Some (js "mute") /\
  In (js "fullscreen", []) s'.
Proof.
  intros s'.
  assert (Hk : js "f" <> []) by discriminate.
  destruct (rebind_steals_key DEFAULT_SHORTCUTS (js "mute") (js "f")
              DEFAULT_SHORTCUTS_keys eq_refl eq_refl Hk) as (H1 & _ & H2).
  split; [reflexivity|]. split; [exact H1|].
  apply H2; [discriminate|]. right. split; [reflexivity|].
  vm_compute. tauto.
Defined.

(** ** The bindings a user can reach *)

Lemma DEFAULT_SHORTCUTS_unique : unique_keys DEFAULT_SHORTCUTS.
Proof.
  intros a b k _ Ha Hb. vm_compute in Ha, Hb.
  repeat (destruct Ha as [Ha|Ha];
          [injection Ha as <- <-;
           repeat (destruct Hb as [Hb|Hb];
                   [first [ discriminate Hb
                          | injection Hb as <-; reflexivity ]|]);
           destruct Hb|]).
  destruct Ha.
Qed.

Lemma rebind_unique (action key : jsstring) (o : Obj) :
  NoDup (map fst o) -> unique_keys o ->
  NoDup (map fst (rebind action key o)) /\ unique_keys (rebind action key o).
Proof.
  intros Hnd Hu. unfold rebind.
  destruct (has action DEFAULT_SHORTCUTS); cbn [negb]; [|now split].
  rewrite unbind_others_map by exact Hnd.
  set (cleared := map (unbound action key) o).
  assert (Hk : map fst cleared = map fst o) by apply unbound_keys.
  assert (Hnd' : NoDup (map fst cleared)) by now rewrite Hk.
  assert (Hu' : unique_keys cleared).
  { intros a b k Hne Ha Hb. subst cleared.
    apply unbound_In in Ha, Hb.
    destruct Ha as [[Ha _]|[Ha _]]; [|congruence].
    destruct Hb as [[Hb _]|[Hb _]]; [|congruence].
    exact (Hu a b k Hne Ha Hb). }
  assert (Hkey : forall a, key <> [] -> In (a, key) cleared -> a = action).
  { intros a Hne Ha. subst cleared. apply unbound_In in Ha.
    destruct Ha as [[_ [H|H]]|[H _]]; congruence. }
  unfold assign. destruct (has_own action cleared) eqn:Eo.
  - assert (Hin : In action (map fst cleared)) by now apply has_own_In.
    split; [now rewrite update_keys|].
    intros a b k Hne Ha Hb.
    apply (update_In action key cleared a k Hnd' Hin) in Ha.
    apply (update_In action key cleared b k Hnd' Hin) in Hb.
    destruct Ha as [[-> ->]|[Na Ha]], Hb as [[-> Eb]|[Nb Hb]].
    + reflexivity.
    + symmetry. now apply Hkey.
    + subst k. now apply Hkey.
    + exact (Hu' a b k Hne Ha Hb).
  - destruct (jseqb action (js "__proto__")); [now split|].
    assert (Hnot : ~ In action (map fst cleared)).
    { intros H. apply has_own_In in H. congruence. }
    split.
    + rewrite map_app. cbn [map fst].
      apply NoDup_app; [exact Hnd' | repeat constructor; intros [] |].
      intros x Hx [<-|[]]. now apply Hnot.
    + intros a b k Hne Ha Hb.
      apply in_app_or in Ha, Hb.
      destruct Ha as [Ha|[Ha|[]]], Hb as [Hb|[Hb|[]]].
      * exact (Hu' a b k Hne Ha Hb).
      * injection Hb as <- <-. now apply Hkey.
      * injection Ha as <- <-. symmetry. now apply Hkey.
      * congruence.
Qed.

(** X28: Whatever series of [rebind] calls is made on a new instance, with
    any action names and keys, no two actions end up bound to the same
    key (other than the empty string), so that [getActionForKey] finds
    for a key exactly the action bound to it. *)
Theorem bindings_stay_unique (calls : list (jsstring * jsstring)) :
  let s := rebound calls in
  NoDup (map fst s) /\ unique_keys s /\
  forall a k, k <> [] -> (getActionForKey k s = Some a <-> In (a, k) s).
Proof.
  intros s.
  assert (H : NoDup (map fst s) /\ unique_keys s).
  { subst s. unfold rebound.
    generalize DEFAULT_SHORTCUTS_keys, DEFAULT_SHORTCUTS_unique.
    generalize DEFAULT_SHORTCUTS.
    induction calls as [|[action key] calls IH]; intros o Hnd Hu;
      cbn [fold_left fst snd]; [now split|].
    destruct (rebind_unique action key o Hnd Hu) as [Hnd' Hu'].
    now apply IH. }
  destruct H as [Hnd Hu]. split; [exact Hnd|]. split; [exact Hu|].
  intros a k Hne. split; [apply getActionForKey_In|].
  intros Hin. apply getActionForKey_only; [exact Hin|].
  intros b Hb. exact (Hu b a k Hne Hb Hin).
Qed.

End ShortcutsProofs.

(* ================================================================== *)
(** * load and the adapter it replaces *)
(* ================================================================== *)

Module PlayerLoadProofs.
Import Player PlayerProofs PlayerMore PlayerMoreProofs.






End PlayerLoadProofs.
